(** * andreipimenov/algebra: package [matrix]

    A shallow embedding of [matrix/matrix.go] (the version with the
    embedded [sync.RWMutex], the one that has [Clone], [Add], [Sub], [Addn],
    [Scale] and [Dot]) and the proofs of its specification.

    Modelling choices, all taken from the source and from the Go language:

    - [int] is the 64-bit signed integer of a 64-bit Go platform: a [Z]
      with the wrap-around of [+], [-] and [*] written out ([wrap]);
    - [float64] is IEEE-754 binary64: Rocq's primitive [float], whose
      operations are specified by [SpecFloat] (all NaNs are one value
      there); every operation is rounded on its own, as on amd64, where
      the compiler fuses no multiplication with an addition;
    - a [*Matrix] is an address in a store of [Matrix] structs, and the
      [data []float64] field is an address in a second store of backing
      arrays: two structs can in principle point to the same array, so
      that "no shared storage" is a theorem and not a feature of the model;
    - every method is a computation in a state monad over that heap which
      either returns or panics (nil dereference, index out of range,
      [make] with an impossible length); running out of memory is not
      modelled;
    - the methods are executed by one goroutine: the [RLock]/[Lock] pairs
      around each element access are no-ops there and are left out;
    - [String] formats every element with [fmt]: what [fmt] prints for one
      element is an argument of its model, and [fmt_f] is a model of the verb
      [%-15.3f] to run it with;
    - the program [examples/matrix/main.go] is modelled too, the random
      numbers it draws being arguments.

    The module [Locked] is the same code with its locks, and [locks_erase]
    shows that in a program with one goroutine it does what the code without
    them does. The module [Steps] cuts the code at its critical sections, for
    programs with several goroutines. *)

From Stdlib Require Import ZArith Bool Floats Lia Ascii.
From stdpp Require Import base tactics option list.

Local Open Scope Z_scope.

(** ** Machine integers *)

Definition int_min : Z := - 2 ^ 63.
Definition int_max : Z := 2 ^ 63 - 1.

(** Two's complement wrap-around of a mathematical integer into [int]. *)
Definition wrap (z : Z) : Z := (z + 2 ^ 63) mod 2 ^ 64 - 2 ^ 63.

Definition int_add (a b : Z) : Z := wrap (a + b).
Definition int_sub (a b : Z) : Z := wrap (a - b).
Definition int_mul (a b : Z) : Z := wrap (a * b).

(** ** The heap *)

(** A [*Matrix]. *)
Definition ptr := nat.
(** A [[]float64] obtained from [make] and never resliced: the address of
    its backing array, whose length is the length of the slice. *)
Definition slice := nat.

(** [type Matrix struct { rows int; cols int; data []float64; sync.RWMutex }] *)
Record Matrix : Type := mkMatrix {
  rows : Z;
  cols : Z;
  data : slice
}.

Record heap : Type := mkHeap {
  objs : list Matrix;
  mems : list (list float)
}.

Definition empty_heap : heap := mkHeap [] [].

(** ** The monad of Go computations *)

Inductive outcome (A : Type) : Type :=
| Done (a : A) (h : heap)
| Panic.
Arguments Done {A} a h.
Arguments Panic {A}.

Definition M (A : Type) : Type := heap -> outcome A.

#[global] Instance M_ret : MRet M := fun A a h => Done a h.
#[global] Instance M_bind : MBind M := fun A B k c h =>
  match c h with
  | Done a h' => k a h'
  | Panic => Panic
  end.

(** [*p] *)
Definition deref (p : ptr) : M Matrix := fun h =>
  match objs h !! p with
  | Some m => Done m h
  | None => Panic
  end.

(** [&Matrix{...}] *)
Definition alloc (m : Matrix) : M ptr := fun h =>
  Done (length (objs h)) (mkHeap (objs h ++ [m]) (mems h)).

(** The runtime refuses a slice whose size in bytes exceeds [maxAlloc]
    (2^48 on a 64-bit platform); a [float64] takes 8 bytes. *)
Definition maxAlloc : Z := 2 ^ 48.
Definition elemSize : Z := 8.
Definition maxLen : Z := 2 ^ 45.

(** [make([]float64, n)]: panics on a negative or too large length
    ("makeslice: len out of range"), otherwise a fresh zeroed array. *)
Definition make (n : Z) : M slice := fun h =>
  if (n <? 0) || (maxAlloc <? elemSize * n) then Panic
  else Done (length (mems h))
            (mkHeap (objs h) (mems h ++ [replicate (Z.to_nat n) 0%float])).

(** [s[k]] *)
Definition index (s : slice) (k : Z) : M float := fun h =>
  match mems h !! s with
  | Some d =>
      if k <? 0 then Panic
      else match d !! Z.to_nat k with
           | Some v => Done v h
           | None => Panic
           end
  | None => Panic
  end.

(** [s[k] = v] *)
Definition assign (s : slice) (k : Z) (v : float) : M unit := fun h =>
  match mems h !! s with
  | Some d =>
      if (0 <=? k) && (k <? Z.of_nat (length d))
      then Done tt (mkHeap (objs h) (<[s := <[Z.to_nat k := v]> d]> (mems h)))
      else Panic
  | None => Panic
  end.

(** [copy(dst, src)]: the first [min (len dst) (len src)] elements. *)
Definition copy (dst src : slice) : M unit := fun h =>
  match mems h !! dst, mems h !! src with
  | Some d, Some s =>
      Done tt (mkHeap (objs h)
                 (<[dst := take (length d) s ++ drop (length s) d]> (mems h)))
  | _, _ => Panic
  end.

(** [for i := 0; i < bound; i++ { a = body i a }]. The bounds of the
    package's loops are the fields [rows] and [cols], which no statement
    assigns after the struct literal; [i] stays below the bound, so [i++]
    does not overflow. *)
Fixpoint loop {A : Type} (n : nat) (i : Z) (body : Z -> A -> M A) (a : A) : M A :=
  match n with
  | O => mret a
  | S n' => a' ← body i a; loop n' (i + 1) body a'
  end.

Definition for_acc {A : Type} (bound : Z) (body : Z -> A -> M A) (a : A) : M A :=
  loop (Z.to_nat bound) 0 body a.

Definition for_ (bound : Z) (body : Z -> M unit) : M unit :=
  for_acc bound (fun i _ => body i) tt.

(** ** Errors *)

(** The four [fmt.Errorf] calls of the package, with their arguments. *)
Inductive error : Type :=
| InvalidDimensions (r c : Z)
    (* "Dimetions %dx%d must not being negative" *)
| NegativeIndex (i j : Z)
    (* "Position (%d, %d) must not being negative" *)
| IndexOutOfRange (i j imax jmax : Z)
    (* "Position (%d, %d) is out of the range (0:%d, 0:%d)" *)
| DimensionMismatch (r1 c1 r2 c2 : Z).
    (* "Dimentions of two matrices %dx%d and %dx%d are not equal" *)

(** ** The package *)

Definition New (r c : Z) : M (option ptr * option error) :=
  if (r <? 0) || (c <? 0) then mret (None, Some (InvalidDimensions r c))
  else
    d ← make (int_mul r c);
    p ← alloc (mkMatrix r c d);
    mret (Some p, None).

Definition Dimentions (p : ptr) : M (Z * Z) :=
  m ← deref p; mret (rows m, cols m).

Definition checkRange (p : ptr) (i j : Z) : M (option error) :=
  if (i <? 0) || (j <? 0) then mret (Some (NegativeIndex i j))
  else
    m ← deref p;
    if (i >=? rows m) || (j >=? cols m)
    then mret (Some (IndexOutOfRange i j (int_sub (rows m) 1) (int_sub (cols m) 1)))
    else mret None.

Definition checkEqualDimentions (p x : ptr) : M (option error) :=
  m ← deref p;
  mx ← deref x;
  if negb (rows m =? rows mx) || negb (cols m =? cols mx)
  then mret (Some (DimensionMismatch (rows m) (cols m) (rows mx) (cols mx)))
  else mret None.

Definition get (p : ptr) (i j : Z) : M float :=
  m ← deref p; index (data m) (int_add (int_mul (cols m) i) j).

Definition set (p : ptr) (i j : Z) (v : float) : M unit :=
  m ← deref p; assign (data m) (int_add (int_mul (cols m) i) j) v.

Definition Get (p : ptr) (i j : Z) : M (float * option error) :=
  e ← checkRange p i j;
  match e with
  | Some err => mret (0%float, Some err)
  | None => v ← get p i j; mret (v, None)
  end.

(** [Set]: the name is a sort of Rocq's, hence the underscore. *)
Definition Set_ (p : ptr) (i j : Z) (v : float) : M (option error) :=
  e ← checkRange p i j;
  match e with
  | Some err => mret (Some err)
  | None => set p i j v;; mret None
  end.

(** The callback is a function of its three arguments only. *)
Definition Each (p : ptr) (f : Z -> Z -> float -> float) : M unit :=
  m ← deref p;
  for_ (rows m) (fun i =>
    for_ (cols m) (fun j =>
      v ← get p i j; set p i j (f i j v))).

Definition T (p : ptr) : M ptr :=
  m ← deref p;
  d ← make (int_mul (rows m) (cols m));
  t ← alloc (mkMatrix (cols m) (rows m) d);
  for_ (rows m) (fun i =>
    for_ (cols m) (fun j =>
      v ← get p i j; set t j i v));;
  mret t.

Definition Clone (p : ptr) : M ptr :=
  m ← deref p;
  d ← make (int_mul (rows m) (cols m));
  c ← alloc (mkMatrix (rows m) (cols m) d);
  copy d (data m);;
  mret c.

Definition Add (p x : ptr) : M (option error) :=
  e ← checkEqualDimentions p x;
  match e with
  | Some err => mret (Some err)
  | None =>
      m ← deref p;
      for_ (rows m) (fun i =>
        for_ (cols m) (fun j =>
          a ← get p i j; b ← get x i j; set p i j (a + b)%float));;
      mret None
  end.

Definition Sub (p x : ptr) : M (option error) :=
  e ← checkEqualDimentions p x;
  match e with
  | Some err => mret (Some err)
  | None =>
      m ← deref p;
      for_ (rows m) (fun i =>
        for_ (cols m) (fun j =>
          a ← get p i j; b ← get x i j; set p i j (a - b)%float));;
      mret None
  end.

Definition Addn (p : ptr) (n : float) : M unit :=
  m ← deref p;
  for_ (rows m) (fun i =>
    for_ (cols m) (fun j =>
      a ← get p i j; set p i j (a + n)%float)).

Definition Scale (p : ptr) (n : float) : M unit :=
  m ← deref p;
  for_ (rows m) (fun i =>
    for_ (cols m) (fun j =>
      a ← get p i j; set p i j (a * n)%float)).

Definition Dot (p x : ptr) : M (float * option error) :=
  e ← checkEqualDimentions p x;
  match e with
  | Some err => mret (0%float, Some err)
  | None =>
      m ← deref p;
      r ← for_acc (rows m) (fun i r =>
             for_acc (cols m) (fun j r =>
               a ← get p i j; b ← get x i j; mret (r + a * b)%float) r) 0%float;
      mret (r, None)
  end.

(** ** Running the code on small inputs *)

(** Fill a freshly made matrix from a row-major list, with [Set_]. *)
Fixpoint fill (p : ptr) (c : Z) (k : Z) (l : list float) : M unit :=
  match l with
  | [] => mret tt
  | v :: l' => Set_ p (k / c) (k mod c) v;; fill p c (k + 1) l'
  end.

Definition matrix_of (r c : Z) (l : list float) : M ptr :=
  '(p, _) ← New r c;
  match p with
  | Some p => fill p c 0 l;; mret p
  | None => fun _ => Panic
  end.

(** ** What the specification talks about *)

(** [p] points to the struct [m], whose backing array holds [d]. *)
Definition repr (h : heap) (p : ptr) (m : Matrix) (d : list float) : Prop :=
  objs h !! p = Some m /\ mems h !! data m = Some d.

(** The data model of the specification: non-negative dimensions and
    [len(data) == rows * cols], a length that [make] can have produced. *)
Definition shaped (m : Matrix) (d : list float) : Prop :=
  0 <= rows m /\ 0 <= cols m /\
  Z.of_nat (length d) = rows m * cols m /\ rows m * cols m <= maxLen.

Definition valid (h : heap) (p : ptr) (m : Matrix) (d : list float) : Prop :=
  repr h p m d /\ shaped m d.

Definition in_range (m : Matrix) (i j : Z) : Prop :=
  0 <= i < rows m /\ 0 <= j < cols m.

(** Row-major position of the cell [(i, j)]. *)
Definition offset (m : Matrix) (i j : Z) : nat := Z.to_nat (cols m * i + j).

(** The heap after the backing array of [m] has been replaced by [d']. *)
Definition with_data (h : heap) (m : Matrix) (d' : list float) : heap :=
  mkHeap (objs h) (<[data m := d']> (mems h)).

(** Left-to-right accumulation of the products of two rows-major contents,
    as [Dot] does it: [r += a * b], starting from [r]. *)
Definition dot_acc (r : float) (d xd : list float) : float :=
  fold_left (fun r ab => (r + fst ab * snd ab)%float) (zip d xd) r.

(** The contents after every cell [(i, j)] has been replaced by
    [g i j] of its old value. *)
Definition cellwise (m : Matrix) (g : Z -> Z -> float -> float)
    (d : list float) : list float :=
  imap (fun k v => g (Z.of_nat k / cols m) (Z.of_nat k mod cols m) v) d.

(** The heap after a struct and its fresh backing array have been
    allocated. *)
Definition grow (h : heap) (m : Matrix) (d : list float) : heap :=
  mkHeap (objs h ++ [m]) (mems h ++ [d]).

(** Exclusive ownership: every struct points to an allocated array, and no
    two structs point to the same one. *)
Definition owned (h : heap) : Prop :=
  (forall q mq, objs h !! q = Some mq -> (data mq < length (mems h))%nat) /\
  (forall p q m mq,
     objs h !! p = Some m -> objs h !! q = Some mq -> data m = data mq -> p = q).

(** Between [h] and [h'] no matrix changed its dimensions or the length
    of its storage. *)
Definition keeps_shape (h h' : heap) : Prop :=
  forall q mq dq, valid h q mq dq ->
    exists dq', valid h' q mq dq' /\ length dq' = length dq.

(** A caller that applies [Set_] to the same matrix several times,
    ignoring the returned errors. *)
Fixpoint Sets (p : ptr) (l : list (Z * Z * float)) : M unit :=
  match l with
  | [] => mret tt
  | (i, j, v) :: l' => Set_ p i j v;; Sets p l'
  end.

(** The calls a client of the package can make, and the heaps it can
    build with them from nothing. *)
Inductive call : Type :=
| CallNew (r c : Z)
| CallDimentions (p : ptr)
| CallGet (p : ptr) (i j : Z)
| CallSet (p : ptr) (i j : Z) (v : float)
| CallEach (p : ptr) (f : Z -> Z -> float -> float)
| CallT (p : ptr)
| CallClone (p : ptr)
| CallAdd (p x : ptr)
| CallSub (p x : ptr)
| CallAddn (p : ptr) (n : float)
| CallScale (p : ptr) (n : float)
| CallDot (p x : ptr).

Definition run (c : call) : M unit :=
  match c with
  | CallNew r c => New r c;; mret tt
  | CallDimentions p => Dimentions p;; mret tt
  | CallGet p i j => Get p i j;; mret tt
  | CallSet p i j v => Set_ p i j v;; mret tt
  | CallEach p f => Each p f
  | CallT p => T p;; mret tt
  | CallClone p => Clone p;; mret tt
  | CallAdd p x => Add p x;; mret tt
  | CallSub p x => Sub p x;; mret tt
  | CallAddn p n => Addn p n
  | CallScale p n => Scale p n
  | CallDot p x => Dot p x;; mret tt
  end.

Inductive reachable : heap -> Prop :=
| reachable_empty : reachable empty_heap
| reachable_call (h h' : heap) (c : call) :
    reachable h -> run c h = Done tt h' -> reachable h'.

Fixpoint runs (l : list call) : M unit :=
  match l with
  | [] => mret tt
  | c :: l' => run c;; runs l'
  end.

(** [h'] has the structs of [h], unchanged, and its arrays, each with the
    length it had. *)
Definition framed (h h' : heap) : Prop :=
  objs h' = objs h /\ length <$> mems h' = length <$> mems h.

(** Sample heaps: [A = [[1,2],[3,4]]] and [B = [[5,6],[7,8]]]; a 2x3 and
    a 3x2 matrix. *)
Definition heap_AB : heap :=
  mkHeap [mkMatrix 2 2 0%nat; mkMatrix 2 2 1%nat]
         [[1; 2; 3; 4]%float; [5; 6; 7; 8]%float].

Definition heap_23_32 : heap :=
  mkHeap [mkMatrix 2 3 0%nat; mkMatrix 3 2 1%nat]
         [[1; 2; 3; 4; 5; 6]%float; [0; 0; 0; 0; 0; 0]%float].

(** Heaps with a 1x1 matrix holding [-0.0], and with two 1x1 matrices:
    [2^1023] and [2^1023], whose sum overflows; [1] and [2^53], whose sum
    is rounded. *)
Definition heap_negzero : heap :=
  mkHeap [mkMatrix 1 1 0%nat] [[neg_zero]].

Definition heap_huge : heap :=
  mkHeap [mkMatrix 1 1 0%nat; mkMatrix 1 1 1%nat]
         [[0x1p1023%float]; [0x1p1023%float]].

Definition heap_round : heap :=
  mkHeap [mkMatrix 1 1 0%nat; mkMatrix 1 1 1%nat]
         [[1%float]; [0x1p53%float]].

(** The heap after two calls of [New(1<<32, 1<<32)]: two 4294967296 x
    4294967296 matrices, each with a backing array of its own, of length 0,
    the product of the dimensions having wrapped around to [0]. Neither
    matrix satisfies the data model. *)
Definition heap_wrapped : heap :=
  mkHeap [mkMatrix 4294967296 4294967296 0%nat; mkMatrix 4294967296 4294967296 1%nat]
         [[]; []].

(** ** More of the package *)

(** [Each] once more, for a callback that is a closure: [s] stands for
    whatever the callback captures or reaches besides the matrix (a counter,
    a random source, a log), and [f i j v s] is the value it returns together
    with the state it leaves. Go evaluates [m.get(i, j)], then [f], then
    [m.set]. With a callback that ignores [s] this is [Each]
    ([EachS_stateless]). *)
Definition EachS {St : Type} (p : ptr) (f : Z -> Z -> float -> St -> float * St)
    (s : St) : M St :=
  m ← deref p;
  for_acc (rows m) (fun i s =>
    for_acc (cols m) (fun j s =>
      v ← get p i j;
      let '(w, s') := f i j v s in
      set p i j w;; mret s') s) s.

(** The byte [\n]. *)
Definition newline : ascii := "010"%char.

(** [String]: the name is a constructor of Rocq's strings, hence the
    underscore. A Go string is a sequence of bytes, here a [list ascii], and
    the [bytes.Buffer] is the list written so far. What
    [fmt.Fprintf(b, "%-15.3f", v)] appends is decided by Go's library, not by
    this package: it is the argument [field]. *)
Definition String_ (field : float -> list ascii) (p : ptr) : M (list ascii) :=
  m ← deref p;
  for_acc (rows m) (fun i b =>
    b ← for_acc (cols m) (fun j b =>
          v ← get p i j; mret (b ++ field v)) b;
    mret (b ++ [newline])) [].

(** ** The verb [%-15.3f] of Go's [fmt] *)

(** A model of what [fmt] prints for a [float64] under [%-15.3f], used to
    run [String_]: the sign, the decimal expansion of the exact binary value
    rounded to three decimals, ties to even (as [strconv] does), or [NaN],
    [+Inf], [-Inf]; then spaces up to fifteen characters, none being removed
    from a longer text. *)
Fixpoint uint_text (d : Decimal.uint) : list ascii :=
  match d with
  | Decimal.Nil => []
  | Decimal.D0 d => "0"%char :: uint_text d
  | Decimal.D1 d => "1"%char :: uint_text d
  | Decimal.D2 d => "2"%char :: uint_text d
  | Decimal.D3 d => "3"%char :: uint_text d
  | Decimal.D4 d => "4"%char :: uint_text d
  | Decimal.D5 d => "5"%char :: uint_text d
  | Decimal.D6 d => "6"%char :: uint_text d
  | Decimal.D7 d => "7"%char :: uint_text d
  | Decimal.D8 d => "8"%char :: uint_text d
  | Decimal.D9 d => "9"%char :: uint_text d
  end.

(** The decimal digits of a natural number. *)
Definition decimal (n : Z) : list ascii := uint_text (N.to_uint (Z.to_N n)).

(** [num / den] rounded to the nearest integer, ties to even. *)
Definition round_half_even (num den : Z) : Z :=
  let q := num / den in
  match 2 * (num mod den) ?= den with
  | Lt => q
  | Gt => q + 1
  | Eq => if Z.even q then q else q + 1
  end.

(** [m * 2^e] in thousandths, rounded. *)
Definition thousandths (m : positive) (e : Z) : Z :=
  if 0 <=? e then Z.pos m * 2 ^ e * 1000
  else round_half_even (Z.pos m * 1000) (2 ^ (- e)).

(** [n] thousandths with three decimals. *)
Definition fixed3 (n : Z) : list ascii :=
  decimal (n / 1000) ++ "."%char :: drop 1 (decimal (1000 + n mod 1000)).

Definition sign_text (s : bool) : list ascii := if s then ["-"%char] else [].

(** [%.3f] *)
Definition verb_f3 (x : float) : list ascii :=
  match Prim2SF x with
  | S754_nan => ["N"; "a"; "N"]%char
  | S754_infinity s => (if s then "-" else "+")%char :: ["I"; "n"; "f"]%char
  | S754_zero s => sign_text s ++ fixed3 0
  | S754_finite s m e => sign_text s ++ fixed3 (thousandths m e)
  end.

(** The flag [-] with a width. *)
Definition pad_right (w : nat) (s : list ascii) : list ascii :=
  s ++ replicate (w - length s) " "%char.

(** [%-15.3f] *)
Definition fmt_f (x : float) : list ascii := pad_right 15 (verb_f3 x).

(** ** The example program *)

(** [examples/matrix/main.go]. The program seeds [math/rand] with the
    clock: [rnd k] stands for the result of its [k]-th call of
    [rand.Float64()], which are the calls of the callback given to [Each],
    and [n] for [float64(rand.Intn(100))]. The result is the text that
    [fmt.Printf("%s\n", t.String())] prints. [New(2, 3)] is called with its
    error ignored; a nil [m] would make [m.Each] panic. *)
Definition main (field : float -> list ascii) (rnd : nat -> float) (n : float)
    : M (list ascii) :=
  '(m, _) ← New 2 3;
  match m with
  | None => fun _ => Panic
  | Some m =>
      EachS m (fun _ _ _ k => (rnd k, S k)) 0%nat;;
      t ← T m;
      Addn t n;;
      s ← String_ field t;
      mret (s ++ [newline])
  end.

(** ** What the further properties talk about *)

(** Neither an infinity nor a NaN. *)
Definition is_finite (a : float) : bool :=
  match Prim2SF a with
  | S754_zero _ | S754_finite _ _ _ => true
  | S754_infinity _ | S754_nan => false
  end.

(** The value that the cell [(i, j)], holding [a], holds after the writes
    of [l], in their order. *)
Fixpoint last_write (i j : Z) (l : list (Z * Z * float)) (a : float) : float :=
  match l with
  | [] => a
  | (i', j', v) :: l' =>
      last_write i j l' (if (i' =? i) && (j' =? j) then v else a)
  end.

(** Every matrix of the heap satisfies the data model. *)
Definition well_formed (h : heap) : Prop :=
  forall p m, objs h !! p = Some m -> exists d, valid h p m d.

(** A call whose [New], if it is one, asks for dimensions that it refuses
    or for a storage that [make] grants. *)
Definition allocatable (c : call) : Prop :=
  match c with
  | CallNew r c => r < 0 \/ c < 0 \/ r * c <= maxLen
  | _ => True
  end.

(** The matrices a call is applied to. *)
Definition pointers (c : call) : list ptr :=
  match c with
  | CallNew _ _ => []
  | CallDimentions p | CallGet p _ _ | CallSet p _ _ _ | CallEach p _
  | CallT p | CallClone p | CallAddn p _ | CallScale p _ => [p]
  | CallAdd p x | CallSub p x | CallDot p x => [p; x]
  end.

(** The heaps that allocatable calls build from nothing. *)
Inductive built : heap -> Prop :=
| built_empty : built empty_heap
| built_call (h h' : heap) (c : call) :
    built h -> allocatable c -> run c h = Done tt h' -> built h'.

(** What a callback with state does to the contents [d], from the cell
    number [k] on, in row-major order: the new contents and the final
    state. *)
Fixpoint scan {St : Type} (c : Z) (f : Z -> Z -> float -> St -> float * St)
    (k : Z) (d : list float) (s : St) : list float * St :=
  match d with
  | [] => ([], s)
  | v :: d' =>
      let '(w, s1) := f (k / c) (k mod c) v s in
      let '(d2, s2) := scan c f (k + 1) d' s1 in
      (w :: d2, s2)
  end.

(** The row [i] of the contents [d], the text of a row, and the text of
    the matrix. *)
Definition row (m : Matrix) (d : list float) (i : nat) : list float :=
  take (Z.to_nat (cols m)) (drop (i * Z.to_nat (cols m)) d).

Definition line (field : float -> list ascii) (r : list float) : list ascii :=
  concat (field <$> r) ++ [newline].

Definition render (field : float -> list ascii) (m : Matrix) (d : list float)
    : list ascii :=
  concat ((fun i => line field (row m d i)) <$> seq 0 (Z.to_nat (rows m))).

(** The 1x2 matrix [[1.5, -2.25]]. *)
Definition heap_1x2 : heap := mkHeap [mkMatrix 1 2 0%nat] [[1.5; -2.25]%float].

(** ** The package with its locks *)

(** The second version of [matrix.go] embeds a [sync.RWMutex] in every
    struct: [get] holds it for reading, [set] for writing, around the one
    access to [data]. [New], [Dimentions], [Clone] and the two checks take no
    lock, and every other method reaches [data] through [get] and [set]
    only. *)
Module Locked.

(** How a goroutine holds the [sync.RWMutex] embedded in a struct. *)
Inductive mode : Type := Reading | Writing.

#[global] Instance mode_eq_dec : EqDecision mode.
Proof. solve_decision. Defined.

(** The locks the goroutine holds, the last taken first. *)
Definition held : Type := list (ptr * mode).

(** A computation of the only goroutine of a program returns, panics, or
    blocks for ever on a lock that nobody will release; the locks it holds
    when it returns or panics are recorded. *)
Inductive outcome (A : Type) : Type :=
| Returned (a : A) (l : held) (h : heap)
| Panicked (l : held)
| Blocked.
Arguments Returned {A} a l h.
Arguments Panicked {A} l.
Arguments Blocked {A}.

Definition L (A : Type) : Type := held -> heap -> outcome A.

#[global] Instance L_ret : MRet L := fun A a l h => Returned a l h.
#[global] Instance L_bind : MBind L := fun A B k c l h =>
  match c l h with
  | Returned a l' h' => k a l' h'
  | Panicked l' => Panicked l'
  | Blocked => Blocked
  end.

(** A piece of code that touches no lock. *)
Definition lift {A : Type} (c : M A) : L A := fun l h =>
  match c h with
  | Done a h' => Returned a l h'
  | Panic => Panicked l
  end.

Definition holds (p : ptr) (w : mode) (l : held) : bool :=
  bool_decide ((p, w) ∈ l).

(** The locks left when one [(p, w)] is given back; [None] if none is
    held. *)
Fixpoint release (p : ptr) (w : mode) (l : held) : option held :=
  match l with
  | [] => None
  | e :: l' =>
      if decide (e = (p, w)) then Some l'
      else (fun l'' => e :: l'') <$> release p w l'
  end.

(** [m.RLock()]: waits while the lock is held for writing. *)
Definition RLock (p : ptr) : L unit := fun l h =>
  match objs h !! p with
  | None => Panicked l
  | Some _ =>
      if holds p Writing l then Blocked else Returned tt ((p, Reading) :: l) h
  end.

(** [m.Lock()]: waits while the lock is held at all. *)
Definition Lock (p : ptr) : L unit := fun l h =>
  match objs h !! p with
  | None => Panicked l
  | Some _ =>
      if holds p Writing l || holds p Reading l then Blocked
      else Returned tt ((p, Writing) :: l) h
  end.

(** [m.RUnlock()] and [m.Unlock()]: a fatal error if the lock is not held
    that way. *)
Definition RUnlock (p : ptr) : L unit := fun l h =>
  match release p Reading l with
  | Some l' => Returned tt l' h
  | None => Panicked l
  end.

Definition Unlock (p : ptr) : L unit := fun l h =>
  match release p Writing l with
  | Some l' => Returned tt l' h
  | None => Panicked l
  end.

(** [defer u] before the body [c]: [u] runs when [c] returns and when it
    panics. The deferred calls of the package are [RUnlock]s, which act on
    the locks only. *)
Definition defer {A : Type} (u : L unit) (c : L A) : L A := fun l h =>
  match c l h with
  | Returned a l' h' => (u;; mret a) l' h'
  | Panicked l' =>
      match u l' h with
      | Returned _ l'' _ => Panicked l''
      | Panicked l'' => Panicked l''
      | Blocked => Blocked
      end
  | Blocked => Blocked
  end.

Fixpoint loop {A : Type} (n : nat) (i : Z) (body : Z -> A -> L A) (a : A) : L A :=
  match n with
  | O => mret a
  | S n' => a' ← body i a; loop n' (i + 1) body a'
  end.

Definition for_acc {A : Type} (bound : Z) (body : Z -> A -> L A) (a : A) : L A :=
  loop (Z.to_nat bound) 0 body a.

Definition for_ (bound : Z) (body : Z -> L unit) : L unit :=
  for_acc bound (fun i _ => body i) tt.

Definition get (p : ptr) (i j : Z) : L float :=
  RLock p;;
  defer (RUnlock p)
    (lift (m ← deref p; index (data m) (int_add (int_mul (cols m) i) j))).

Definition set (p : ptr) (i j : Z) (v : float) : L unit :=
  Lock p;;
  lift (m ← deref p; assign (data m) (int_add (int_mul (cols m) i) j) v);;
  Unlock p.

Definition Get (p : ptr) (i j : Z) : L (float * option error) :=
  e ← lift (checkRange p i j);
  match e with
  | Some err => mret (0%float, Some err)
  | None => v ← get p i j; mret (v, None)
  end.

Definition Set_ (p : ptr) (i j : Z) (v : float) : L (option error) :=
  e ← lift (checkRange p i j);
  match e with
  | Some err => mret (Some err)
  | None => set p i j v;; mret None
  end.

Definition Each (p : ptr) (f : Z -> Z -> float -> float) : L unit :=
  m ← lift (deref p);
  for_ (rows m) (fun i =>
    for_ (cols m) (fun j =>
      v ← get p i j; set p i j (f i j v))).

Definition String_ (field : float -> list ascii) (p : ptr) : L (list ascii) :=
  m ← lift (deref p);
  for_acc (rows m) (fun i b =>
    b ← for_acc (cols m) (fun j b =>
          v ← get p i j; mret (b ++ field v)) b;
    mret (b ++ [newline])) [].

Definition T (p : ptr) : L ptr :=
  m ← lift (deref p);
  d ← lift (make (int_mul (rows m) (cols m)));
  t ← lift (alloc (mkMatrix (cols m) (rows m) d));
  for_ (rows m) (fun i =>
    for_ (cols m) (fun j =>
      v ← get p i j; set t j i v));;
  mret t.

Definition Add (p x : ptr) : L (option error) :=
  e ← lift (checkEqualDimentions p x);
  match e with
  | Some err => mret (Some err)
  | None =>
      m ← lift (deref p);
      for_ (rows m) (fun i =>
        for_ (cols m) (fun j =>
          a ← get p i j; b ← get x i j; set p i j (a + b)%float));;
      mret None
  end.

Definition Sub (p x : ptr) : L (option error) :=
  e ← lift (checkEqualDimentions p x);
  match e with
  | Some err => mret (Some err)
  | None =>
      m ← lift (deref p);
      for_ (rows m) (fun i =>
        for_ (cols m) (fun j =>
          a ← get p i j; b ← get x i j; set p i j (a - b)%float));;
      mret None
  end.

Definition Addn (p : ptr) (n : float) : L unit :=
  m ← lift (deref p);
  for_ (rows m) (fun i =>
    for_ (cols m) (fun j =>
      a ← get p i j; set p i j (a + n)%float)).

Definition Scale (p : ptr) (n : float) : L unit :=
  m ← lift (deref p);
  for_ (rows m) (fun i =>
    for_ (cols m) (fun j =>
      a ← get p i j; set p i j (a * n)%float)).

Definition Dot (p x : ptr) : L (float * option error) :=
  e ← lift (checkEqualDimentions p x);
  match e with
  | Some err => mret (0%float, Some err)
  | None =>
      m ← lift (deref p);
      r ← for_acc (rows m) (fun i r =>
             for_acc (cols m) (fun j r =>
               a ← get p i j; b ← get x i j; mret (r + a * b)%float) r) 0%float;
      mret (r, None)
  end.

End Locked.

(** The locked code [cl], started with no lock held, does what the code
    without locks [c] does: it returns the same result in the same heap,
    holding no lock, or panics as [c] does; it never blocks. *)
Definition erases {A : Type} (cl : Locked.L A) (c : M A) : Prop :=
  forall h,
    match c h with
    | Done a h' => cl [] h = Locked.Returned a [] h'
    | Panic => exists l, cl [] h = Locked.Panicked l
    end.

(** ** Goroutines *)

(** Every call of [get] and of [set] is a critical section of the lock of
    its matrix, and nothing assigns [rows] or [cols] after the struct
    literal. A program whose goroutines reach the storage through [get] and
    [set] only (so not through [Clone], whose [copy] reads it without the
    lock) has no data race, and its runs are the interleavings of these
    critical sections and of the reads of [rows] and [cols]. *)
Module Steps.

(** A computation as the sequence of its atomic steps, each a piece of code
    that runs without another goroutine in between. *)
Inductive prog (A : Type) : Type :=
| Finish (a : A)
| Atomic {X : Type} (c : M X) (k : X -> prog A).
Arguments Finish {A} a.
Arguments Atomic {A X} c k.

Fixpoint bind {A B : Type} (c : prog A) (k : A -> prog B) : prog B :=
  match c with
  | Finish a => k a
  | Atomic c' k' => Atomic c' (fun x => bind (k' x) k)
  end.

#[global] Instance prog_ret : MRet prog := fun A a => Finish a.
#[global] Instance prog_bind : MBind prog := fun A B k c => bind c k.

Definition atomic {A : Type} (c : M A) : prog A := Atomic c Finish.

Fixpoint loop {A : Type} (n : nat) (i : Z) (body : Z -> A -> prog A) (a : A)
    : prog A :=
  match n with
  | O => mret a
  | S n' => a' ← body i a; loop n' (i + 1) body a'
  end.

Definition for_acc {A : Type} (bound : Z) (body : Z -> A -> prog A) (a : A)
    : prog A :=
  loop (Z.to_nat bound) 0 body a.

Definition for_ (bound : Z) (body : Z -> prog unit) : prog unit :=
  for_acc bound (fun i _ => body i) tt.

(** [get] and [set] are atomic: the lock is held from their first to their
    last statement. *)
Definition get (p : ptr) (i j : Z) : prog float := atomic (get p i j).
Definition set (p : ptr) (i j : Z) (v : float) : prog unit := atomic (set p i j v).

Definition Set_ (p : ptr) (i j : Z) (v : float) : prog (option error) :=
  e ← atomic (checkRange p i j);
  match e with
  | Some err => mret (Some err)
  | None => set p i j v;; mret None
  end.

(** A goroutine that calls [Set] several times, ignoring the errors. *)
Fixpoint Sets (p : ptr) (l : list (Z * Z * float)) : prog unit :=
  match l with
  | [] => mret tt
  | (i, j, v) :: l' => Set_ p i j v;; Sets p l'
  end.

Definition Addn (p : ptr) (n : float) : prog unit :=
  m ← atomic (deref p);
  for_ (rows m) (fun i =>
    for_ (cols m) (fun j =>
      a ← get p i j; set p i j (a + n)%float)).

(** A computation run alone. *)
Fixpoint exec {A : Type} (c : prog A) : M A :=
  match c with
  | Finish a => mret a
  | Atomic c' k => x ← c'; exec (k x)
  end.

(** The goroutines of a program are a list of computations; the scheduler
    lets the goroutine [t] make one step (nothing happens if it has
    finished, or is not there), and a schedule is the list of its
    choices. *)
Definition step_at (t : nat) (ps : list (prog unit)) : M (list (prog unit)) :=
  match ps !! t with
  | Some (Atomic c k) => x ← c; mret (<[t := k x]> ps)
  | _ => mret ps
  end.

Fixpoint run_schedule (s : list nat) (ps : list (prog unit))
    : M (list (prog unit)) :=
  match s with
  | [] => mret ps
  | t :: s' => ps' ← step_at t ps; run_schedule s' ps'
  end.

End Steps.

(** The goroutine whose calls are [l] writes to the cell [(i, j)]. *)
Definition targets (l : list (Z * Z * float)) (i j : Z) : Prop :=
  exists v, (i, j, v) ∈ l.

(** No cell is written to by two goroutines. *)
Definition disjoint_writers (ls : list (list (Z * Z * float))) : Prop :=
  forall t t' l l' i j,
    ls !! t = Some l -> ls !! t' = Some l' ->
    targets l i j -> targets l' i j -> t = t'.

(** Where a goroutine that runs [Sets p l] stands: it has dealt with the
    calls [done], and is either between two calls or, the check of the next
    call passed, about to write. *)
Inductive status (p : ptr) (m : Matrix) (l : list (Z * Z * float))
    : list (Z * Z * float) -> Steps.prog unit -> Prop :=
| status_between (done rest : list (Z * Z * float)) :
    l = done ++ rest -> status p m l done (Steps.Sets p rest)
| status_checked (done rest : list (Z * Z * float)) (i j : Z) (v : float) :
    l = done ++ (i, j, v) :: rest -> in_range m i j ->
    status p m l done
      (Steps.Atomic (set p i j v) (fun _ => Steps.Sets p rest)).

(** What holds between the steps of goroutines that run [Sets p] of the
    lists [ls] on the matrix [p], of contents [d] at the start: the contents
    have their length, every goroutine is somewhere in its list, and every
    cell holds the last write of the calls that its goroutine has dealt
    with. *)
Definition invariant (h0 : heap) (p : ptr) (m : Matrix) (d : list float)
    (ls : list (list (Z * Z * float))) (ps : list (Steps.prog unit)) (h : heap)
    : Prop :=
  exists (dcur : list float) (dones : list (list (Z * Z * float))),
    h = with_data h0 m dcur /\ length dcur = length d
    /\ length ps = length ls
    /\ (forall t l, ls !! t = Some l ->
          exists done c, dones !! t = Some done /\ ps !! t = Some c
                         /\ status p m l done c)
    /\ (forall i j a0, in_range m i j -> d !! offset m i j = Some a0 ->
          (forall t l done, ls !! t = Some l -> dones !! t = Some done ->
             targets l i j ->
             dcur !! offset m i j = Some (last_write i j done a0))
          /\ ((forall t l, ls !! t = Some l -> ~ targets l i j) ->
              dcur !! offset m i j = Some a0)).

(** The computation [c], run alone, is [c']. *)
Definition agrees {A : Type} (c : Steps.prog A) (c' : M A) : Prop :=
  forall h, Steps.exec c h = c' h.

(** * Proofs *)

Example New_2_3 :
  New 2 3 empty_heap
  = Done (Some 0%nat, None)
      (mkHeap [mkMatrix 2 3 0%nat] [[0; 0; 0; 0; 0; 0]%float]).
Proof. reflexivity. Qed.

Example New_neg : New (-1) 3 empty_heap = Done (None, Some (InvalidDimensions (-1) 3)) empty_heap.
Proof. reflexivity. Qed.

Example T_2_3 :
  (p ← matrix_of 2 3 [1; 2; 3; 4; 5; 6]%float; T p) empty_heap
  = Done 1%nat
      (mkHeap [mkMatrix 2 3 0%nat; mkMatrix 3 2 1%nat]
              [[1; 2; 3; 4; 5; 6]%float; [1; 4; 2; 5; 3; 6]%float]).
Proof. vm_compute. reflexivity. Qed.

Example heap_AB_built :
  (a ← matrix_of 2 2 [1; 2; 3; 4]%float;
   b ← matrix_of 2 2 [5; 6; 7; 8]%float;
   mret (a, b)) empty_heap
  = Done (0%nat, 1%nat) heap_AB.
Proof. vm_compute. reflexivity. Qed.

Example heap_23_32_built :
  (a ← matrix_of 2 3 [1; 2; 3; 4; 5; 6]%float;
   '(b, _) ← New 3 2;
   mret (a, b)) empty_heap
  = Done (0%nat, Some 1%nat) heap_23_32.
Proof. vm_compute. reflexivity. Qed.

(** ** Machine integers *)

Lemma wrap_small (z : Z) : int_min <= z <= int_max -> wrap z = z.
Proof.
  unfold wrap, int_min, int_max. intros Hz.
  rewrite Z.mod_small by lia. lia.
Qed.

Lemma maxLen_int : maxLen < int_max.
Proof. reflexivity. Qed.

(** ** The monad *)

Lemma run_ret {A} (a : A) (h : heap) : (mret a : M A) h = Done a h.
Proof. reflexivity. Qed.

Lemma run_bind {A B} (c : M A) (k : A -> M B) (h : heap) :
  (c ≫= k) h = match c h with Done a h' => k a h' | Panic => Panic end.
Proof. reflexivity. Qed.

Lemma bind_Done {A B} (c : M A) (k : A -> M B) (h h' : heap) (a : A) :
  c h = Done a h' -> (c ≫= k) h = k a h'.
Proof. intros H. rewrite run_bind, H. reflexivity. Qed.

Lemma deref_Done (h : heap) (p : ptr) (m : Matrix) :
  objs h !! p = Some m -> deref p h = Done m h.
Proof. intros H. unfold deref. rewrite H. reflexivity. Qed.

(** ** Loops *)

(** A loop that runs at least once panics when its first iteration does. *)
Lemma for_acc_Panic {A} (bound : Z) (body : Z -> A -> M A) (a : A) (h : heap) :
  0 < bound -> body 0 a h = Panic -> for_acc bound body a h = Panic.
Proof.
  intros Hb Hp. unfold for_acc.
  destruct (Z.to_nat bound) as [|n] eqn:E; [lia|].
  cbn [loop]. now rewrite run_bind, Hp.
Qed.

Lemma for_Panic (bound : Z) (body : Z -> M unit) (h : heap) :
  0 < bound -> body 0 h = Panic -> for_ bound body h = Panic.
Proof. intros Hb Hp. now apply for_acc_Panic. Qed.

(** The invariant rule: [I k a h] holds before iteration [k]. *)
Lemma loop_inv {A} (I : Z -> A -> heap -> Prop) (body : Z -> A -> M A) :
  forall n i a h,
    I i a h ->
    (forall k a h, i <= k < i + Z.of_nat n -> I k a h ->
       exists a' h', body k a h = Done a' h' /\ I (k + 1) a' h') ->
    exists a' h', loop n i body a h = Done a' h' /\ I (i + Z.of_nat n) a' h'.
Proof.
  induction n as [|n IH]; intros i a h Hi Hstep.
  - exists a, h. split; [reflexivity|]. now replace (i + Z.of_nat 0) with i by lia.
  - destruct (Hstep i a h ltac:(lia) Hi) as (a1 & h1 & Hb & Hi1).
    destruct (IH (i + 1) a1 h1 Hi1) as (a2 & h2 & Hl & Hi2).
    { intros k a' h' Hk. apply Hstep. lia. }
    exists a2, h2. split.
    + cbn [loop]. rewrite (bind_Done _ _ _ _ _ Hb). exact Hl.
    + now replace (i + Z.of_nat (S n)) with (i + 1 + Z.of_nat n) by lia.
Qed.

Lemma for_acc_inv {A} (I : Z -> A -> heap -> Prop) (bound : Z)
    (body : Z -> A -> M A) (a : A) (h : heap) :
  0 <= bound ->
  I 0 a h ->
  (forall k a h, 0 <= k < bound -> I k a h ->
     exists a' h', body k a h = Done a' h' /\ I (k + 1) a' h') ->
  exists a' h', for_acc bound body a h = Done a' h' /\ I bound a' h'.
Proof.
  intros Hb H0 Hstep. unfold for_acc.
  destruct (loop_inv I body (Z.to_nat bound) 0 a h H0) as (a' & h' & Hl & Hi).
  { intros k a1 h1 Hk. apply Hstep. lia. }
  exists a', h'. split; [exact Hl|].
  now replace bound with (0 + Z.of_nat (Z.to_nat bound)) by lia.
Qed.

(** Two nested loops over the cells [(i, j)], in row-major order: the
    invariant is indexed by the number [c * i + j] of cells already done. *)
Lemma cells_acc_inv {A} (J : Z -> A -> heap -> Prop) (r c : Z)
    (F : Z -> A -> M A) (B : Z -> Z -> A -> M A) (a : A) (h : heap) :
  (forall i a h, F i a h = for_acc c (B i) a h) ->
  0 <= r -> 0 <= c ->
  J 0 a h ->
  (forall i j a h, 0 <= i < r -> 0 <= j < c -> J (c * i + j) a h ->
     exists a' h', B i j a h = Done a' h' /\ J (c * i + j + 1) a' h') ->
  exists a' h', for_acc r F a h = Done a' h' /\ J (r * c) a' h'.
Proof.
  intros HF Hr Hc H0 Hstep.
  destruct (for_acc_inv (fun i => J (c * i)) r F a h Hr) as (a' & h' & Hl & HJ).
  - now replace (c * 0) with 0 by lia.
  - intros i a1 h1 Hi HJ. rewrite HF.
    destruct (for_acc_inv (fun j => J (c * i + j)) c (B i) a1 h1 Hc)
      as (a2 & h2 & Hl & HJ2).
    + now replace (c * i + 0) with (c * i) by lia.
    + intros j a2 h2 Hj HJ2.
      destruct (Hstep i j a2 h2 Hi Hj HJ2) as (a3 & h3 & Hb & HJ3).
      exists a3, h3. split; [exact Hb|].
      now replace (c * i + (j + 1)) with (c * i + j + 1) by lia.
    + exists a2, h2. split; [exact Hl|].
      now replace (c * (i + 1)) with (c * i + c) by lia.
  - exists a', h'. split; [exact Hl|]. now rewrite Z.mul_comm.
Qed.

Lemma cells_inv (J : Z -> heap -> Prop) (r c : Z) (body : Z -> Z -> M unit)
    (h : heap) :
  0 <= r -> 0 <= c ->
  J 0 h ->
  (forall i j h, 0 <= i < r -> 0 <= j < c -> J (c * i + j) h ->
     exists h', body i j h = Done tt h' /\ J (c * i + j + 1) h') ->
  exists h', for_ r (fun i => for_ c (fun j => body i j)) h = Done tt h'
             /\ J (r * c) h'.
Proof.
  intros Hr Hc H0 Hstep. unfold for_ at 1.
  destruct (cells_acc_inv (fun k (_ : unit) => J k) r c
              (fun i _ => for_ c (fun j => body i j))
              (fun i j _ => body i j) tt h) as ([] & h' & Hl & HJ).
  - intros i [] h0. reflexivity.
  - exact Hr.
  - exact Hc.
  - exact H0.
  - intros i j [] h1 Hi Hj HJ.
    destruct (Hstep i j h1 Hi Hj HJ) as (h2 & Hb & HJ2). eauto.
  - eauto.
Qed.

(** ** Lists as arrays *)

Lemma overwrite_step {A} (d' d : list A) (k : nat) (v : A) :
  length d' = length d ->
  d' !! k = Some v ->
  <[k := v]> (take k d' ++ drop k d) = take (S k) d' ++ drop (S k) d.
Proof.
  intros Hlen Hk.
  assert (Hlt : (k < length d)%nat) by (rewrite <- Hlen; eapply lookup_lt_Some; eauto).
  destruct (lookup_lt_is_Some_2 d k Hlt) as [x Hx].
  rewrite (take_S_r _ _ _ Hk), (drop_S _ _ _ Hx), <- app_assoc.
  rewrite insert_app_r_alt by (rewrite length_take; lia).
  rewrite length_take, Nat.min_l by lia.
  now rewrite Nat.sub_diag.
Qed.

Lemma overwrite_lookup {A} (d' d : list A) (k : nat) :
  length d' = length d ->
  (take k d' ++ drop k d) !! k = d !! k.
Proof.
  intros Hlen. destruct (decide (k < length d)%nat) as [Hlt|Hge].
  - rewrite lookup_app_r by (rewrite length_take; lia).
    rewrite length_take, Nat.min_l, Nat.sub_diag by lia.
    rewrite lookup_drop. f_equal. lia.
  - rewrite (lookup_ge_None_2 d) by lia.
    apply lookup_ge_None_2. rewrite length_app, length_take, length_drop. lia.
Qed.

Lemma overwrite_length {A} (d' d : list A) (k : nat) :
  length d' = length d -> length (take k d' ++ drop k d) = length d.
Proof. intros Hlen. rewrite length_app, length_take, length_drop. lia. Qed.

Lemma overwrite_all {A} (d' d : list A) :
  length d' = length d -> take (length d) d' ++ drop (length d) d = d'.
Proof.
  intros Hlen. rewrite drop_all, app_nil_r, <- Hlen. apply firstn_all.
Qed.

(** ** The heap *)

Lemma with_data_id (h : heap) (m : Matrix) (d : list float) :
  mems h !! data m = Some d -> with_data h m d = h.
Proof.
  intros H. destruct h as [os ms]. unfold with_data. cbn in *.
  now rewrite list_insert_id.
Qed.

Lemma with_data_twice (h : heap) (m : Matrix) (d1 d2 : list float) :
  with_data (with_data h m d1) m d2 = with_data h m d2.
Proof. unfold with_data. cbn. now rewrite list_insert_insert_eq. Qed.

Lemma repr_with_data (h : heap) (p : ptr) (m : Matrix) (d d' : list float) :
  repr h p m d -> repr (with_data h m d') p m d'.
Proof.
  intros [Ho Hm]. split; [exact Ho|]. cbn.
  apply list_lookup_insert_eq. eapply lookup_lt_Some; eauto.
Qed.

Lemma mems_with_data_ne (h : heap) (m : Matrix) (d' : list float) (s : slice) :
  s <> data m -> mems (with_data h m d') !! s = mems h !! s.
Proof. intros Hne. cbn. apply list_lookup_insert_ne. congruence. Qed.

(** ** Element access *)

Lemma offset_bounds (m : Matrix) (d : list float) (i j : Z) :
  shaped m d -> in_range m i j ->
  0 <= cols m * i + j < Z.of_nat (length d) /\ cols m * i + j < maxLen.
Proof. unfold shaped, in_range. intros (Hr & Hc & Hl & Hmax) [Hi Hj]. nia. Qed.

Lemma offset_int (m : Matrix) (d : list float) (i j : Z) :
  shaped m d -> in_range m i j ->
  int_add (int_mul (cols m) i) j = cols m * i + j.
Proof.
  intros Hs Hij. destruct (offset_bounds m d i j Hs Hij) as [Hb Hmax].
  destruct Hs as (Hr & Hc & _), Hij as [Hi Hj].
  pose proof maxLen_int. unfold int_max in *.
  unfold int_add, int_mul.
  rewrite (wrap_small (cols m * i)) by (unfold int_min, int_max; nia).
  apply wrap_small. unfold int_min, int_max. lia.
Qed.

Lemma get_Done (h : heap) (p : ptr) (m : Matrix) (d : list float) (i j : Z) :
  repr h p m d -> shaped m d -> in_range m i j ->
  exists v, d !! offset m i j = Some v /\ get p i j h = Done v h.
Proof.
  intros [Ho Hm] Hs Hij.
  destruct (offset_bounds m d i j Hs Hij) as [Hb _].
  destruct (lookup_lt_is_Some_2 d (offset m i j)) as [v Hv].
  { unfold offset. lia. }
  exists v. split; [exact Hv|].
  unfold get. rewrite (bind_Done _ _ _ _ _ (deref_Done h p m Ho)).
  unfold index. rewrite Hm, (offset_int m d i j Hs Hij).
  destruct (Z.ltb_spec (cols m * i + j) 0) as [Hlt|_]; [lia|].
  fold (offset m i j). now rewrite Hv.
Qed.

Lemma set_Done (h : heap) (p : ptr) (m : Matrix) (d : list float) (i j : Z)
    (v : float) :
  repr h p m d -> shaped m d -> in_range m i j ->
  set p i j v h = Done tt (with_data h m (<[offset m i j := v]> d)).
Proof.
  intros [Ho Hm] Hs Hij.
  destruct (offset_bounds m d i j Hs Hij) as [Hb _].
  unfold set. rewrite (bind_Done _ _ _ _ _ (deref_Done h p m Ho)).
  unfold assign. rewrite Hm, (offset_int m d i j Hs Hij).
  destruct (Z.leb_spec 0 (cols m * i + j)) as [_|Hlt]; [|lia].
  destruct (Z.ltb_spec (cols m * i + j) (Z.of_nat (length d))) as [_|Hge]; [|lia].
  reflexivity.
Qed.

Lemma shaped_length (m : Matrix) (d d' : list float) :
  length d' = length d -> shaped m d -> shaped m d'.
Proof. unfold shaped. intros ->. tauto. Qed.

(** ** In-place loops over all cells *)

(** A loop that stores, cell after cell in row-major order, the elements
    of [d'] replaces the contents [d] of the backing array by [d']. *)
Lemma inplace_cells (h0 : heap) (p : ptr) (m : Matrix) (d d' : list float)
    (body : Z -> Z -> M unit) :
  repr h0 p m d -> shaped m d -> length d' = length d ->
  (forall i j, in_range m i j ->
     let h := with_data h0 m (take (offset m i j) d' ++ drop (offset m i j) d) in
     exists v, d' !! offset m i j = Some v /\ body i j h = set p i j v h) ->
  for_ (rows m) (fun i => for_ (cols m) (fun j => body i j)) h0
  = Done tt (with_data h0 m d').
Proof.
  intros Hrepr Hs Hlen Hbody.
  pose (J := fun (k : Z) (h : heap) =>
    h = with_data h0 m (take (Z.to_nat k) d' ++ drop (Z.to_nat k) d)).
  destruct (cells_inv J (rows m) (cols m) body h0) as (h' & Hrun & HJ).
  - apply Hs.
  - apply Hs.
  - unfold J. cbn. symmetry. apply with_data_id, Hrepr.
  - intros i j h Hi Hj ->. fold (offset m i j).
    destruct (Hbody i j (conj Hi Hj)) as (v & Hv & Hb). cbn zeta in Hb.
    rewrite Hb.
    erewrite set_Done; [|eapply repr_with_data, Hrepr
                        |eapply shaped_length, Hs; now apply overwrite_length
                        |split; assumption].
    eexists. split; [reflexivity|].
    unfold J. rewrite with_data_twice, (overwrite_step _ _ _ _ Hlen Hv).
    do 3 f_equal; unfold offset;
      destruct (offset_bounds m d i j Hs (conj Hi Hj)); lia.
  - rewrite Hrun, HJ. do 2 f_equal.
    destruct Hs as (_ & _ & Hl & _). rewrite <- Hl, Nat2Z.id.
    now apply overwrite_all.
Qed.

Lemma offset_div_mod (m : Matrix) (i j : Z) :
  in_range m i j ->
  Z.of_nat (offset m i j) / cols m = i /\ Z.of_nat (offset m i j) mod cols m = j.
Proof.
  intros [Hi Hj]. unfold offset. rewrite Z2Nat.id by nia.
  split.
  - rewrite (Z.mul_comm (cols m) i), Z.div_add_l, Z.div_small by lia. lia.
  - rewrite Z.add_comm, (Z.mul_comm (cols m) i), Z.mod_add by lia.
    now apply Z.mod_small.
Qed.

(** The loop shared by [Each], [Addn] and [Scale]. *)
Lemma unary_cells (h : heap) (p : ptr) (m : Matrix) (d : list float)
    (g : Z -> Z -> float -> float) :
  valid h p m d ->
  for_ (rows m) (fun i => for_ (cols m) (fun j =>
     v ← get p i j; set p i j (g i j v))) h
  = Done tt (with_data h m (cellwise m g d)).
Proof.
  intros [Hrepr Hs].
  assert (Hlen : length (cellwise m g d) = length d) by apply length_imap.
  apply (inplace_cells h p m d _ _ Hrepr Hs Hlen).
  intros i j Hij. cbn zeta.
  set (cur := take (offset m i j) (cellwise m g d) ++ drop (offset m i j) d).
  destruct (get_Done (with_data h m cur) p m cur i j) as (a & Ha & Hget).
  { eapply repr_with_data, Hrepr. }
  { eapply shaped_length, Hs. now apply overwrite_length. }
  { exact Hij. }
  unfold cur in Ha. rewrite (overwrite_lookup _ _ _ Hlen) in Ha.
  exists (g i j a). split.
  - unfold cellwise. rewrite list_lookup_imap, Ha. cbn.
    destruct (offset_div_mod m i j Hij) as [-> ->]. reflexivity.
  - now rewrite (bind_Done _ _ _ _ _ Hget).
Qed.

(** The loop shared by [Add] and [Sub]; the argument may be the receiver
    itself, or share its backing array. *)
Lemma binary_cells (h : heap) (p x : ptr) (m mx : Matrix) (d xd : list float)
    (op : float -> float -> float) :
  valid h p m d -> valid h x mx xd ->
  rows mx = rows m -> cols mx = cols m ->
  for_ (rows m) (fun i => for_ (cols m) (fun j =>
     a ← get p i j; b ← get x i j; set p i j (op a b))) h
  = Done tt (with_data h m (zip_with op d xd)).
Proof.
  intros [Hrepr Hs] [Hreprx Hsx] Hrows Hcols.
  assert (Hxd : length xd = length d).
  { destruct Hs as (_ & _ & Hl & _), Hsx as (_ & _ & Hlx & _).
    rewrite Hrows, Hcols in Hlx. lia. }
  assert (Hlen : length (zip_with op d xd) = length d)
    by (rewrite length_zip_with; lia).
  apply (inplace_cells h p m d _ _ Hrepr Hs Hlen).
  intros i j Hij. cbn zeta.
  set (cur := take (offset m i j) (zip_with op d xd) ++ drop (offset m i j) d).
  assert (Hcur : length cur = length d) by now apply overwrite_length.
  destruct (get_Done (with_data h m cur) p m cur i j) as (a & Ha & Hget).
  { eapply repr_with_data, Hrepr. }
  { eapply shaped_length, Hs. exact Hcur. }
  { exact Hij. }
  unfold cur in Ha. rewrite (overwrite_lookup _ _ _ Hlen) in Ha. fold cur in Hget.
  assert (Hijx : in_range mx i j) by (unfold in_range; now rewrite Hrows, Hcols).
  assert (Hoff : offset mx i j = offset m i j) by (unfold offset; now rewrite Hcols).
  assert (exists b, xd !! offset m i j = Some b
                    /\ get x i j (with_data h m cur) = Done b (with_data h m cur))
    as (b & Hb & Hgetx).
  { destruct (decide (data mx = data m)) as [Heq|Hne].
    - (* the argument reads the array being written: the cell is still old *)
      assert (xd = d) as ->.
      { destruct Hrepr as [_ Hm], Hreprx as [_ Hmx]. rewrite Heq in Hmx. congruence. }
      destruct (get_Done (with_data h m cur) x mx cur i j) as (b & Hb & Hgetx).
      { destruct Hreprx as [Hox _]. split; [exact Hox|]. rewrite Heq.
        eapply repr_with_data, Hrepr. }
      { eapply shaped_length, Hsx. lia. }
      { exact Hijx. }
      rewrite Hoff in Hb. unfold cur in Hb.
      rewrite (overwrite_lookup _ _ _ Hlen) in Hb. eauto.
    - destruct (get_Done (with_data h m cur) x mx xd i j) as (b & Hb & Hgetx).
      { destruct Hreprx as [Hox Hmx]. split; [exact Hox|].
        now rewrite mems_with_data_ne. }
      { exact Hsx. }
      { exact Hijx. }
      rewrite Hoff in Hb. eauto. }
  exists (op a b). split.
  - rewrite lookup_zip_with, Ha, Hb. reflexivity.
  - rewrite (bind_Done _ _ _ _ _ Hget), (bind_Done _ _ _ _ _ Hgetx). reflexivity.
Qed.

(** ** Allocation *)

Lemma make_Done (n : Z) (h : heap) :
  0 <= n <= maxLen ->
  make n h = Done (length (mems h))
               (mkHeap (objs h) (mems h ++ [replicate (Z.to_nat n) 0%float])).
Proof.
  intros Hn. unfold make, maxAlloc, elemSize, maxLen in *.
  destruct (Z.ltb_spec n 0); [lia|].
  destruct (Z.ltb_spec (2 ^ 48) (8 * n)); [lia|]. reflexivity.
Qed.

Lemma make_alloc (n r c : Z) (h : heap) {B} (k : ptr -> M B) :
  0 <= n <= maxLen ->
  (d ← make n; t ← alloc (mkMatrix r c d); k t) h
  = k (length (objs h))
      (grow h (mkMatrix r c (length (mems h))) (replicate (Z.to_nat n) 0%float)).
Proof.
  intros Hn. rewrite (bind_Done _ _ _ _ _ (make_Done n h Hn)). reflexivity.
Qed.

Lemma repr_grow (h : heap) (q : ptr) (mq : Matrix) (dq : list float)
    (m : Matrix) (d : list float) :
  repr h q mq dq -> repr (grow h m d) q mq dq.
Proof.
  intros [Ho Hm]. split; cbn.
  - rewrite lookup_app_l; [exact Ho | eapply lookup_lt_Some; eauto].
  - rewrite lookup_app_l; [exact Hm | eapply lookup_lt_Some; eauto].
Qed.

Lemma repr_grow_new (h : heap) (m : Matrix) (d : list float) :
  data m = length (mems h) -> repr (grow h m d) (length (objs h)) m d.
Proof.
  intros Hd. split; cbn.
  - now apply list_lookup_middle.
  - rewrite Hd. now apply list_lookup_middle.
Qed.

Lemma with_data_grow (h : heap) (m : Matrix) (d d' : list float) :
  data m = length (mems h) -> with_data (grow h m d) m d' = grow h m d'.
Proof.
  intros Hd. unfold with_data, grow. cbn. f_equal. rewrite Hd.
  rewrite insert_app_r_alt, Nat.sub_diag by lia. reflexivity.
Qed.

Lemma repr_fresh (h : heap) (q : ptr) (mq : Matrix) (dq : list float) :
  repr h q mq dq -> q <> length (objs h) /\ data mq <> length (mems h).
Proof.
  intros [Ho Hm]. apply lookup_lt_Some in Ho, Hm. lia.
Qed.

(** ** The checks *)

Lemma checkRange_negative (h : heap) (p : ptr) (i j : Z) :
  i < 0 \/ j < 0 ->
  checkRange p i j h = Done (Some (NegativeIndex i j)) h.
Proof.
  intros Hneg. unfold checkRange.
  destruct (Z.ltb_spec i 0), (Z.ltb_spec j 0); cbn; try reflexivity. lia.
Qed.

Lemma checkRange_beyond (h : heap) (p : ptr) (m : Matrix) (i j : Z) :
  objs h !! p = Some m ->
  0 <= i -> 0 <= j -> rows m <= i \/ cols m <= j ->
  checkRange p i j h
  = Done (Some (IndexOutOfRange i j (int_sub (rows m) 1) (int_sub (cols m) 1))) h.
Proof.
  intros Ho Hi Hj Hout. unfold checkRange.
  destruct (Z.ltb_spec i 0), (Z.ltb_spec j 0); try lia. cbn [orb].
  rewrite (bind_Done _ _ _ _ _ (deref_Done h p m Ho)).
  destruct (Z.geb_spec i (rows m)), (Z.geb_spec j (cols m)); cbn; try reflexivity.
  lia.
Qed.

Lemma checkRange_inside (h : heap) (p : ptr) (m : Matrix) (i j : Z) :
  objs h !! p = Some m -> in_range m i j ->
  checkRange p i j h = Done None h.
Proof.
  intros Ho [Hi Hj]. unfold checkRange.
  destruct (Z.ltb_spec i 0), (Z.ltb_spec j 0); try lia. cbn [orb].
  rewrite (bind_Done _ _ _ _ _ (deref_Done h p m Ho)).
  destruct (Z.geb_spec i (rows m)), (Z.geb_spec j (cols m)); try lia.
  reflexivity.
Qed.

Lemma checkEqualDimentions_equal (h : heap) (p x : ptr) (m mx : Matrix) :
  objs h !! p = Some m -> objs h !! x = Some mx ->
  rows m = rows mx -> cols m = cols mx ->
  checkEqualDimentions p x h = Done None h.
Proof.
  intros Ho Hox Hr Hc. unfold checkEqualDimentions.
  rewrite (bind_Done _ _ _ _ _ (deref_Done h p m Ho)).
  rewrite (bind_Done _ _ _ _ _ (deref_Done h x mx Hox)).
  rewrite Hr, Hc, !Z.eqb_refl. reflexivity.
Qed.

Lemma checkEqualDimentions_differ (h : heap) (p x : ptr) (m mx : Matrix) :
  objs h !! p = Some m -> objs h !! x = Some mx ->
  rows m <> rows mx \/ cols m <> cols mx ->
  checkEqualDimentions p x h
  = Done (Some (DimensionMismatch (rows m) (cols m) (rows mx) (cols mx))) h.
Proof.
  intros Ho Hox Hne. unfold checkEqualDimentions.
  rewrite (bind_Done _ _ _ _ _ (deref_Done h p m Ho)).
  rewrite (bind_Done _ _ _ _ _ (deref_Done h x mx Hox)).
  destruct (Z.eqb_spec (rows m) (rows mx)), (Z.eqb_spec (cols m) (cols mx));
    cbn; try reflexivity. tauto.
Qed.

(** ** [Get] and [Set] *)

Lemma Get_inside (h : heap) (p : ptr) (m : Matrix) (d : list float) (i j : Z) :
  valid h p m d -> in_range m i j ->
  exists v, d !! offset m i j = Some v /\ Get p i j h = Done (v, None) h.
Proof.
  intros [Hrepr Hs] Hij.
  destruct (get_Done h p m d i j Hrepr Hs Hij) as (v & Hv & Hget).
  exists v. split; [exact Hv|]. unfold Get.
  rewrite (bind_Done _ _ _ _ _ (checkRange_inside h p m i j (proj1 Hrepr) Hij)).
  now rewrite (bind_Done _ _ _ _ _ Hget).
Qed.

Lemma Set_inside (h : heap) (p : ptr) (m : Matrix) (d : list float) (i j : Z)
    (v : float) :
  valid h p m d -> in_range m i j ->
  Set_ p i j v h = Done None (with_data h m (<[offset m i j := v]> d)).
Proof.
  intros [Hrepr Hs] Hij. unfold Set_.
  rewrite (bind_Done _ _ _ _ _ (checkRange_inside h p m i j (proj1 Hrepr) Hij)).
  now rewrite (bind_Done _ _ _ _ _ (set_Done h p m d i j v Hrepr Hs Hij)).
Qed.

Lemma Get_error (h : heap) (p : ptr) (i j : Z) (e : error) :
  checkRange p i j h = Done (Some e) h ->
  Get p i j h = Done (0%float, Some e) h.
Proof. intros H. unfold Get. now rewrite (bind_Done _ _ _ _ _ H). Qed.

Lemma Set_error (h : heap) (p : ptr) (i j : Z) (v : float) (e : error) :
  checkRange p i j h = Done (Some e) h ->
  Set_ p i j v h = Done (Some e) h.
Proof. intros H. unfold Set_. now rewrite (bind_Done _ _ _ _ _ H). Qed.

Lemma Dimentions_Done (h : heap) (p : ptr) (m : Matrix) :
  objs h !! p = Some m -> Dimentions p h = Done (rows m, cols m) h.
Proof.
  intros Ho. unfold Dimentions.
  now rewrite (bind_Done _ _ _ _ _ (deref_Done h p m Ho)).
Qed.

(** ** The in-place operations *)

Lemma Each_Done (h : heap) (p : ptr) (m : Matrix) (d : list float)
    (f : Z -> Z -> float -> float) :
  valid h p m d ->
  Each p f h = Done tt (with_data h m (cellwise m f d)).
Proof.
  intros Hv. unfold Each.
  rewrite (bind_Done _ _ _ _ _ (deref_Done h p m (proj1 (proj1 Hv)))).
  now apply unary_cells.
Qed.

Lemma cellwise_const (m : Matrix) (g : float -> float) (d : list float) :
  cellwise m (fun _ _ => g) d = g <$> d.
Proof. unfold cellwise. apply (imap_const g). Qed.

Lemma Addn_Done (h : heap) (p : ptr) (m : Matrix) (d : list float) (n : float) :
  valid h p m d ->
  Addn p n h = Done tt (with_data h m ((fun a => a + n)%float <$> d)).
Proof.
  intros Hv. unfold Addn.
  rewrite (bind_Done _ _ _ _ _ (deref_Done h p m (proj1 (proj1 Hv)))).
  rewrite <- (cellwise_const m).
  exact (unary_cells h p m d (fun _ _ a => (a + n)%float) Hv).
Qed.

Lemma Scale_Done (h : heap) (p : ptr) (m : Matrix) (d : list float) (n : float) :
  valid h p m d ->
  Scale p n h = Done tt (with_data h m ((fun a => a * n)%float <$> d)).
Proof.
  intros Hv. unfold Scale.
  rewrite (bind_Done _ _ _ _ _ (deref_Done h p m (proj1 (proj1 Hv)))).
  rewrite <- (cellwise_const m).
  exact (unary_cells h p m d (fun _ _ a => (a * n)%float) Hv).
Qed.

Lemma Add_Done (h : heap) (p x : ptr) (m mx : Matrix) (d xd : list float) :
  valid h p m d -> valid h x mx xd ->
  rows m = rows mx -> cols m = cols mx ->
  Add p x h = Done None (with_data h m (zip_with PrimFloat.add d xd)).
Proof.
  intros Hv Hvx Hr Hc. unfold Add.
  rewrite (bind_Done _ _ _ _ _
             (checkEqualDimentions_equal h p x m mx
                (proj1 (proj1 Hv)) (proj1 (proj1 Hvx)) Hr Hc)).
  rewrite (bind_Done _ _ _ _ _ (deref_Done h p m (proj1 (proj1 Hv)))).
  erewrite bind_Done; [reflexivity|].
  now apply (binary_cells h p x m mx d xd PrimFloat.add).
Qed.

Lemma Sub_Done (h : heap) (p x : ptr) (m mx : Matrix) (d xd : list float) :
  valid h p m d -> valid h x mx xd ->
  rows m = rows mx -> cols m = cols mx ->
  Sub p x h = Done None (with_data h m (zip_with PrimFloat.sub d xd)).
Proof.
  intros Hv Hvx Hr Hc. unfold Sub.
  rewrite (bind_Done _ _ _ _ _
             (checkEqualDimentions_equal h p x m mx
                (proj1 (proj1 Hv)) (proj1 (proj1 Hvx)) Hr Hc)).
  rewrite (bind_Done _ _ _ _ _ (deref_Done h p m (proj1 (proj1 Hv)))).
  erewrite bind_Done; [reflexivity|].
  now apply (binary_cells h p x m mx d xd PrimFloat.sub).
Qed.

Lemma Add_mismatch (h : heap) (p x : ptr) (m mx : Matrix) :
  objs h !! p = Some m -> objs h !! x = Some mx ->
  rows m <> rows mx \/ cols m <> cols mx ->
  Add p x h
  = Done (Some (DimensionMismatch (rows m) (cols m) (rows mx) (cols mx))) h.
Proof.
  intros Ho Hox Hne. unfold Add.
  now rewrite (bind_Done _ _ _ _ _ (checkEqualDimentions_differ h p x m mx Ho Hox Hne)).
Qed.

Lemma Sub_mismatch (h : heap) (p x : ptr) (m mx : Matrix) :
  objs h !! p = Some m -> objs h !! x = Some mx ->
  rows m <> rows mx \/ cols m <> cols mx ->
  Sub p x h
  = Done (Some (DimensionMismatch (rows m) (cols m) (rows mx) (cols mx))) h.
Proof.
  intros Ho Hox Hne. unfold Sub.
  now rewrite (bind_Done _ _ _ _ _ (checkEqualDimentions_differ h p x m mx Ho Hox Hne)).
Qed.

Lemma Dot_mismatch (h : heap) (p x : ptr) (m mx : Matrix) :
  objs h !! p = Some m -> objs h !! x = Some mx ->
  rows m <> rows mx \/ cols m <> cols mx ->
  Dot p x h
  = Done (0%float, Some (DimensionMismatch (rows m) (cols m) (rows mx) (cols mx))) h.
Proof.
  intros Ho Hox Hne. unfold Dot.
  now rewrite (bind_Done _ _ _ _ _ (checkEqualDimentions_differ h p x m mx Ho Hox Hne)).
Qed.

(** ** [Dot] *)

Lemma dot_acc_step (d xd : list float) (k : nat) (a b : float) :
  d !! k = Some a -> xd !! k = Some b ->
  dot_acc 0 (take (S k) d) (take (S k) xd)
  = (dot_acc 0 (take k d) (take k xd) + a * b)%float.
Proof.
  intros Ha Hb. unfold dot_acc.
  rewrite (take_S_r _ _ _ Ha), (take_S_r _ _ _ Hb).
  rewrite zip_with_app.
  - now rewrite fold_left_app.
  - apply lookup_lt_Some in Ha, Hb. rewrite !length_take. lia.
Qed.

Lemma Dot_Done (h : heap) (p x : ptr) (m mx : Matrix) (d xd : list float) :
  valid h p m d -> valid h x mx xd ->
  rows m = rows mx -> cols m = cols mx ->
  Dot p x h = Done (dot_acc 0 d xd, None) h.
Proof.
  intros [Hrepr Hs] [Hreprx Hsx] Hr Hc. unfold Dot.
  rewrite (bind_Done _ _ _ _ _
             (checkEqualDimentions_equal h p x m mx
                (proj1 Hrepr) (proj1 Hreprx) Hr Hc)).
  rewrite (bind_Done _ _ _ _ _ (deref_Done h p m (proj1 Hrepr))).
  assert (Hxd : length xd = length d).
  { destruct Hs as (_ & _ & Hl & _), Hsx as (_ & _ & Hlx & _).
    rewrite <- Hr, <- Hc in Hlx. lia. }
  pose (J := fun (k : Z) (r : float) (h' : heap) =>
    h' = h /\ r = dot_acc 0 (take (Z.to_nat k) d) (take (Z.to_nat k) xd)).
  destruct (cells_acc_inv J (rows m) (cols m)
              (fun i r => for_acc (cols m) (fun j r =>
                 a ← get p i j; b ← get x i j; mret (r + a * b)%float) r)
              (fun i j r => a ← get p i j; b ← get x i j; mret (r + a * b)%float)
              0%float h) as (r & h' & Hrun & -> & ->).
  - reflexivity.
  - apply Hs.
  - apply Hs.
  - split; reflexivity.
  - intros i j r h' Hi Hj [-> ->].
    assert (Hij : in_range m i j) by (split; assumption).
    assert (Hijx : in_range mx i j) by (unfold in_range; now rewrite <- Hr, <- Hc).
    destruct (get_Done h p m d i j Hrepr Hs Hij) as (a & Ha & Hget).
    destruct (get_Done h x mx xd i j Hreprx Hsx Hijx) as (b & Hb & Hgetx).
    replace (offset mx i j) with (offset m i j) in Hb
      by (unfold offset; now rewrite Hc).
    rewrite (bind_Done _ _ _ _ _ Hget), (bind_Done _ _ _ _ _ Hgetx).
    eexists _, h. split; [reflexivity|]. split; [reflexivity|].
    destruct (offset_bounds m d i j Hs Hij) as [Hb0 _].
    replace (Z.to_nat (cols m * i + j + 1)) with (S (offset m i j))
      by (unfold offset; lia).
    fold (offset m i j). symmetry. now apply dot_acc_step.
  - rewrite (bind_Done _ _ _ _ _ Hrun).
    destruct Hs as (_ & _ & Hl & _).
    rewrite <- Hl, Nat2Z.id, firstn_all, <- Hxd, firstn_all. reflexivity.
Qed.

(** ** [New] *)

Lemma New_error (r c : Z) (h : heap) :
  r < 0 \/ c < 0 ->
  New r c h = Done (None, Some (InvalidDimensions r c)) h.
Proof.
  intros Hneg. unfold New.
  destruct (Z.ltb_spec r 0), (Z.ltb_spec c 0); cbn; try reflexivity. lia.
Qed.

(** Without an error, [New] either panics in [make] or returns a struct
    whose array has the wrapped product as its length. *)
Lemma New_no_error (r c : Z) (h : heap) :
  0 <= r -> 0 <= c ->
  New r c h
  = if (int_mul r c <? 0) || (maxAlloc <? elemSize * int_mul r c) then Panic
    else Done (Some (length (objs h)), None)
           (grow h (mkMatrix r c (length (mems h)))
              (replicate (Z.to_nat (int_mul r c)) 0%float)).
Proof.
  intros Hr Hc. unfold New.
  destruct (Z.ltb_spec r 0), (Z.ltb_spec c 0); try lia. cbn [orb].
  rewrite run_bind. unfold make.
  destruct ((int_mul r c <? 0) || (maxAlloc <? elemSize * int_mul r c));
    reflexivity.
Qed.

Lemma New_Done (r c : Z) (h : heap) :
  0 <= r -> 0 <= c -> r * c <= maxLen ->
  New r c h
  = Done (Some (length (objs h)), None)
      (grow h (mkMatrix r c (length (mems h)))
         (replicate (Z.to_nat (r * c)) 0%float)).
Proof.
  intros Hr Hc Hmax. rewrite New_no_error by assumption.
  unfold int_mul. rewrite wrap_small
    by (pose proof maxLen_int; unfold int_min, int_max in *; nia).
  unfold maxAlloc, elemSize, maxLen in *.
  destruct (Z.ltb_spec (r * c) 0); [nia|].
  destruct (Z.ltb_spec (2 ^ 48) (8 * (r * c))); [lia|]. reflexivity.
Qed.

Lemma New_valid (r c : Z) (h : heap) :
  0 <= r -> 0 <= c -> r * c <= maxLen ->
  valid (grow h (mkMatrix r c (length (mems h)))
           (replicate (Z.to_nat (r * c)) 0%float))
        (length (objs h)) (mkMatrix r c (length (mems h)))
        (replicate (Z.to_nat (r * c)) 0%float).
Proof.
  intros Hr Hc Hmax. split.
  - now apply repr_grow_new.
  - unfold shaped. cbn. rewrite length_replicate. nia.
Qed.

(** Whatever matrix [New] returns has the dimensions asked for and a
    storage whose length is their product in [int]. *)
Lemma New_returns (r c : Z) (h h' : heap) (p : ptr) (e : option error) :
  New r c h = Done (Some p, e) h' ->
  exists m d,
    repr h' p m d /\ rows m = r /\ cols m = c
    /\ Z.of_nat (length d) = int_mul r c.
Proof.
  intros Hnew.
  destruct (Z.lt_ge_cases r 0) as [?|Hr];
    [rewrite New_error in Hnew by lia; discriminate|].
  destruct (Z.lt_ge_cases c 0) as [?|Hc];
    [rewrite New_error in Hnew by lia; discriminate|].
  rewrite New_no_error in Hnew by assumption.
  destruct (Z.ltb_spec (int_mul r c) 0) as [|Hpos]; [discriminate|].
  cbn [orb] in Hnew. destruct (_ <? _); [discriminate|].
  injection Hnew as <- <- <-.
  eexists _, _. split; [now apply repr_grow_new|].
  split; [reflexivity|]. split; [reflexivity|].
  rewrite length_replicate. lia.
Qed.

(** ** [T] and [Clone] *)

Lemma offset_inj (m : Matrix) (i j i' j' : Z) :
  in_range m i j -> in_range m i' j' ->
  offset m i j = offset m i' j' -> i = i' /\ j = j'.
Proof.
  intros H H' Heq.
  destruct (offset_div_mod m i j H) as [Hi Hj].
  destruct (offset_div_mod m i' j' H') as [Hi' Hj'].
  rewrite Heq in Hi, Hj. split; congruence.
Qed.

Lemma T_Done (h : heap) (p : ptr) (m : Matrix) (d : list float) :
  valid h p m d ->
  let mt := mkMatrix (cols m) (rows m) (length (mems h)) in
  exists dt,
    T p h = Done (length (objs h)) (grow h mt dt)
    /\ length dt = length d
    /\ forall i j, in_range m i j -> dt !! offset mt j i = d !! offset m i j.
Proof.
  intros [Hrepr Hs] mt.
  destruct Hs as (Hr & Hc & Hl & Hmax).
  assert (Hs : shaped m d) by (repeat split; assumption).
  assert (Hn : int_mul (rows m) (cols m) = rows m * cols m).
  { apply wrap_small. pose proof maxLen_int. unfold int_min, int_max in *. nia. }
  set (n := Z.to_nat (rows m * cols m)).
  pose (J := fun (k : Z) (h' : heap) =>
    exists cur, h' = grow h mt cur /\ length cur = length d /\
      forall i j, in_range m i j -> cols m * i + j < k ->
        cur !! offset mt j i = d !! offset m i j).
  assert (Hshape : forall cur, length cur = length d -> shaped mt cur).
  { intros cur Hcur. unfold shaped, mt. cbn. rewrite Hcur. repeat split; lia. }
  assert (Hswap : forall i j, in_range m i j -> in_range mt j i).
  { unfold in_range, mt. cbn. tauto. }
  destruct (cells_inv J (rows m) (cols m)
              (fun i j => v ← get p i j; set (length (objs h)) j i v)
              (grow h mt (replicate n 0%float)))
    as (h' & Hrun & cur & -> & Hcur & Hcells).
  - exact Hr.
  - exact Hc.
  - exists (replicate n 0%float). split; [reflexivity|]. split.
    + rewrite length_replicate. unfold n. lia.
    + intros i j [Hi Hj] Hlt. nia.
  - intros i j h' Hi Hj (cur & -> & Hcur & Hcells).
    assert (Hij : in_range m i j) by (split; assumption).
    destruct (get_Done (grow h mt cur) p m d i j) as (a & Ha & Hget);
      [now apply repr_grow | exact Hs | exact Hij |].
    rewrite (bind_Done _ _ _ _ _ Hget).
    rewrite (set_Done (grow h mt cur) (length (objs h)) mt cur j i a);
      [|now apply repr_grow_new | now apply Hshape | now apply Hswap].
    eexists. split; [reflexivity|].
    exists (<[offset mt j i := a]> cur). split; [now apply with_data_grow|].
    split; [now rewrite length_insert|].
    intros i' j' Hij' Hlt.
    destruct (decide (offset mt j' i' = offset mt j i)) as [Heq|Hne].
    + destruct (offset_inj mt j' i' j i (Hswap _ _ Hij') (Hswap _ _ Hij) Heq)
        as [-> ->].
      rewrite Ha. apply list_lookup_insert_eq.
      destruct (offset_bounds mt cur j i (Hshape cur Hcur) (Hswap _ _ Hij)).
      unfold offset. lia.
    + rewrite list_lookup_insert_ne by congruence.
      apply Hcells; [exact Hij'|].
      assert (cols m * i' + j' <> cols m * i + j); [|lia].
      intros Heq. apply Hne.
      assert (offset m i' j' = offset m i j) as Hoff by (unfold offset; now rewrite Heq).
      destruct (offset_inj m i' j' i j Hij' Hij Hoff) as [-> ->]. reflexivity.
  - exists cur. split; [|split; [exact Hcur|]].
    + unfold T.
      rewrite (bind_Done _ _ _ _ _ (deref_Done h p m (proj1 Hrepr))).
      rewrite make_alloc by (rewrite Hn; lia).
      rewrite Hn. fold n. fold mt.
      now rewrite (bind_Done _ _ _ _ _ Hrun).
    + intros i j Hij. apply Hcells; [exact Hij|].
      destruct Hij as [Hi Hj]. nia.
Qed.

Lemma Clone_Done (h : heap) (p : ptr) (m : Matrix) (d : list float) :
  valid h p m d ->
  Clone p h
  = Done (length (objs h))
      (grow h (mkMatrix (rows m) (cols m) (length (mems h))) d).
Proof.
  intros [Hrepr (Hr & Hc & Hl & Hmax)].
  assert (Hn : int_mul (rows m) (cols m) = rows m * cols m).
  { apply wrap_small. pose proof maxLen_int. unfold int_min, int_max in *. nia. }
  unfold Clone.
  rewrite (bind_Done _ _ _ _ _ (deref_Done h p m (proj1 Hrepr))).
  assert (Hrange : 0 <= rows m * cols m <= maxLen) by lia.
  rewrite Hn, (bind_Done _ _ _ _ _ (make_Done _ h Hrange)).
  rewrite run_bind. cbn [alloc objs mems].
  change (mkHeap (objs h ++ [?x]) (mems h ++ [?y])) with (grow h x y).
  set (mc := mkMatrix _ _ _). set (z := replicate _ _).
  assert (Hz : length z = length d) by (unfold z; rewrite length_replicate; lia).
  rewrite run_bind. unfold copy.
  destruct (repr_grow_new h mc z eq_refl) as [_ Hnew].
  destruct (repr_grow h p m d mc z Hrepr) as [_ Hold].
  cbn [data mc] in Hnew. rewrite Hnew, Hold.
  change (mkHeap (objs (grow h mc z)) (<[length (mems h) := ?l]> _))
    with (with_data (grow h mc z) mc l).
  rewrite with_data_grow by reflexivity.
  rewrite take_ge, drop_ge, app_nil_r by lia. reflexivity.
Qed.

(** ** Ownership and shapes *)

Lemma valid_with_data (h : heap) (p : ptr) (m : Matrix) (d d' : list float) :
  valid h p m d -> length d' = length d -> valid (with_data h m d') p m d'.
Proof.
  intros [Hrepr Hs] Hlen. split.
  - eapply repr_with_data, Hrepr.
  - eapply shaped_length; eauto.
Qed.

Lemma keeps_shape_grow (h : heap) (m : Matrix) (d : list float) :
  keeps_shape h (grow h m d).
Proof.
  intros q mq dq [Hrepr Hs]. exists dq. split; [|reflexivity].
  split; [now apply repr_grow | exact Hs].
Qed.

Lemma owned_empty : owned empty_heap.
Proof. split; intros *; cbn; intros H; discriminate H. Qed.

Lemma lookup_snoc {A} (l : list A) (x y : A) (k : nat) :
  (l ++ [x]) !! k = Some y ->
  l !! k = Some y \/ (k = length l /\ y = x).
Proof.
  intros H. apply lookup_app_Some in H as [H|[Hk H]]; [now left|right].
  destruct (k - length l)%nat as [|n] eqn:Hn; cbn in H; [|discriminate].
  split; [lia | congruence].
Qed.

Lemma owned_grow (h : heap) (m : Matrix) (d : list float) :
  owned h -> data m = length (mems h) -> owned (grow h m d).
Proof.
  intros [Hin Hinj] Hd. split; cbn.
  - intros q mq Hq. rewrite length_app. cbn.
    apply lookup_snoc in Hq as [Hq|[_ ->]]; [apply Hin in Hq|]; lia.
  - intros p q mp mq Hp Hq Heq.
    apply lookup_snoc in Hp as [Hp|[-> ->]], Hq as [Hq|[-> ->]].
    + eauto.
    + apply Hin in Hp. lia.
    + apply Hin in Hq. lia.
    + reflexivity.
Qed.

Lemma owned_distinct (h : heap) (p q : ptr) (m mq : Matrix) :
  owned h -> objs h !! p = Some m -> objs h !! q = Some mq ->
  p <> q -> data m <> data mq.
Proof. intros [_ Hinj] Hp Hq Hne Heq. apply Hne. eauto. Qed.

(** ** Repeated [Set] *)

Lemma Set_cases (h : heap) (p : ptr) (m : Matrix) (d : list float) (i j : Z)
    (v : float) :
  valid h p m d ->
  exists e d', Set_ p i j v h = Done e (with_data h m d') /\ length d' = length d.
Proof.
  intros Hv.
  assert (Hid : with_data h m d = h) by apply with_data_id, Hv.
  assert (Hcases : in_range m i j \/ (i < 0 \/ j < 0)
                   \/ (0 <= i /\ 0 <= j /\ (rows m <= i \/ cols m <= j)))
    by (unfold in_range; lia).
  destruct Hcases as [Hij|[Hn|(Hi & Hj & Ho)]].
  - eexists _, _. split; [exact (Set_inside h p m d i j v Hv Hij)|].
    apply length_insert.
  - eexists _, d. rewrite Hid. split; [|reflexivity].
    apply Set_error. now apply checkRange_negative.
  - eexists _, d. rewrite Hid. split; [|reflexivity].
    apply Set_error. apply checkRange_beyond; [apply Hv | lia | lia | lia].
Qed.


(** ** Reading the cells after an update *)

Lemma Get_with_data (h : heap) (p : ptr) (m : Matrix) (d d' : list float)
    (i j : Z) (v : float) :
  valid h p m d -> length d' = length d -> in_range m i j ->
  d' !! offset m i j = Some v ->
  Get p i j (with_data h m d') = Done (v, None) (with_data h m d').
Proof.
  intros Hv Hlen Hij Hlook.
  destruct (Get_inside _ _ _ _ i j (valid_with_data _ _ _ _ _ Hv Hlen) Hij)
    as (w & Hw & Hget).
  congruence.
Qed.

(** What [Add] and [Sub] do to the cells, whether or not the argument is
    the receiver. *)
Lemma binary_cells_Get (h : heap) (p x : ptr) (m mx : Matrix) (d xd : list float)
    (op : float -> float -> float) (i j : Z) :
  valid h p m d -> valid h x mx xd ->
  rows m = rows mx -> cols m = cols mx -> in_range m i j ->
  exists a b,
    Get p i j h = Done (a, None) h
    /\ Get x i j h = Done (b, None) h
    /\ Get p i j (with_data h m (zip_with op d xd))
       = Done (op a b, None) (with_data h m (zip_with op d xd)).
Proof.
  intros Hv Hvx Hr Hc Hij.
  assert (Hijx : in_range mx i j) by (unfold in_range; now rewrite <- Hr, <- Hc).
  destruct (Get_inside h p m d i j Hv Hij) as (a & Ha & Hget).
  destruct (Get_inside h x mx xd i j Hvx Hijx) as (b & Hb & Hgetx).
  replace (offset mx i j) with (offset m i j) in Hb by (unfold offset; now rewrite Hc).
  exists a, b. split; [exact Hget|]. split; [exact Hgetx|].
  assert (Hxd : length xd = length d).
  { destruct Hv as [_ (_ & _ & Hl & _)], Hvx as [_ (_ & _ & Hlx & _)].
    rewrite <- Hr, <- Hc in Hlx. lia. }
  apply (Get_with_data h p m d); [exact Hv | | exact Hij |].
  - rewrite length_zip_with. lia.
  - rewrite lookup_zip_with, Ha, Hb. reflexivity.
Qed.

Lemma zip_with_length_same {A} (op : A -> A -> A) (m mx : Matrix) (d xd : list A)
    (Hl : Z.of_nat (length d) = rows m * cols m)
    (Hlx : Z.of_nat (length xd) = rows mx * cols mx) :
  rows m = rows mx -> cols m = cols mx ->
  length (zip_with op d xd) = length d.
Proof. intros Hr Hc. rewrite length_zip_with. rewrite <- Hr, <- Hc in Hlx. lia. Qed.

(** ** The checks do not touch the heap *)

Lemma checkRange_pure (p : ptr) (i j : Z) (h h' : heap) (e : option error) :
  checkRange p i j h = Done e h' -> h' = h.
Proof.
  unfold checkRange, deref, mbind, M_bind, mret, M_ret.
  repeat case_match; intros; simplify_eq; reflexivity.
Qed.

Lemma checkEqualDimentions_pure (p x : ptr) (h h' : heap) (e : option error) :
  checkEqualDimentions p x h = Done e h' -> h' = h.
Proof.
  unfold checkEqualDimentions, deref, mbind, M_bind, mret, M_ret.
  repeat case_match; intros; simplify_eq; reflexivity.
Qed.

Lemma then_None {A} (c : M A) (h h' : heap) (e : error) :
  (c ≫= fun _ => mret None) h = Done (Some e) h' -> False.
Proof. rewrite run_bind. destruct (c h); discriminate. Qed.

Lemma then_pair_None {A B} (c : M A) (f : A -> B) (h h' : heap) (w : B) (e : error) :
  (c ≫= fun a => mret (f a, None)) h = Done (w, Some e) h' -> False.
Proof. rewrite run_bind. destruct (c h); discriminate. Qed.

(** ** Frames *)



(** ** Every reachable heap has exclusive ownership *)

Lemma framed_refl (h : heap) : framed h h.
Proof. split; reflexivity. Qed.

Lemma framed_trans (h1 h2 h3 : heap) : framed h1 h2 -> framed h2 h3 -> framed h1 h3.
Proof. intros [Ho Hm] [Ho' Hm']. split; congruence. Qed.

Lemma framed_length (h h' : heap) :
  framed h h' -> length (mems h') = length (mems h).
Proof.
  intros [_ Hm]. apply (f_equal length) in Hm. now rewrite !length_fmap in Hm.
Qed.

Lemma owned_framed (h h' : heap) : owned h -> framed h h' -> owned h'.
Proof.
  intros [Hin Hinj] Hf. pose proof (framed_length h h' Hf) as Hm.
  destruct Hf as [Ho _]. split.
  - intros q mq. rewrite Ho, Hm. apply Hin.
  - intros p q m mq. rewrite Ho. apply Hinj.
Qed.

Lemma framed_keeps_shape (h h' : heap) : framed h h' -> keeps_shape h h'.
Proof.
  intros [Ho Hm] q mq dq [[Hoq Hmq] Hsq].
  assert (Hlen : (length <$> mems h') !! data mq = Some (length dq))
    by (rewrite Hm; now apply list_lookup_fmap_Some_2).
  apply list_lookup_fmap_Some_1 in Hlen as (dq' & Hlen & Hmq').
  exists dq'. split; [|now symmetry].
  split; [split; [now rewrite Ho | exact Hmq']|].
  eapply shaped_length; [|exact Hsq]. now symmetry.
Qed.

Lemma framed_overwrite (h : heap) (s : slice) (d d' : list float) :
  mems h !! s = Some d -> length d' = length d ->
  framed h (mkHeap (objs h) (<[s := d']> (mems h))).
Proof.
  intros Hs Hlen. split; cbn; [reflexivity|].
  rewrite list_fmap_insert, Hlen. apply list_insert_id.
  now apply list_lookup_fmap_Some_2.
Qed.

Lemma bind_framed {A B} (c : M A) (k : A -> M B) (h h' : heap) (b : B) :
  (forall a h1, c h = Done a h1 -> framed h h1) ->
  (forall a h1 b h2, k a h1 = Done b h2 -> framed h1 h2) ->
  (c ≫= k) h = Done b h' -> framed h h'.
Proof.
  intros Hc Hk. rewrite run_bind. destruct (c h) as [a h1|] eqn:Hch; [|discriminate].
  intros Hkh. eapply framed_trans; eauto.
Qed.

Lemma ret_framed {A} (a b : A) (h h' : heap) :
  (mret a : M A) h = Done b h' -> framed h h'.
Proof. intros [= _ <-]. apply framed_refl. Qed.

Lemma deref_framed (p : ptr) (h h' : heap) (m : Matrix) :
  deref p h = Done m h' -> framed h h'.
Proof.
  unfold deref. destruct (objs h !! p); [|discriminate].
  intros [= _ <-]. apply framed_refl.
Qed.

Lemma index_framed (s : slice) (k : Z) (h h' : heap) (v : float) :
  index s k h = Done v h' -> framed h h'.
Proof.
  unfold index. repeat case_match; try discriminate.
  intros [= _ <-]. apply framed_refl.
Qed.

Lemma assign_framed (s : slice) (k : Z) (v : float) (h h' : heap) (u : unit) :
  assign s k v h = Done u h' -> framed h h'.
Proof.
  unfold assign. destruct (mems h !! s) as [d|] eqn:Hs; [|discriminate].
  destruct (_ && _); [|discriminate].
  intros [= _ <-]. apply (framed_overwrite h s d); [exact Hs | apply length_insert].
Qed.

Lemma copy_framed (dst src : slice) (h h' : heap) (u : unit) :
  copy dst src h = Done u h' -> framed h h'.
Proof.
  unfold copy. destruct (mems h !! dst) as [d|] eqn:Hd; [|discriminate].
  destruct (mems h !! src) as [s|] eqn:Hs; [|discriminate].
  intros [= _ <-]. apply (framed_overwrite h dst d); [exact Hd|].
  rewrite length_app, length_take, length_drop. lia.
Qed.

Lemma get_framed (p : ptr) (i j : Z) (h h' : heap) (v : float) :
  get p i j h = Done v h' -> framed h h'.
Proof.
  apply bind_framed; [intros ? ? | intros ? ? ? ?]; [apply deref_framed | apply index_framed].
Qed.

Lemma set_framed (p : ptr) (i j : Z) (v : float) (h h' : heap) (u : unit) :
  set p i j v h = Done u h' -> framed h h'.
Proof.
  apply bind_framed; [intros ? ? | intros ? ? ? ?]; [apply deref_framed | apply assign_framed].
Qed.

Lemma loop_framed {A} (body : Z -> A -> M A) :
  (forall i a h a' h', body i a h = Done a' h' -> framed h h') ->
  forall n i a h a' h', loop n i body a h = Done a' h' -> framed h h'.
Proof.
  intros Hbody n. induction n as [|n IH]; intros i a h a' h'; cbn [loop].
  - apply ret_framed.
  - apply bind_framed; [intros ? ? | intros ? ? ? ?]; [apply Hbody | apply IH].
Qed.

Lemma for_acc_framed {A} (bound : Z) (body : Z -> A -> M A) :
  (forall i a h a' h', body i a h = Done a' h' -> framed h h') ->
  forall a h a' h', for_acc bound body a h = Done a' h' -> framed h h'.
Proof. intros Hbody a h a' h'. now apply loop_framed. Qed.

Lemma for_framed (bound : Z) (body : Z -> M unit) :
  (forall i h u h', body i h = Done u h' -> framed h h') ->
  forall h u h', for_ bound body h = Done u h' -> framed h h'.
Proof.
  intros Hbody h u h'. apply for_acc_framed. intros i a h1 a' h2. apply Hbody.
Qed.

Lemma checkRange_framed (p : ptr) (i j : Z) (h h' : heap) (e : option error) :
  checkRange p i j h = Done e h' -> framed h h'.
Proof. intros H. apply checkRange_pure in H as ->. apply framed_refl. Qed.

Lemma checkEqualDimentions_framed (p x : ptr) (h h' : heap) (e : option error) :
  checkEqualDimentions p x h = Done e h' -> framed h h'.
Proof. intros H. apply checkEqualDimentions_pure in H as ->. apply framed_refl. Qed.

Ltac framed_step :=
  first
    [ apply ret_framed
    | apply deref_framed
    | apply get_framed
    | apply set_framed
    | apply checkRange_framed
    | apply checkEqualDimentions_framed
    | apply for_framed; intros ? ? ? ?
    | apply for_acc_framed; intros ? ? ? ? ?
    | apply bind_framed; [intros ? ? | intros ? ? ? ?]
    | match goal with |- context [match ?e with _ => _ end] => destruct e end ].

Lemma Dimentions_framed (p : ptr) (h h' : heap) (rc : Z * Z) :
  Dimentions p h = Done rc h' -> framed h h'.
Proof. unfold Dimentions. repeat framed_step. Qed.

Lemma Get_framed (p : ptr) (i j : Z) (h h' : heap) (r : float * option error) :
  Get p i j h = Done r h' -> framed h h'.
Proof. unfold Get. repeat framed_step. Qed.

Lemma Set_framed (p : ptr) (i j : Z) (v : float) (h h' : heap) (e : option error) :
  Set_ p i j v h = Done e h' -> framed h h'.
Proof. unfold Set_. repeat framed_step. Qed.

Lemma Each_framed (p : ptr) (f : Z -> Z -> float -> float) (h h' : heap) (u : unit) :
  Each p f h = Done u h' -> framed h h'.
Proof. unfold Each. repeat framed_step. Qed.

Lemma Add_framed (p x : ptr) (h h' : heap) (e : option error) :
  Add p x h = Done e h' -> framed h h'.
Proof. unfold Add. repeat framed_step. Qed.

Lemma Sub_framed (p x : ptr) (h h' : heap) (e : option error) :
  Sub p x h = Done e h' -> framed h h'.
Proof. unfold Sub. repeat framed_step. Qed.

Lemma Addn_framed (p : ptr) (n : float) (h h' : heap) (u : unit) :
  Addn p n h = Done u h' -> framed h h'.
Proof. unfold Addn. repeat framed_step. Qed.

Lemma Scale_framed (p : ptr) (n : float) (h h' : heap) (u : unit) :
  Scale p n h = Done u h' -> framed h h'.
Proof. unfold Scale. repeat framed_step. Qed.

Lemma Dot_framed (p x : ptr) (h h' : heap) (r : float * option error) :
  Dot p x h = Done r h' -> framed h h'.
Proof. unfold Dot. repeat framed_step. Qed.

(** A struct allocated right after its array owns it. *)
Lemma make_alloc_owned (n r c : Z) (h h1 h2 : heap) (s : slice) (p : ptr) :
  owned h -> make n h = Done s h1 -> alloc (mkMatrix r c s) h1 = Done p h2 ->
  owned h2.
Proof.
  intros Hown Hmake Halloc. unfold make in Hmake.
  destruct (_ || _); [discriminate|]. injection Hmake as <- <-.
  injection Halloc as _ <-.
  now apply (owned_grow h (mkMatrix r c (length (mems h)))).
Qed.

Lemma New_owned (r c : Z) (h h' : heap) (res : option ptr * option error) :
  owned h -> New r c h = Done res h' -> owned h'.
Proof.
  intros Hown. unfold New. destruct (_ || _).
  - intros [= _ <-]. exact Hown.
  - rewrite run_bind. destruct (make (int_mul r c) h) as [s h1|] eqn:Hmake; [|discriminate].
    rewrite run_bind. destruct (alloc _ h1) as [p h2|] eqn:Halloc; [|discriminate].
    intros [= _ <-]. eapply make_alloc_owned; eauto.
Qed.

Lemma T_owned (p : ptr) (h h' : heap) (t : ptr) :
  owned h -> T p h = Done t h' -> owned h'.
Proof.
  intros Hown. unfold T. rewrite run_bind.
  destruct (deref p h) as [m h0|] eqn:Hd; [|discriminate].
  assert (h0 = h) as ->.
  { unfold deref in Hd. destruct (objs h !! p); [|discriminate]. congruence. }
  rewrite run_bind. destruct (make _ h) as [s h1|] eqn:Hmake; [|discriminate].
  rewrite run_bind. destruct (alloc _ h1) as [q h2|] eqn:Halloc; [|discriminate].
  intros Hrest. apply (owned_framed h2); [eapply make_alloc_owned; eauto|].
  revert Hrest. repeat framed_step.
Qed.

Lemma Clone_owned (p : ptr) (h h' : heap) (c : ptr) :
  owned h -> Clone p h = Done c h' -> owned h'.
Proof.
  intros Hown. unfold Clone. rewrite run_bind.
  destruct (deref p h) as [m h0|] eqn:Hd; [|discriminate].
  assert (h0 = h) as ->.
  { unfold deref in Hd. destruct (objs h !! p); [|discriminate]. congruence. }
  rewrite run_bind. destruct (make _ h) as [s h1|] eqn:Hmake; [|discriminate].
  rewrite run_bind. destruct (alloc _ h1) as [q h2|] eqn:Halloc; [|discriminate].
  intros Hrest. apply (owned_framed h2); [eapply make_alloc_owned; eauto|].
  revert Hrest. apply bind_framed; [intros ? ? | intros ? ? ? ?];
    [apply copy_framed | apply ret_framed].
Qed.

Lemma run_owned (c : call) (h h' : heap) :
  owned h -> run c h = Done tt h' -> owned h'.
Proof.
  intros Hown. destruct c; cbn [run]; try rewrite run_bind.
  - destruct (New r c h) eqn:E; [|discriminate]. intros [= <-]. eapply New_owned; eauto.
  - destruct (Dimentions p h) eqn:E; [|discriminate]. intros [= <-].
    eapply owned_framed, Dimentions_framed; eauto.
  - destruct (Get p i j h) eqn:E; [|discriminate]. intros [= <-].
    eapply owned_framed, Get_framed; eauto.
  - destruct (Set_ p i j v h) eqn:E; [|discriminate]. intros [= <-].
    eapply owned_framed, Set_framed; eauto.
  - intros E. eapply owned_framed, Each_framed; eauto.
  - destruct (T p h) eqn:E; [|discriminate]. intros [= <-]. eapply T_owned; eauto.
  - destruct (Clone p h) eqn:E; [|discriminate]. intros [= <-]. eapply Clone_owned; eauto.
  - destruct (Add p x h) eqn:E; [|discriminate]. intros [= <-].
    eapply owned_framed, Add_framed; eauto.
  - destruct (Sub p x h) eqn:E; [|discriminate]. intros [= <-].
    eapply owned_framed, Sub_framed; eauto.
  - intros E. eapply owned_framed, Addn_framed; eauto.
  - intros E. eapply owned_framed, Scale_framed; eauto.
  - destruct (Dot p x h) eqn:E; [|discriminate]. intros [= <-].
    eapply owned_framed, Dot_framed; eauto.
Qed.

(** Whatever calls a client makes, no two matrices ever share storage. *)
Lemma reachable_owned (h : heap) : reachable h -> owned h.
Proof.
  induction 1 as [|h h' c _ IH Hrun]; [apply owned_empty|].
  eapply run_owned; eauto.
Qed.

Lemma reachable_runs (l : list call) :
  forall h h', reachable h -> runs l h = Done tt h' -> reachable h'.
Proof.
  induction l as [|c l IH]; intros h h' Hreach; cbn [runs].
  - intros [= <-]. exact Hreach.
  - rewrite run_bind. destruct (run c h) as [[] h1|] eqn:Hrun; [|discriminate].
    apply IH. eapply reachable_call; eauto.
Qed.

Example reachable_AB : reachable heap_AB.
Proof.
  apply (reachable_runs
           [CallNew 2 2; CallSet 0%nat 0 0 1; CallSet 0%nat 0 1 2; CallSet 0%nat 1 0 3;
            CallSet 0%nat 1 1 4; CallNew 2 2; CallSet 1%nat 0 0 5; CallSet 1%nat 0 1 6;
            CallSet 1%nat 1 0 7; CallSet 1%nat 1 1 8] empty_heap);
    [constructor | vm_compute; reflexivity].
Qed.

(** [-0.0] needs no special input: it is what [Scale(-1)] makes of [0.0]. *)
Example reachable_negzero : reachable heap_negzero.
Proof.
  apply (reachable_runs [CallNew 1 1; CallScale 0%nat (-1)] empty_heap);
    [constructor | vm_compute; reflexivity].
Qed.

Example reachable_huge : reachable heap_huge.
Proof.
  apply (reachable_runs
           [CallNew 1 1; CallSet 0%nat 0 0 0x1p1023%float; CallNew 1 1; CallSet 1%nat 0 0 0x1p1023%float]
           empty_heap);
    [constructor | vm_compute; reflexivity].
Qed.

Example reachable_round : reachable heap_round.
Proof.
  apply (reachable_runs
           [CallNew 1 1; CallSet 0%nat 0 0 1; CallNew 1 1; CallSet 1%nat 0 0 0x1p53%float]
           empty_heap);
    [constructor | vm_compute; reflexivity].
Qed.

(** So is the matrix without storage of the counterexamples to C1 and C6. *)
Example reachable_overflow :
  reachable (mkHeap [mkMatrix 4294967296 4294967296 0%nat] [[]]).
Proof.
  apply (reachable_runs [CallNew 4294967296 4294967296] empty_heap);
    [constructor | vm_compute; reflexivity].
Qed.

(** And so are two of them. *)
Example reachable_wrapped : reachable heap_wrapped.
Proof.
  apply (reachable_runs
           [CallNew 4294967296 4294967296; CallNew 4294967296 4294967296] empty_heap);
    [constructor | vm_compute; reflexivity].
Qed.

(** ** [float64] arithmetic *)

Lemma digits2_xO (q : positive) :
  Z.pos (digits2_pos q~0) = Z.pos (digits2_pos q) + 1.
Proof. cbn [digits2_pos]. lia. Qed.

Lemma digits2_shift52 (q : positive) :
  Z.pos (digits2_pos (Pos.iter xO q 52)) = Z.pos (digits2_pos q) + 52.
Proof. simpl Pos.iter. rewrite !digits2_xO. lia. Qed.

Lemma shr_shift52 (q : positive) :
  SpecFloat.iter_pos shr_1 52
    {| shr_m := Z.pos (Pos.iter xO q 52); shr_r := false; shr_s := false |}
  = {| shr_m := Z.pos q; shr_r := false; shr_s := false |}.
Proof. reflexivity. Qed.

(** Multiplying a representable number by [1 = 2^52 * 2^-52]: the product
    of the mantissas is shifted back by 52 bits without rounding. *)
Lemma SF64mul_one_r (x : spec_float) :
  valid_binary x = true ->
  SF64mul x (S754_finite false 4503599627370496 (-52)) = x.
Proof.
  destruct x as [s|s| |s q e]; intros Hx;
    try reflexivity; try (destruct s; reflexivity).
  cbn [SpecFloat.valid_binary] in Hx. unfold bounded, canonical_mantissa in Hx.
  apply andb_prop in Hx as [Hcanon Hmax]. apply Z.eqb_eq in Hcanon.
  unfold SF64mul, SFmul. rewrite xorb_false_r, (Pos.mul_comm q).
  change (4503599627370496 * q)%positive with (Pos.iter xO q 52).
  unfold binary_round_aux, shr_fexp.
  cbn [Zdigits2 shr_record_of_loc]. rewrite digits2_shift52.
  replace (Z.pos (digits2_pos q) + 52 + (e + -52))
    with (Z.pos (digits2_pos q) + e) by lia.
  rewrite Hcanon. replace (e - (e + -52)) with 52 by lia.
  cbn [shr]. rewrite shr_shift52.
  cbn [shr_m loc_of_shr_record round_nearest_even Zdigits2 shr_record_of_loc].
  replace (e + -52 + 52) with e by lia.
  rewrite Hcanon, Z.sub_diag. cbn [shr shr_m].
  now rewrite Hmax.
Qed.

Lemma mul_one_r (a : float) : (a * 1)%float = a.
Proof.
  apply Prim2SF_inj. rewrite mul_spec.
  change (Prim2SF 1) with (S754_finite false 4503599627370496 (-52)).
  apply SF64mul_one_r, Prim2SF_valid.
Qed.

Lemma shr_shift51 (q : positive) :
  SpecFloat.iter_pos shr_1 51
    {| shr_m := Z.pos (Pos.iter xO q 52); shr_r := false; shr_s := false |}
  = {| shr_m := Z.pos q~0; shr_r := false; shr_s := false |}.
Proof. reflexivity. Qed.

(** Adding a representable number to itself and multiplying it by
    [2 = 2^52 * 2^-51] round the same doubled mantissa: it loses a zero bit
    when the number is normal and is kept when it is subnormal. *)
Lemma SF64_double (x : spec_float) :
  valid_binary x = true ->
  SF64add x x = SF64mul (S754_finite false 4503599627370496 (-51)) x.
Proof.
  destruct x as [s|s| |s q e]; intros Hx;
    try reflexivity; try (destruct s; reflexivity).
  cbn [SpecFloat.valid_binary] in Hx. unfold bounded, canonical_mantissa in Hx.
  apply andb_prop in Hx as [Hcanon Hmax]. apply Z.eqb_eq in Hcanon.
  apply Z.leb_le in Hmax.
  unfold fexp, emin, emax, prec in *.
  unfold SF64mul, SFmul. cbn [xorb].
  change (4503599627370496 * q)%positive with (Pos.iter xO q 52).
  unfold SF64add, SFadd. rewrite Z.min_id.
  unfold shl_align at 1 2. rewrite Z.sub_diag. cbn [fst].
  assert (Hsum : cond_Zopp s (Z.pos q) + cond_Zopp s (Z.pos q)
                 = cond_Zopp s (Z.pos q~0)) by (destruct s; cbn; lia).
  rewrite Hsum.
  assert (Hnorm : binary_normalize prec emax (cond_Zopp s (Z.pos q~0)) e false
                  = binary_round prec emax s q~0 e) by (destruct s; reflexivity).
  rewrite Hnorm. unfold binary_round.
  assert (HD : 0 < Z.pos (digits2_pos q)) by lia.
  set (D := Z.pos (digits2_pos q)) in *.
  unfold shl_align, fexp, emin, emax, prec. rewrite digits2_xO. fold D.
  destruct ((D + 1 + e - 53) `max` (3 - 1024 - 53) - e) eqn:Hal; [| |lia].
  - (* subnormal: the doubled mantissa still fits *)
    assert (He : e = -1074) by lia. assert (HD52 : D <= 52) by lia.
    unfold binary_round_aux, shr_fexp, fexp, emin, emax, prec.
    cbn [Zdigits2 shr_record_of_loc]. rewrite digits2_xO, digits2_shift52. fold D.
    rewrite Hal.
    replace ((D + 52 + (-51 + e) - 53) `max` (3 - 1024 - 53) - (-51 + e))
      with 51 by lia.
    cbn [shr]. rewrite shr_shift51.
    cbn [shr_m loc_of_shr_record round_nearest_even Zdigits2 shr_record_of_loc].
    rewrite digits2_xO. fold D. rewrite Hal.
    replace ((D + 1 + (-51 + e + 51) - 53) `max` (3 - 1024 - 53) - (-51 + e + 51))
      with 0 by lia.
    cbn [shr shr_m]. replace (-51 + e + 51) with e by lia. reflexivity.
  - (* normal: one bit is shifted out, and it is zero *)
    assert (HD53 : D = 53) by lia.
    assert (Hp : p = 1%positive) by lia. subst p.
    unfold binary_round_aux, shr_fexp, fexp, emin, emax, prec.
    cbn [Zdigits2 shr_record_of_loc]. rewrite digits2_xO, digits2_shift52. fold D.
    rewrite Hal.
    replace ((D + 52 + (-51 + e) - 53) `max` (3 - 1024 - 53) - (-51 + e))
      with 52 by lia.
    cbn [shr]. rewrite shr_shift52.
    cbn [SpecFloat.iter_pos shr_1 orb].
    cbn [shr_m loc_of_shr_record round_nearest_even Zdigits2 shr_record_of_loc].
    fold D.
    replace ((D + (e + 1) - 53) `max` (3 - 1024 - 53) - (e + 1)) with 0 by lia.
    replace ((D + (-51 + e + 52) - 53) `max` (3 - 1024 - 53) - (-51 + e + 52))
      with 0 by lia.
    cbn [shr shr_m]. replace (-51 + e + 52) with (e + 1) by lia. reflexivity.
Qed.

Lemma add_self_double (a : float) : (a + a)%float = (2 * a)%float.
Proof.
  apply Prim2SF_inj. rewrite add_spec, mul_spec.
  change (Prim2SF 2) with (S754_finite false 4503599627370496 (-51)).
  apply SF64_double, Prim2SF_valid.
Qed.

Lemma add_zero_r (a : float) : a <> neg_zero -> (a + 0)%float = a.
Proof.
  intros Ha. apply Prim2SF_inj. rewrite add_spec.
  change (Prim2SF 0) with (S754_zero false).
  destruct (Prim2SF a) as [[|]| | |] eqn:Hsf; try reflexivity.
  exfalso. apply Ha. apply Prim2SF_inj. rewrite Hsf. reflexivity.
Qed.

Lemma add_zero_neg_zero : (neg_zero + 0)%float = 0%float.
Proof. reflexivity. Qed.

Lemma float_distinct (a b : float) : Prim2SF a <> Prim2SF b -> a <> b.
Proof. intros H ->. now apply H. Qed.

Lemma fmap_id_ext {A} (f : A -> A) (l : list A) :
  (forall a, a ∈ l -> f a = a) -> f <$> l = l.
Proof.
  intros Hf. induction l as [|a l IH]; [reflexivity|].
  cbn. rewrite Hf by left. f_equal. apply IH. intros b Hb. apply Hf. now right.
Qed.

(** ** The sample heaps *)

Lemma valid_AB_0 : valid heap_AB 0%nat (mkMatrix 2 2 0%nat) [1; 2; 3; 4]%float.
Proof. repeat split; cbn; unfold maxLen; lia. Qed.

Lemma valid_AB_1 : valid heap_AB 1%nat (mkMatrix 2 2 1%nat) [5; 6; 7; 8]%float.
Proof. repeat split; cbn; unfold maxLen; lia. Qed.

Lemma valid_23 : valid heap_23_32 0%nat (mkMatrix 2 3 0%nat) [1; 2; 3; 4; 5; 6]%float.
Proof. repeat split; cbn; unfold maxLen; lia. Qed.

Lemma valid_32 : valid heap_23_32 1%nat (mkMatrix 3 2 1%nat) [0; 0; 0; 0; 0; 0]%float.
Proof. repeat split; cbn; unfold maxLen; lia. Qed.

Lemma owned_AB : owned heap_AB.
Proof.
  apply (owned_grow (mkHeap [mkMatrix 2 2 0%nat] [[1; 2; 3; 4]%float])); [|reflexivity].
  apply (owned_grow empty_heap); [apply owned_empty | reflexivity].
Qed.

Lemma owned_23_32 : owned heap_23_32.
Proof.
  apply (owned_grow (mkHeap [mkMatrix 2 3 0%nat] [[1; 2; 3; 4; 5; 6]%float]));
    [|reflexivity].
  apply (owned_grow empty_heap); [apply owned_empty | reflexivity].
Qed.

Lemma valid_negzero : valid heap_negzero 0%nat (mkMatrix 1 1 0%nat) [neg_zero].
Proof. repeat split; cbn; unfold maxLen; lia. Qed.

Lemma valid_huge_0 : valid heap_huge 0%nat (mkMatrix 1 1 0%nat) [0x1p1023%float].
Proof. repeat split; cbn; unfold maxLen; lia. Qed.

Lemma valid_huge_1 : valid heap_huge 1%nat (mkMatrix 1 1 1%nat) [0x1p1023%float].
Proof. repeat split; cbn; unfold maxLen; lia. Qed.

Lemma owned_huge : owned heap_huge.
Proof.
  apply (owned_grow (mkHeap [mkMatrix 1 1 0%nat] [[0x1p1023%float]])); [|reflexivity].
  apply (owned_grow empty_heap); [apply owned_empty | reflexivity].
Qed.

(** * The claims *)

(** ** C1: construction *)

(** C1, as the claim states it, fails: the product of the dimensions is
    computed in [int]. [New(1<<32, 1<<32)] returns, without an error, a
    4294967296 x 4294967296 matrix whose storage has length 0, and [Get(0, 0)]
    on it panics instead of returning [0.0]; [New(3037000500, 3037000500)]
    panics in [make], the wrapped product being negative. *)
Lemma New_wraps_around :
  (0 <= 4294967296
   /\ New 4294967296 4294967296 empty_heap
      = Done (Some 0%nat, None)
          (mkHeap [mkMatrix 4294967296 4294967296 0%nat] [[]])
   /\ Dimentions 0%nat (mkHeap [mkMatrix 4294967296 4294967296 0%nat] [[]])
      = Done (4294967296, 4294967296)
          (mkHeap [mkMatrix 4294967296 4294967296 0%nat] [[]])
   /\ Get 0%nat 0 0 (mkHeap [mkMatrix 4294967296 4294967296 0%nat] [[]]) = Panic)
  /\ (0 <= 3037000500
      /\ New 3037000500 3037000500 empty_heap = Panic).
Proof. repeat split; try reflexivity; lia. Qed.

(** C1, amended: [New(r, c)] returns an error, [InvalidDimensions], exactly
    when [r < 0] or [c < 0]. For [r, c >= 0] whose product [r * c] is a
    length that [make] accepts (at most [maxLen]), [New] succeeds and returns
    a matrix of dimensions [(r, c)] with [r * c] cells of storage, in
    particular none when a dimension is zero, and every [Get(i, j)] with
    [0 <= i < r], [0 <= j < c] returns [0.0]. *)
Theorem New_spec (r c : Z) (h : heap) :
  (r < 0 \/ c < 0 ->
     New r c h = Done (None, Some (InvalidDimensions r c)) h)
  /\ (forall q e h', New r c h = Done (q, Some e) h' -> r < 0 \/ c < 0)
  /\ (0 <= r -> 0 <= c -> r * c <= maxLen ->
      exists p h' m d,
        New r c h = Done (Some p, None) h'
        /\ valid h' p m d
        /\ Dimentions p h' = Done (r, c) h'
        /\ Z.of_nat (length d) = r * c
        /\ (r = 0 \/ c = 0 -> d = [])
        /\ forall i j, 0 <= i < r -> 0 <= j < c ->
             Get p i j h' = Done (0%float, None) h').
Proof.
  split; [apply New_error|]. split.
  - intros q e h' Hnew.
    destruct (Z.lt_ge_cases r 0) as [?|Hr]; [now left|].
    destruct (Z.lt_ge_cases c 0) as [?|Hc]; [now right|].
    rewrite New_no_error in Hnew by assumption.
    destruct (_ || _); discriminate.
  - intros Hr Hc Hmax.
    pose proof (New_valid r c h Hr Hc Hmax) as Hv.
    eexists _, _, _, _. split; [now apply New_Done|].
    split; [exact Hv|]. split; [|split; [|split]].
    + now rewrite (Dimentions_Done _ _ _ (proj1 (proj1 Hv))).
    + rewrite length_replicate. nia.
    + intros H0. replace (r * c) with 0 by nia. reflexivity.
    + intros i j Hi Hj.
      destruct (Get_inside _ _ _ _ i j Hv (conj Hi Hj)) as (v & Hlook & Hget).
      apply lookup_replicate_1 in Hlook as [-> _]. exact Hget.
Qed.

Lemma New_spec_witness :
  New (-1) 3 empty_heap = Done (None, Some (InvalidDimensions (-1) 3)) empty_heap
  /\ (exists p h' m d,
        New 0 3 empty_heap = Done (Some p, None) h'
        /\ valid h' p m d
        /\ Dimentions p h' = Done (0, 3) h'
        /\ Z.of_nat (length d) = 0 * 3
        /\ (0 = 0 \/ 3 = 0 -> d = [])
        /\ forall i j, 0 <= i < 0 -> 0 <= j < 3 ->
             Get p i j h' = Done (0%float, None) h')
  /\ (exists p h' m d,
        New 2 3 empty_heap = Done (Some p, None) h'
        /\ valid h' p m d
        /\ Dimentions p h' = Done (2, 3) h'
        /\ Z.of_nat (length d) = 2 * 3
        /\ (2 = 0 \/ 3 = 0 -> d = [])
        /\ forall i j, 0 <= i < 2 -> 0 <= j < 3 ->
             Get p i j h' = Done (0%float, None) h').
Proof.
  split; [|split].
  - apply (New_spec (-1) 3 empty_heap). left. lia.
  - apply (New_spec 0 3 empty_heap); [lia | lia | unfold maxLen; lia].
  - apply (New_spec 2 3 empty_heap); [lia | lia | unfold maxLen; lia].
Defined.

(** ** C2: bounds *)

(** C2, as the claim states it, fails: indices within the dimensions need
    not fall within the storage. The first of the two 4294967296 x
    4294967296 matrices that two calls of [New(1<<32, 1<<32)] return,
    without an error, has storage of length 0; on it [Get(0, 0)] and [Set(0, 0, 1)], whose
    indices pass the bounds check, panic at [data[0]] instead of
    succeeding. *)
Lemma Get_Set_beyond_storage :
  (a ← New 4294967296 4294967296; b ← New 4294967296 4294967296; mret (a, b))
     empty_heap
  = Done ((Some 0%nat, None), (Some 1%nat, None)) heap_wrapped
  /\ reachable heap_wrapped
  /\ Dimentions 0%nat heap_wrapped = Done (4294967296, 4294967296) heap_wrapped
  /\ in_range (mkMatrix 4294967296 4294967296 0%nat) 0 0
  /\ Get 0%nat 0 0 heap_wrapped = Panic
  /\ Set_ 0%nat 0 0 1 heap_wrapped = Panic.
Proof.
  split; [reflexivity|]. split; [exact reachable_wrapped|].
  split; [reflexivity|]. split; [split; cbn; lia|]. split; reflexivity.
Qed.

(** C2, amended: on a matrix of shape [(r, c)] of the data model ([valid]:
    [r, c >= 0] and storage of [r * c] cells, at most [maxLen]), [Get(i, j)]
    and [Set(i, j, v)] succeed exactly when [0 <= i < r] and [0 <= j < c];
    with a negative index they fail with [NegativeIndex], with non-negative
    indices of which one is beyond its bound with [IndexOutOfRange]; a
    failing call returns its error whatever the storage is, without reading
    or writing it. *)
Theorem Get_Set_bounds (h : heap) (p : ptr) (m : Matrix) (d : list float)
    (i j : Z) (v : float) :
  valid h p m d ->
  ((exists w h', Get p i j h = Done (w, None) h') <-> in_range m i j)
  /\ ((exists h', Set_ p i j v h = Done None h') <-> in_range m i j)
  /\ (in_range m i j ->
      exists w, d !! offset m i j = Some w
        /\ Get p i j h = Done (w, None) h
        /\ Set_ p i j v h = Done None (with_data h m (<[offset m i j := v]> d)))
  /\ (i < 0 \/ j < 0 ->
      forall ms,
        Get p i j (mkHeap (objs h) ms)
        = Done (0%float, Some (NegativeIndex i j)) (mkHeap (objs h) ms)
        /\ Set_ p i j v (mkHeap (objs h) ms)
           = Done (Some (NegativeIndex i j)) (mkHeap (objs h) ms))
  /\ (0 <= i -> 0 <= j -> i >= rows m \/ j >= cols m ->
      forall ms,
        Get p i j (mkHeap (objs h) ms)
        = Done (0%float,
                Some (IndexOutOfRange i j (int_sub (rows m) 1) (int_sub (cols m) 1)))
            (mkHeap (objs h) ms)
        /\ Set_ p i j v (mkHeap (objs h) ms)
           = Done (Some (IndexOutOfRange i j (int_sub (rows m) 1) (int_sub (cols m) 1)))
               (mkHeap (objs h) ms)).
Proof.
  intros Hv.
  assert (Hin : in_range m i j ->
      exists w, d !! offset m i j = Some w
        /\ Get p i j h = Done (w, None) h
        /\ Set_ p i j v h = Done None (with_data h m (<[offset m i j := v]> d))).
  { intros Hij. destruct (Get_inside h p m d i j Hv Hij) as (w & Hw & Hget).
    exists w. repeat split; [exact Hw | exact Hget | now apply Set_inside]. }
  assert (Hneg : i < 0 \/ j < 0 ->
      forall ms,
        Get p i j (mkHeap (objs h) ms)
        = Done (0%float, Some (NegativeIndex i j)) (mkHeap (objs h) ms)
        /\ Set_ p i j v (mkHeap (objs h) ms)
           = Done (Some (NegativeIndex i j)) (mkHeap (objs h) ms)).
  { intros Hn ms. split; [apply Get_error | apply Set_error];
      now apply checkRange_negative. }
  assert (Hout : 0 <= i -> 0 <= j -> i >= rows m \/ j >= cols m ->
      forall ms,
        Get p i j (mkHeap (objs h) ms)
        = Done (0%float,
                Some (IndexOutOfRange i j (int_sub (rows m) 1) (int_sub (cols m) 1)))
            (mkHeap (objs h) ms)
        /\ Set_ p i j v (mkHeap (objs h) ms)
           = Done (Some (IndexOutOfRange i j (int_sub (rows m) 1) (int_sub (cols m) 1)))
               (mkHeap (objs h) ms)).
  { intros Hi Hj Ho ms. split; [apply Get_error | apply Set_error];
      (apply checkRange_beyond; [exact (proj1 (proj1 Hv)) | lia | lia | lia]). }
  assert (Hh : h = mkHeap (objs h) (mems h)) by now destruct h.
  assert (Hcases : in_range m i j \/ (i < 0 \/ j < 0)
                   \/ (0 <= i /\ 0 <= j /\ (i >= rows m \/ j >= cols m)))
    by (unfold in_range; lia).
  split; [split | split; [split | split; [exact Hin | split; [exact Hneg | exact Hout]]]].
  - intros (w & h' & Hget).
    destruct Hcases as [?|[Hn|(Hi & Hj & Ho)]]; [assumption| |].
    + destruct (Hneg Hn (mems h)) as [Hg _]. rewrite <- Hh in Hg. congruence.
    + destruct (Hout Hi Hj Ho (mems h)) as [Hg _]. rewrite <- Hh in Hg. congruence.
  - intros Hij. destruct (Hin Hij) as (w & _ & Hget & _). eauto.
  - intros (h' & Hset).
    destruct Hcases as [?|[Hn|(Hi & Hj & Ho)]]; [assumption| |].
    + destruct (Hneg Hn (mems h)) as [_ Hg]. rewrite <- Hh in Hg. congruence.
    + destruct (Hout Hi Hj Ho (mems h)) as [_ Hg]. rewrite <- Hh in Hg. congruence.
  - intros Hij. destruct (Hin Hij) as (w & _ & _ & Hset). eauto.
Qed.

Lemma Get_Set_bounds_witness :
  (exists w,
     [1; 2; 3; 4; 5; 6]%float !! offset (mkMatrix 2 3 0%nat) 1 2 = Some w
     /\ Get 0%nat 1 2 heap_23_32 = Done (w, None) heap_23_32
     /\ Set_ 0%nat 1 2 9 heap_23_32
        = Done None
            (with_data heap_23_32 (mkMatrix 2 3 0%nat)
               (<[offset (mkMatrix 2 3 0%nat) 1 2 := 9%float]>
                  [1; 2; 3; 4; 5; 6]%float)))
  /\ (forall ms,
        Get 0%nat (-1) 0 (mkHeap (objs heap_23_32) ms)
        = Done (0%float, Some (NegativeIndex (-1) 0)) (mkHeap (objs heap_23_32) ms)
        /\ Set_ 0%nat (-1) 0 9 (mkHeap (objs heap_23_32) ms)
           = Done (Some (NegativeIndex (-1) 0)) (mkHeap (objs heap_23_32) ms))
  /\ ((exists w h', Get 0%nat 2 0 heap_23_32 = Done (w, None) h')
        <-> in_range (mkMatrix 2 3 0%nat) 2 0).
Proof.
  split; [|split].
  - apply (Get_Set_bounds heap_23_32 0%nat _ _ 1 2 9%float valid_23).
    split; cbn; lia.
  - apply (Get_Set_bounds heap_23_32 0%nat _ _ (-1) 0 9%float valid_23).
    left. lia.
  - exact (proj1 (Get_Set_bounds heap_23_32 0%nat _ _ 2 0 9%float valid_23)).
Defined.

(** ** C3: elementwise sum *)

(** C3, as the claim states it, fails: equal dimensions do not make [Add]
    succeed. The two matrices that two calls of [New(1<<32, 1<<32)] return,
    without an error, have the same rows and the same columns, and storage
    of length 0; [Add] of the one to the other passes the check of the
    dimensions and panics at the first cell it reads. *)
Lemma Add_beyond_storage :
  (a ← New 4294967296 4294967296; b ← New 4294967296 4294967296; mret (a, b))
     empty_heap
  = Done ((Some 0%nat, None), (Some 1%nat, None)) heap_wrapped
  /\ reachable heap_wrapped
  /\ Dimentions 0%nat heap_wrapped = Done (4294967296, 4294967296) heap_wrapped
  /\ Dimentions 1%nat heap_wrapped = Done (4294967296, 4294967296) heap_wrapped
  /\ Add 0%nat 1%nat heap_wrapped = Panic.
Proof.
  split; [reflexivity|]. split; [exact reachable_wrapped|].
  split; [reflexivity|]. split; [reflexivity|].
  unfold Add.
  rewrite (bind_Done (checkEqualDimentions 0%nat 1%nat) _
             heap_wrapped heap_wrapped None eq_refl).
  rewrite (bind_Done _ _ _ _ _ (deref_Done heap_wrapped 0%nat _ eq_refl)).
  rewrite run_bind, for_Panic; [reflexivity | cbn; lia |].
  apply for_Panic; [cbn; lia | reflexivity].
Qed.

(** C3, amended: for matrices [m] and [x] of the data model ([valid]:
    non-negative dimensions and storage of [rows * cols] cells, at most
    [maxLen]), [m.Add(x)] fails, with [DimensionMismatch], exactly when the
    rows or the columns of [m] and [x] differ; otherwise it succeeds, after
    which [m] has its dimensions and every cell [(i, j)] of [m] is the old
    [m(i, j) + x(i, j)]; [x], a matrix other than the receiver in a heap where
    every matrix owns its storage, is unchanged. *)
Theorem Add_spec (h : heap) (p x : ptr) (m mx : Matrix) (d xd : list float) :
  valid h p m d -> valid h x mx xd ->
  ((exists e h', Add p x h = Done (Some e) h')
     <-> rows m <> rows mx \/ cols m <> cols mx)
  /\ (rows m <> rows mx \/ cols m <> cols mx ->
      Add p x h
      = Done (Some (DimensionMismatch (rows m) (cols m) (rows mx) (cols mx))) h)
  /\ (rows m = rows mx -> cols m = cols mx ->
      exists h',
        Add p x h = Done None h'
        /\ Dimentions p h' = Done (rows m, cols m) h'
        /\ (forall i j, in_range m i j ->
              exists a b,
                Get p i j h = Done (a, None) h
                /\ Get x i j h = Done (b, None) h
                /\ Get p i j h' = Done ((a + b)%float, None) h')
        /\ (owned h -> x <> p -> valid h' x mx xd)).
Proof.
  intros Hv Hvx.
  pose proof (proj1 (proj1 Hv)) as Ho. pose proof (proj1 (proj1 Hvx)) as Hox.
  split; [split|split].
  - intros (e & h' & Hadd).
    destruct (Z.eq_dec (rows m) (rows mx)) as [Hr|Hr]; [|now left].
    destruct (Z.eq_dec (cols m) (cols mx)) as [Hc|Hc]; [|now right].
    rewrite (Add_Done h p x m mx d xd Hv Hvx Hr Hc) in Hadd. discriminate.
  - intros Hne. eexists _, _. now apply (Add_mismatch h p x m mx).
  - now apply Add_mismatch.
  - intros Hr Hc. eexists. split; [now apply (Add_Done h p x m mx d xd)|].
    split; [now apply Dimentions_Done|]. split.
    + intros i j Hij.
      exact (binary_cells_Get h p x m mx d xd PrimFloat.add i j Hv Hvx Hr Hc Hij).
    + intros Hown Hne. destruct Hvx as [[_ Hmx] Hsx].
      split; [split|]; [exact Hox | | exact Hsx].
      rewrite mems_with_data_ne; [exact Hmx|].
      now apply (owned_distinct h x p mx m).
Qed.

Lemma Add_spec_witness :
  Add 0%nat 1%nat heap_23_32
  = Done (Some (DimensionMismatch 2 3 3 2)) heap_23_32
  /\ exists h',
       Add 0%nat 1%nat heap_AB = Done None h'
       /\ Dimentions 0%nat h' = Done (2, 2) h'
       /\ (exists a b,
             Get 0%nat 1 0 heap_AB = Done (a, None) heap_AB
             /\ Get 1%nat 1 0 heap_AB = Done (b, None) heap_AB
             /\ Get 0%nat 1 0 h' = Done ((a + b)%float, None) h')
       /\ valid h' 1%nat (mkMatrix 2 2 1%nat) [5; 6; 7; 8]%float.
Proof.
  split.
  - apply (Add_spec _ _ _ _ _ _ _ valid_23 valid_32). left. cbn. lia.
  - destruct (proj2 (proj2 (Add_spec _ _ _ _ _ _ _ valid_AB_0 valid_AB_1))
                eq_refl eq_refl) as (h' & Hadd & Hdim & Hcells & Hx).
    exists h'. split; [exact Hadd|]. split; [exact Hdim|]. split.
    + apply (Hcells 1 0). split; cbn; lia.
    + apply Hx; [exact owned_AB | lia].
Defined.

(** ** C4: transpose *)

(** C4, as the claim states it, fails: [T] does not always succeed. On
    the first of the two 4294967296 x 4294967296 matrices that two calls of
    [New(1<<32, 1<<32)] return, without an error, and whose storage has
    length 0, [T] makes the storage of the result, itself of length 0, and
    panics at the first cell it reads. *)
Lemma transpose_beyond_storage :
  (a ← New 4294967296 4294967296; b ← New 4294967296 4294967296; mret (a, b))
     empty_heap
  = Done ((Some 0%nat, None), (Some 1%nat, None)) heap_wrapped
  /\ reachable heap_wrapped
  /\ Dimentions 0%nat heap_wrapped = Done (4294967296, 4294967296) heap_wrapped
  /\ T 0%nat heap_wrapped = Panic.
Proof.
  split; [reflexivity|]. split; [exact reachable_wrapped|].
  split; [reflexivity|].
  unfold T.
  rewrite (bind_Done _ _ _ _ _ (deref_Done heap_wrapped 0%nat _ eq_refl)).
  cbn [rows cols].
  rewrite (bind_Done (make (int_mul 4294967296 4294967296)) _ heap_wrapped
             (mkHeap (objs heap_wrapped) [[]; []; []]) 2%nat eq_refl).
  rewrite (bind_Done (alloc (mkMatrix 4294967296 4294967296 2%nat)) _
             (mkHeap (objs heap_wrapped) [[]; []; []])
             (mkHeap (objs heap_wrapped ++ [mkMatrix 4294967296 4294967296 2%nat])
                     [[]; []; []]) 2%nat eq_refl).
  rewrite run_bind, for_Panic; [reflexivity | cbn; lia |].
  apply for_Panic; [cbn; lia | reflexivity].
Qed.

(** C4, amended: on a matrix [m] of shape [(r, c)] of the data model
    ([valid]: [r, c >= 0] and storage of [r * c] cells, at most [maxLen]),
    [T] succeeds and returns a new matrix of shape [(c, r)], of the data
    model too, whose cell [(j, i)] is the cell [(i, j)] of [m]; [m] has the
    same dimensions and elements after the call as before, and the result
    has storage of its own. *)
Theorem T_spec (h : heap) (p : ptr) (m : Matrix) (d : list float) :
  valid h p m d ->
  exists t h' mt dt,
    T p h = Done t h'
    /\ t <> p
    /\ valid h' t mt dt
    /\ data mt <> data m
    /\ Dimentions t h' = Done (cols m, rows m) h'
    /\ valid h' p m d
    /\ Dimentions p h' = Done (rows m, cols m) h'
    /\ (forall i j, in_range m i j ->
          exists a,
            Get p i j h = Done (a, None) h
            /\ Get t j i h' = Done (a, None) h'
            /\ Get p i j h' = Done (a, None) h')
    /\ (owned h -> owned h').
Proof.
  intros Hv. destruct (T_Done h p m d Hv) as (dt & HT & Hlen & Hcells).
  cbn zeta in *. set (mt := mkMatrix (cols m) (rows m) (length (mems h))) in *.
  destruct (repr_fresh h p m d (proj1 Hv)) as [Hp Hdata].
  assert (Hvt : valid (grow h mt dt) (length (objs h)) mt dt).
  { split; [now apply repr_grow_new|].
    destruct Hv as [_ (Hr & Hc & Hl & Hmax)].
    unfold shaped, mt. cbn. rewrite Hlen. repeat split; lia. }
  assert (Hvp : valid (grow h mt dt) p m d).
  { split; [apply repr_grow|]; apply Hv. }
  exists (length (objs h)), (grow h mt dt), mt, dt.
  split; [exact HT|]. split; [congruence|]. split; [exact Hvt|].
  split; [cbn; congruence|].
  split; [exact (Dimentions_Done _ _ _ (proj1 (proj1 Hvt)))|].
  split; [exact Hvp|].
  split; [exact (Dimentions_Done _ _ _ (proj1 (proj1 Hvp)))|].
  split.
  - intros i j Hij.
    destruct (Get_inside h p m d i j Hv Hij) as (a & Ha & Hget).
    destruct (Get_inside _ _ _ _ i j Hvp Hij) as (a' & Ha' & Hget').
    assert (Hji : in_range mt j i) by (unfold in_range, mt in *; cbn; tauto).
    destruct (Get_inside _ _ _ _ j i Hvt Hji) as (b & Hb & Hgett).
    rewrite (Hcells i j Hij) in Hb.
    exists a. split; [exact Hget|]. split; congruence.
  - intros Hown. now apply owned_grow.
Qed.

Lemma T_spec_witness :
  exists t h' mt dt,
    T 0%nat heap_23_32 = Done t h'
    /\ t <> 0%nat
    /\ valid h' t mt dt
    /\ Dimentions t h' = Done (3, 2) h'
    /\ valid h' 0%nat (mkMatrix 2 3 0%nat) [1; 2; 3; 4; 5; 6]%float
    /\ Dimentions 0%nat h' = Done (2, 3) h'
    /\ (exists a,
          Get 0%nat 0 2 heap_23_32 = Done (a, None) heap_23_32
          /\ Get t 2 0 h' = Done (a, None) h'
          /\ Get 0%nat 0 2 h' = Done (a, None) h')
    /\ owned h'.
Proof.
  destruct (T_spec _ _ _ _ valid_23)
    as (t & h' & mt & dt & HT & Hne & Hvt & _ & Hdim & Hvp & Hdimp & Hcells & Hown).
  exists t, h', mt, dt.
  split; [exact HT|]. split; [exact Hne|]. split; [exact Hvt|].
  split; [exact Hdim|]. split; [exact Hvp|]. split; [exact Hdimp|]. split.
  - apply (Hcells 0 2). split; cbn; lia.
  - apply Hown, owned_23_32.
Defined.

(** ** C5: dot product *)

Example dot_acc_AB : dot_acc 0 [1; 2; 3; 4]%float [5; 6; 7; 8]%float = 70%float.
Proof. reflexivity. Qed.

(** C5, as the claim states it, fails: equal shapes do not make [Dot]
    return. The two matrices that two calls of [New(1<<32, 1<<32)] return,
    without an error, have the same shape and storage of length 0; [Dot] of
    the one with the other passes the check of the dimensions and panics at
    the first cell it reads, returning no sum. *)
Lemma Dot_beyond_storage :
  (a ← New 4294967296 4294967296; b ← New 4294967296 4294967296; mret (a, b))
     empty_heap
  = Done ((Some 0%nat, None), (Some 1%nat, None)) heap_wrapped
  /\ reachable heap_wrapped
  /\ Dimentions 0%nat heap_wrapped = Done (4294967296, 4294967296) heap_wrapped
  /\ Dimentions 1%nat heap_wrapped = Done (4294967296, 4294967296) heap_wrapped
  /\ Dot 0%nat 1%nat heap_wrapped = Panic.
Proof.
  split; [reflexivity|]. split; [exact reachable_wrapped|].
  split; [reflexivity|]. split; [reflexivity|].
  unfold Dot.
  rewrite (bind_Done (checkEqualDimentions 0%nat 1%nat) _
             heap_wrapped heap_wrapped None eq_refl).
  rewrite (bind_Done _ _ _ _ _ (deref_Done heap_wrapped 0%nat _ eq_refl)).
  rewrite run_bind, for_acc_Panic; [reflexivity | cbn; lia |].
  apply for_acc_Panic; [cbn; lia | reflexivity].
Qed.

(** C5, amended: for matrices [m] and [x] of the data model ([valid]:
    non-negative dimensions and storage of [rows * cols] cells, at most
    [maxLen]), [m.Dot(x)] fails, with [DimensionMismatch], exactly when the
    shapes of [m] and [x] differ; otherwise it returns the sum, accumulated
    from [0] in row-major order, of the products [m(i, j) * x(i, j)] of all
    cells, and changes nothing. For [A = [[1,2],[3,4]]] and
    [B = [[5,6],[7,8]]] the result is [70]. *)
Theorem Dot_spec (h : heap) (p x : ptr) (m mx : Matrix) (d xd : list float) :
  valid h p m d -> valid h x mx xd ->
  ((exists r e h', Dot p x h = Done (r, Some e) h')
     <-> rows m <> rows mx \/ cols m <> cols mx)
  /\ (rows m <> rows mx \/ cols m <> cols mx ->
      Dot p x h
      = Done (0%float,
              Some (DimensionMismatch (rows m) (cols m) (rows mx) (cols mx))) h)
  /\ (rows m = rows mx -> cols m = cols mx ->
      Dot p x h = Done (dot_acc 0 d xd, None) h
      /\ length xd = length d
      /\ forall i j, in_range m i j ->
           exists a b,
             d !! offset m i j = Some a /\ xd !! offset m i j = Some b
             /\ Get p i j h = Done (a, None) h
             /\ Get x i j h = Done (b, None) h)
  /\ Dot 0%nat 1%nat heap_AB = Done (70%float, None) heap_AB.
Proof.
  intros Hv Hvx.
  pose proof (proj1 (proj1 Hv)) as Ho. pose proof (proj1 (proj1 Hvx)) as Hox.
  split; [split|split; [|split]].
  - intros (r & e & h' & Hdot).
    destruct (Z.eq_dec (rows m) (rows mx)) as [Hr|Hr]; [|now left].
    destruct (Z.eq_dec (cols m) (cols mx)) as [Hc|Hc]; [|now right].
    rewrite (Dot_Done h p x m mx d xd Hv Hvx Hr Hc) in Hdot. discriminate.
  - intros Hne. eexists _, _, _. now apply (Dot_mismatch h p x m mx).
  - now apply Dot_mismatch.
  - intros Hr Hc. split; [now apply (Dot_Done h p x m mx d xd)|]. split.
    + destruct Hv as [_ (_ & _ & Hl & _)], Hvx as [_ (_ & _ & Hlx & _)].
      rewrite <- Hr, <- Hc in Hlx. lia.
    + intros i j Hij.
      assert (Hijx : in_range mx i j) by (unfold in_range; now rewrite <- Hr, <- Hc).
      destruct (Get_inside h p m d i j Hv Hij) as (a & Ha & Hget).
      destruct (Get_inside h x mx xd i j Hvx Hijx) as (b & Hb & Hgetx).
      replace (offset mx i j) with (offset m i j) in Hb
        by (unfold offset; now rewrite Hc).
      eauto 10.
  - vm_compute. reflexivity.
Qed.

Lemma Dot_spec_witness :
  Dot 0%nat 1%nat heap_23_32
  = Done (0%float, Some (DimensionMismatch 2 3 3 2)) heap_23_32
  /\ Dot 0%nat 1%nat heap_AB
     = Done (dot_acc 0 [1; 2; 3; 4]%float [5; 6; 7; 8]%float, None) heap_AB.
Proof.
  split.
  - apply (Dot_spec _ _ _ _ _ _ _ valid_23 valid_32). left. cbn. lia.
  - apply (Dot_spec _ _ _ _ _ _ _ valid_AB_0 valid_AB_1); reflexivity.
Defined.

(** ** C6: the invariant [len(data) == rows * cols] *)

(** C6, as the claim states it, fails right after construction:
    [New(1<<32, 1<<32)] returns a matrix with [rows * cols = 2^64] and a
    storage of length [0] (the product wrapped around). *)
Lemma New_overflow_breaks_invariant :
  exists p h' m d,
    New 4294967296 4294967296 empty_heap = Done (Some p, None) h'
    /\ repr h' p m d
    /\ rows m * cols m = 18446744073709551616
    /\ Z.of_nat (length d) = 0.
Proof.
  exists 0%nat, (mkHeap [mkMatrix 4294967296 4294967296 0%nat] [[]]),
    (mkMatrix 4294967296 4294967296 0%nat), [].
  repeat split.
Qed.

(** C6, amended: the invariant (with non-negative dimensions) holds for
    the matrix that [New(r, c)] returns whenever [r * c] is a length that
    [make] accepts; in general the storage of the matrix that [New] returns
    has the product computed in [int] as its length. [Set], [Each], [Addn],
    [Scale], [Add] and [Sub], whenever they return, leave every struct, so
    its [rows] and [cols], and the length of every storage as they were, and
    on a matrix that satisfies the invariant they do return; on such a
    matrix [T] and [Clone] return a matrix that satisfies it too. *)
Theorem shape_invariant :
  (forall r c h, 0 <= r -> 0 <= c -> r * c <= maxLen ->
     exists p h' m d,
       New r c h = Done (Some p, None) h'
       /\ valid h' p m d /\ rows m = r /\ cols m = c
       /\ keeps_shape h h')
  /\ (forall r c h p e h',
        New r c h = Done (Some p, e) h' ->
        exists m d,
          repr h' p m d /\ rows m = r /\ cols m = c
          /\ Z.of_nat (length d) = int_mul r c)
  /\ (forall h h',
        (forall p i j v e, Set_ p i j v h = Done e h' -> framed h h')
        /\ (forall p f u, Each p f h = Done u h' -> framed h h')
        /\ (forall p n u, Addn p n h = Done u h' -> framed h h')
        /\ (forall p n u, Scale p n h = Done u h' -> framed h h')
        /\ (forall p x e, Add p x h = Done e h' -> framed h h')
        /\ (forall p x e, Sub p x h = Done e h' -> framed h h')
        /\ (framed h h' -> keeps_shape h h'))
  /\ (forall h p m d, valid h p m d ->
      (forall i j v, exists e h', Set_ p i j v h = Done e h')
      /\ (forall f, exists h', Each p f h = Done tt h')
      /\ (forall n, exists h', Addn p n h = Done tt h')
      /\ (forall n, exists h', Scale p n h = Done tt h')
      /\ (forall x mx xd, valid h x mx xd -> exists e h', Add p x h = Done e h')
      /\ (forall x mx xd, valid h x mx xd -> exists e h', Sub p x h = Done e h')
      /\ (exists t h' mt dt,
            T p h = Done t h' /\ valid h' t mt dt /\ keeps_shape h h')
      /\ (exists c h' mc dc,
            Clone p h = Done c h' /\ valid h' c mc dc /\ keeps_shape h h')).
Proof.
  split; [|split; [|split]].
  - intros r c h Hr Hc Hmax. eexists _, _, _, _.
    split; [now apply New_Done|]. split; [now apply New_valid|].
    split; [reflexivity|]. split; [reflexivity|]. apply keeps_shape_grow.
  - intros r c h p e h'. apply New_returns.
  - intros h h'.
    split; [intros p i j v e; apply Set_framed|].
    split; [intros p f u; apply Each_framed|].
    split; [intros p n u; apply Addn_framed|].
    split; [intros p n u; apply Scale_framed|].
    split; [intros p x e; apply Add_framed|].
    split; [intros p x e; apply Sub_framed|].
    apply framed_keeps_shape.
  - intros h p m d Hv.
    pose proof Hv as [Hrepr (Hr & Hc & Hl & Hmax)].
    split; [|split; [|split; [|split; [|split; [|split; [|split]]]]]].
    + intros i j v. destruct (Set_cases h p m d i j v Hv) as (e & d' & Hset & _).
      eauto.
    + intros f. eexists. exact (Each_Done h p m d f Hv).
    + intros n. eexists. exact (Addn_Done h p m d n Hv).
    + intros n. eexists. exact (Scale_Done h p m d n Hv).
    + intros x mx xd Hvx.
      destruct (decide (rows m = rows mx /\ cols m = cols mx)) as [[Hrx Hcx]|Hne].
      * eexists _, _. exact (Add_Done h p x m mx d xd Hv Hvx Hrx Hcx).
      * eexists _, _.
        apply (Add_mismatch h p x m mx); [apply Hv | apply Hvx | lia].
    + intros x mx xd Hvx.
      destruct (decide (rows m = rows mx /\ cols m = cols mx)) as [[Hrx Hcx]|Hne].
      * eexists _, _. exact (Sub_Done h p x m mx d xd Hv Hvx Hrx Hcx).
      * eexists _, _.
        apply (Sub_mismatch h p x m mx); [apply Hv | apply Hvx | lia].
    + destruct (T_Done h p m d Hv) as (dt & HT & Hlen & _). cbn zeta in HT.
      eexists _, _, _, dt. split; [exact HT|]. split; [|apply keeps_shape_grow].
      split; [now apply repr_grow_new|].
      unfold shaped. cbn. rewrite Hlen. repeat split; lia.
    + eexists _, _, _, d. split; [exact (Clone_Done h p m d Hv)|].
      split; [|apply keeps_shape_grow].
      split; [now apply repr_grow_new|].
      unfold shaped. cbn. repeat split; lia.
Qed.

Lemma shape_invariant_witness :
  (exists p h' m d,
     New 2 3 empty_heap = Done (Some p, None) h'
     /\ valid h' p m d /\ rows m = 2 /\ cols m = 3
     /\ keeps_shape empty_heap h')
  /\ (exists e h',
        Add 0%nat 1%nat heap_AB = Done e h'
        /\ framed heap_AB h' /\ keeps_shape heap_AB h')
  /\ (exists t h' mt dt,
        T 0%nat heap_23_32 = Done t h' /\ valid h' t mt dt
        /\ keeps_shape heap_23_32 h').
Proof.
  pose proof shape_invariant as (Hnew & _ & Hframe & Hrun).
  split; [|split].
  - apply (Hnew 2 3 empty_heap); [lia | lia | unfold maxLen; lia].
  - destruct (Hrun _ _ _ _ valid_AB_0) as (_ & _ & _ & _ & Hadd & _).
    destruct (Hadd _ _ _ valid_AB_1) as (e & h' & Hadd').
    destruct (Hframe heap_AB h') as (_ & _ & _ & _ & Hf & _ & Hk).
    exists e, h'. split; [exact Hadd'|].
    split; [|apply Hk]; exact (Hf _ _ _ Hadd').
  - destruct (Hrun _ _ _ _ valid_23) as (_ & _ & _ & _ & _ & _ & HT & _).
    exact HT.
Defined.

(** ** C7: failures do not mutate *)

(** C7: when [New], [Get], [Set], [Add], [Sub] or [Dot] returns an error,
    the heap after the call is the heap before it: no matrix, receiver
    or argument, has changed its dimensions or any of its elements. *)
Theorem failure_no_mutation (h h' : heap) (e : error) :
  (forall r c q, New r c h = Done (q, Some e) h' -> h' = h)
  /\ (forall p i j w, Get p i j h = Done (w, Some e) h' -> h' = h)
  /\ (forall p i j v, Set_ p i j v h = Done (Some e) h' -> h' = h)
  /\ (forall p x, Add p x h = Done (Some e) h' -> h' = h)
  /\ (forall p x, Sub p x h = Done (Some e) h' -> h' = h)
  /\ (forall p x w, Dot p x h = Done (w, Some e) h' -> h' = h).
Proof.
  split; [|split; [|split; [|split; [|split]]]].
  - intros r c q Hnew.
    destruct (Z.lt_ge_cases r 0) as [?|Hr];
      [rewrite New_error in Hnew by lia; congruence|].
    destruct (Z.lt_ge_cases c 0) as [?|Hc];
      [rewrite New_error in Hnew by lia; congruence|].
    rewrite New_no_error in Hnew by assumption.
    destruct (_ || _); discriminate.
  - intros p i j w. unfold Get. rewrite run_bind.
    destruct (checkRange p i j h) as [[err|] h1|] eqn:Hc; [| |discriminate].
    + apply checkRange_pure in Hc. unfold mret, M_ret. intros; simplify_eq. reflexivity.
    + intros H. now apply then_pair_None in H.
  - intros p i j v. unfold Set_. rewrite run_bind.
    destruct (checkRange p i j h) as [[err|] h1|] eqn:Hc; [| |discriminate].
    + apply checkRange_pure in Hc. unfold mret, M_ret. intros; simplify_eq. reflexivity.
    + intros H. now apply then_None in H.
  - intros p x. unfold Add. rewrite run_bind.
    destruct (checkEqualDimentions p x h) as [[err|] h1|] eqn:Hc; [| |discriminate].
    + apply checkEqualDimentions_pure in Hc. unfold mret, M_ret.
      intros; simplify_eq. reflexivity.
    + rewrite run_bind. destruct (deref p h1); [|discriminate].
      intros H. now apply then_None in H.
  - intros p x. unfold Sub. rewrite run_bind.
    destruct (checkEqualDimentions p x h) as [[err|] h1|] eqn:Hc; [| |discriminate].
    + apply checkEqualDimentions_pure in Hc. unfold mret, M_ret.
      intros; simplify_eq. reflexivity.
    + rewrite run_bind. destruct (deref p h1); [|discriminate].
      intros H. now apply then_None in H.
  - intros p x w. unfold Dot. rewrite run_bind.
    destruct (checkEqualDimentions p x h) as [[err|] h1|] eqn:Hc; [| |discriminate].
    + apply checkEqualDimentions_pure in Hc. unfold mret, M_ret.
      intros; simplify_eq. reflexivity.
    + rewrite run_bind. destruct (deref p h1); [|discriminate].
      intros H. now apply then_pair_None in H.
Qed.

Lemma failure_no_mutation_witness :
  (exists q e h', New (-1) 3 heap_AB = Done (q, Some e) h' /\ h' = heap_AB)
  /\ (exists w e h', Get 0%nat 2 0 heap_AB = Done (w, Some e) h' /\ h' = heap_AB)
  /\ (exists e h', Set_ 0%nat 0 (-1) 9 heap_AB = Done (Some e) h' /\ h' = heap_AB)
  /\ (exists e h', Add 0%nat 1%nat heap_23_32 = Done (Some e) h' /\ h' = heap_23_32)
  /\ (exists e h', Sub 0%nat 1%nat heap_23_32 = Done (Some e) h' /\ h' = heap_23_32)
  /\ (exists w e h', Dot 0%nat 1%nat heap_23_32 = Done (w, Some e) h'
                     /\ h' = heap_23_32).
Proof.
  split; [|split; [|split; [|split; [|split]]]].
  - eexists _, _, _. split; [reflexivity|].
    eapply (proj1 (failure_no_mutation heap_AB _ _) (-1) 3 None); reflexivity.
  - eexists _, _, _. split; [reflexivity|].
    eapply (proj1 (proj2 (failure_no_mutation heap_AB _ _)) 0%nat 2 0 0%float); reflexivity.
  - eexists _, _. split; [reflexivity|].
    eapply (proj1 (proj2 (proj2 (failure_no_mutation heap_AB _ _)))
                 0%nat 0 (-1) 9%float); reflexivity.
  - eexists _, _. split; [reflexivity|].
    eapply (proj1 (proj2 (proj2 (proj2 (failure_no_mutation heap_23_32 _ _))))
                 0%nat 1%nat); reflexivity.
  - eexists _, _. split; [reflexivity|].
    eapply (proj1 (proj2 (proj2 (proj2 (proj2
                 (failure_no_mutation heap_23_32 _ _))))) 0%nat 1%nat); reflexivity.
  - eexists _, _, _. split; [reflexivity|].
    eapply (proj2 (proj2 (proj2 (proj2 (proj2
                 (failure_no_mutation heap_23_32 _ _))))) 0%nat 1%nat 0%float); reflexivity.
Defined.

(** ** C8: clone *)



Example Clone_then_Set :
  (c ← Clone 0%nat; Set_ 0%nat 0 0 9;; Set_ c 1 1 7;; mret c) heap_AB
  = Done 2%nat
      (mkHeap [mkMatrix 2 2 0%nat; mkMatrix 2 2 1%nat; mkMatrix 2 2 2%nat]
              [[9; 2; 3; 4]%float; [5; 6; 7; 8]%float; [1; 2; 3; 7]%float]).
Proof. vm_compute. reflexivity. Qed.

(** ** C9: identities of the elementwise operations *)

(** C9, as the claim states it, fails. [Addn(0)] turns a cell holding
    [-0.0] into [+0.0], another [float64] (its inverse is [+Inf], not
    [-Inf]). [Add] then [Sub] does not bring back the elements: with
    [m = [[2^1023]]] and [x = [[2^1023]]] the sum overflows and [m] ends
    as [[+Inf]], which no tolerance relates to [2^1023]; with [m = [[1]]]
    and [x = [[2^53]]] the sum is rounded and [m] ends as [[0]]; and with
    [x] the matrix [m = A] itself, [m] ends as the zero matrix. *)
Lemma identities_broken_by_rounding :
  (Get 0%nat 0 0 heap_negzero = Done (neg_zero, None) heap_negzero
   /\ (Addn 0%nat 0;; Get 0%nat 0 0) heap_negzero
      = Done (0%float, None) (mkHeap [mkMatrix 1 1 0%nat] [[0%float]])
   /\ 0%float <> neg_zero
   /\ (1 / 0)%float = infinity /\ (1 / neg_zero)%float = neg_infinity)
  /\ (Get 0%nat 0 0 heap_huge = Done (0x1p1023%float, None) heap_huge
      /\ (Add 0%nat 1%nat;; Sub 0%nat 1%nat;; Get 0%nat 0 0) heap_huge
         = Done (infinity, None)
             (mkHeap [mkMatrix 1 1 0%nat; mkMatrix 1 1 1%nat]
                     [[infinity]; [0x1p1023%float]])
      /\ infinity <> 0x1p1023%float)
  /\ (Get 0%nat 0 0 heap_round = Done (1%float, None) heap_round
      /\ (Add 0%nat 1%nat;; Sub 0%nat 1%nat;; Get 0%nat 0 0) heap_round
         = Done (0%float, None)
             (mkHeap [mkMatrix 1 1 0%nat; mkMatrix 1 1 1%nat]
                     [[0%float]; [0x1p53%float]])
      /\ 0%float <> 1%float)
  /\ (Get 0%nat 0 0 heap_AB = Done (1%float, None) heap_AB
      /\ (Add 0%nat 0%nat;; Sub 0%nat 0%nat;; Get 0%nat 0 0) heap_AB
         = Done (0%float, None)
             (mkHeap [mkMatrix 2 2 0%nat; mkMatrix 2 2 1%nat]
                     [[0; 0; 0; 0]%float; [5; 6; 7; 8]%float])).
Proof.
  split; [|split; [|split]].
  - split; [reflexivity|]. split; [vm_compute; reflexivity|].
    split; [apply float_distinct; vm_compute; discriminate|].
    split; reflexivity.
  - split; [reflexivity|]. split; [vm_compute; reflexivity|].
    apply float_distinct; vm_compute; discriminate.
  - split; [reflexivity|]. split; [vm_compute; reflexivity|].
    apply float_distinct; vm_compute; discriminate.
  - split; [reflexivity | vm_compute; reflexivity].
Qed.

(** C9, amended: on a matrix [m] of the data model ([valid]: non-negative
    dimensions and storage of [rows * cols] cells, at most [maxLen]),
    [Scale(1)] leaves every element, indeed the whole heap, unchanged, and
    [Addn(0)] replaces every element [a] by [a + 0], which is [a] unless [a]
    is [-0.0], and then [+0.0]. For such an [m] and an [x] of the data model
    too and of the same shape, [x] another matrix than [m] in a heap where
    every matrix owns its storage, [m.Add(x)] followed by [m.Sub(x)] succeed
    and leave in every cell the [float64] value
    [(m(i, j) + x(i, j)) - x(i, j)]. *)
Theorem float_identities (h : heap) (p : ptr) (m : Matrix) (d : list float) :
  valid h p m d ->
  Scale p 1 h = Done tt h
  /\ (exists h',
        Addn p 0 h = Done tt h'
        /\ Dimentions p h' = Done (rows m, cols m) h'
        /\ forall i j, in_range m i j ->
             exists a,
               Get p i j h = Done (a, None) h
               /\ Get p i j h' = Done ((a + 0)%float, None) h'
               /\ (a <> neg_zero -> (a + 0)%float = a)
               /\ (a = neg_zero -> (a + 0)%float = 0%float))
  /\ (forall x mx xd,
        valid h x mx xd -> owned h -> x <> p ->
        rows m = rows mx -> cols m = cols mx ->
        exists h1 h2,
          Add p x h = Done None h1
          /\ Sub p x h1 = Done None h2
          /\ forall i j, in_range m i j ->
               exists a b,
                 Get p i j h = Done (a, None) h
                 /\ Get x i j h = Done (b, None) h
                 /\ Get p i j h2 = Done ((a + b - b)%float, None) h2).
Proof.
  intros Hv. split; [|split].
  - rewrite (Scale_Done h p m d 1 Hv).
    rewrite fmap_id_ext by (intros a _; apply mul_one_r).
    f_equal. apply with_data_id, Hv.
  - eexists. split; [exact (Addn_Done h p m d 0 Hv)|].
    split; [apply Dimentions_Done, Hv|].
    intros i j Hij.
    destruct (Get_inside h p m d i j Hv Hij) as (a & Ha & Hget).
    exists a. split; [exact Hget|]. split; [|split].
    + apply (Get_with_data h p m d); [exact Hv | apply length_fmap | exact Hij |].
      now rewrite list_lookup_fmap, Ha.
    + apply add_zero_r.
    + intros ->. apply add_zero_neg_zero.
  - intros x mx xd Hvx Hown Hne Hr Hc.
    assert (Hdata : data mx <> data m)
      by (apply (owned_distinct h x p mx m); [exact Hown | apply Hvx | apply Hv | exact Hne]).
    assert (Hlen : length (zip_with PrimFloat.add d xd) = length d).
    { apply (zip_with_length_same _ m mx); [apply Hv | apply Hvx | exact Hr | exact Hc]. }
    set (d1 := zip_with PrimFloat.add d xd) in *.
    assert (Hv1 : valid (with_data h m d1) p m d1)
      by exact (valid_with_data h p m d d1 Hv Hlen).
    assert (Hvx1 : valid (with_data h m d1) x mx xd).
    { destruct Hvx as [[Hox Hmx] Hsx]. split; [split|]; [exact Hox | | exact Hsx].
      now rewrite mems_with_data_ne. }
    eexists _, _.
    split; [exact (Add_Done h p x m mx d xd Hv Hvx Hr Hc)|].
    split; [exact (Sub_Done _ p x m mx d1 xd Hv1 Hvx1 Hr Hc)|].
    intros i j Hij. rewrite with_data_twice.
    assert (Hijx : in_range mx i j) by (unfold in_range; now rewrite <- Hr, <- Hc).
    destruct (Get_inside h p m d i j Hv Hij) as (a & Ha & Hget).
    destruct (Get_inside h x mx xd i j Hvx Hijx) as (b & Hb & Hgetx).
    replace (offset mx i j) with (offset m i j) in Hb
      by (unfold offset; now rewrite Hc).
    exists a, b. split; [exact Hget|]. split; [exact Hgetx|].
    apply (Get_with_data h p m d); [exact Hv | | exact Hij |].
    + rewrite length_zip_with, Hlen.
      destruct Hv as [_ (_ & _ & Hl & _)], Hvx as [_ (_ & _ & Hlx & _)].
      rewrite <- Hr, <- Hc in Hlx. lia.
    + unfold d1. rewrite !lookup_zip_with, Ha, Hb. reflexivity.
Qed.

Lemma float_identities_witness :
  Scale 0%nat 1 heap_huge = Done tt heap_huge
  /\ (exists h',
        Addn 0%nat 0 heap_negzero = Done tt h'
        /\ Dimentions 0%nat h' = Done (1, 1) h'
        /\ exists a,
             Get 0%nat 0 0 heap_negzero = Done (a, None) heap_negzero
             /\ Get 0%nat 0 0 h' = Done ((a + 0)%float, None) h')
  /\ (exists h1 h2,
        Add 0%nat 1%nat heap_huge = Done None h1
        /\ Sub 0%nat 1%nat h1 = Done None h2
        /\ exists a b,
             Get 0%nat 0 0 heap_huge = Done (a, None) heap_huge
             /\ Get 1%nat 0 0 heap_huge = Done (b, None) heap_huge
             /\ Get 0%nat 0 0 h2 = Done ((a + b - b)%float, None) h2).
Proof.
  split; [|split].
  - exact (proj1 (float_identities _ _ _ _ valid_huge_0)).
  - destruct (proj1 (proj2 (float_identities _ _ _ _ valid_negzero)))
      as (h' & Haddn & Hdim & Hcells).
    exists h'. split; [exact Haddn|]. split; [exact Hdim|].
    destruct (Hcells 0 0) as (a & Hget & Hget' & _); [split; cbn; lia|]. eauto.
  - destruct (proj2 (proj2 (float_identities _ _ _ _ valid_huge_0))
                1%nat _ _ valid_huge_1 owned_huge)
      as (h1 & h2 & Hadd & Hsub & Hcells); [lia | reflexivity | reflexivity |].
    exists h1, h2. split; [exact Hadd|]. split; [exact Hsub|].
    apply (Hcells 0 0). split; cbn; lia.
Defined.

(** ** C10: a matrix added to itself *)

(** C10, as the claim states it, fails: [m.Add(m)] does not succeed on
    every matrix. On the first of the two 4294967296 x 4294967296 matrices
    that two calls of [New(1<<32, 1<<32)] return, without an error, and
    whose storage has length 0, [m.Add(m)] passes the check of the dimensions and panics
    at the first cell it reads. *)
Lemma doubling_beyond_storage :
  (a ← New 4294967296 4294967296; b ← New 4294967296 4294967296; mret (a, b))
     empty_heap
  = Done ((Some 0%nat, None), (Some 1%nat, None)) heap_wrapped
  /\ reachable heap_wrapped
  /\ Dimentions 0%nat heap_wrapped = Done (4294967296, 4294967296) heap_wrapped
  /\ Add 0%nat 0%nat heap_wrapped = Panic.
Proof.
  split; [reflexivity|]. split; [exact reachable_wrapped|].
  split; [reflexivity|].
  unfold Add.
  rewrite (bind_Done (checkEqualDimentions 0%nat 0%nat) _
             heap_wrapped heap_wrapped None eq_refl).
  rewrite (bind_Done _ _ _ _ _ (deref_Done heap_wrapped 0%nat _ eq_refl)).
  rewrite run_bind, for_Panic; [reflexivity | cbn; lia |].
  apply for_Panic; [cbn; lia | reflexivity].
Qed.

(** C10, amended: on a matrix [m] of the data model ([valid]: non-negative
    dimensions and storage of [rows * cols] cells, at most [maxLen]),
    [m.Add(m)] succeeds, keeps the dimensions, and leaves in every cell the
    sum of its previous value [a] with itself, which in [float64] is exactly
    twice that value, [2 * a]: the cell is read, as receiver and as
    argument, before it is written, and no other iteration writes it. *)
Theorem Add_self (h : heap) (p : ptr) (m : Matrix) (d : list float) :
  valid h p m d ->
  exists h',
    Add p p h = Done None h'
    /\ Dimentions p h' = Done (rows m, cols m) h'
    /\ forall i j, in_range m i j ->
         exists a,
           Get p i j h = Done (a, None) h
           /\ Get p i j h' = Done ((2 * a)%float, None) h'
           /\ (2 * a)%float = (a + a)%float.
Proof.
  intros Hv. eexists.
  split; [exact (Add_Done h p p m m d d Hv Hv eq_refl eq_refl)|].
  split; [apply Dimentions_Done, Hv|].
  intros i j Hij.
  destruct (binary_cells_Get h p p m m d d PrimFloat.add i j Hv Hv eq_refl eq_refl Hij)
    as (a & b & Ha & Hb & Hsum).
  assert (b = a) as -> by congruence.
  exists a. rewrite <- add_self_double. auto.
Qed.

Lemma Add_self_witness :
  exists h',
    Add 0%nat 0%nat heap_AB = Done None h'
    /\ Dimentions 0%nat h' = Done (2, 2) h'
    /\ exists a,
         Get 0%nat 1 1 heap_AB = Done (a, None) heap_AB
         /\ Get 0%nat 1 1 h' = Done ((2 * a)%float, None) h'
         /\ (2 * a)%float = (a + a)%float.
Proof.
  destruct (Add_self _ _ _ _ valid_AB_0) as (h' & Hadd & Hdim & Hcells).
  exists h'. split; [exact Hadd|]. split; [exact Hdim|].
  apply (Hcells 1 1). split; cbn; lia.
Defined.

Example Add_AB_to_itself :
  Add 0%nat 0%nat heap_AB
  = Done None (mkHeap [mkMatrix 2 2 0%nat; mkMatrix 2 2 1%nat]
                      [[2; 4; 6; 8]%float; [5; 6; 7; 8]%float]).
Proof. vm_compute. reflexivity. Qed.

(** * Further properties of the specification *)

(** X1, round trip: on a matrix of the data model, [Set(i, j, v)] with
    valid indices followed by [Get(i, j)] returns [v], and every other cell
    reads as before. *)
Theorem Set_then_Get (h : heap) (p : ptr) (m : Matrix) (d : list float)
    (i j : Z) (v : float) :
  valid h p m d -> in_range m i j ->
  exists h',
    Set_ p i j v h = Done None h'
    /\ Get p i j h' = Done (v, None) h'
    /\ forall i' j', in_range m i' j' -> (i', j') <> (i, j) ->
         exists a, Get p i' j' h = Done (a, None) h
                /\ Get p i' j' h' = Done (a, None) h'.
Proof.
  intros Hv Hij.
  destruct (offset_bounds m d i j (proj2 Hv) Hij) as [Hb _].
  assert (Hlen : length (<[offset m i j := v]> d) = length d) by apply length_insert.
  eexists. split; [exact (Set_inside h p m d i j v Hv Hij)|]. split.
  - apply (Get_with_data h p m d); [exact Hv | exact Hlen | exact Hij |].
    apply list_lookup_insert_eq. unfold offset. lia.
  - intros i' j' Hij' Hne.
    destruct (Get_inside h p m d i' j' Hv Hij') as (a & Ha & Hget).
    exists a. split; [exact Hget|].
    apply (Get_with_data h p m d); [exact Hv | exact Hlen | exact Hij' |].
    rewrite list_lookup_insert_ne; [exact Ha|].
    intros Heq. apply Hne.
    destruct (offset_inj m i j i' j' Hij Hij' Heq) as [-> ->]. reflexivity.
Qed.

Lemma Set_then_Get_witness :
  exists h',
    Set_ 0%nat 1 2 9 heap_23_32 = Done None h'
    /\ Get 0%nat 1 2 h' = Done (9%float, None) h'
    /\ exists a, Get 0%nat 0 1 heap_23_32 = Done (a, None) heap_23_32
              /\ Get 0%nat 0 1 h' = Done (a, None) h'.
Proof.
  destruct (Set_then_Get heap_23_32 0%nat _ _ 1 2 9%float valid_23)
    as (h' & Hset & Hget & Hothers); [split; cbn; lia|].
  exists h'. split; [exact Hset|]. split; [exact Hget|].
  apply (Hothers 0 1); [split; cbn; lia | intros [=]].
Defined.

(** X2, transpose involution: [m.T().T()] succeeds and has the dimensions
    and the elements of [m]. *)
Theorem T_involution (h : heap) (p : ptr) (m : Matrix) (d : list float) :
  valid h p m d ->
  exists t h1 u h2,
    T p h = Done t h1
    /\ T t h1 = Done u h2
    /\ u <> p
    /\ Dimentions u h2 = Done (rows m, cols m) h2
    /\ forall i j, in_range m i j ->
         exists a, Get p i j h = Done (a, None) h
                /\ Get u i j h2 = Done (a, None) h2.
Proof.
  intros Hv. destruct (T_Done h p m d Hv) as (dt & HT & Hlen & Hcells).
  cbn zeta in *. set (mt := mkMatrix (cols m) (rows m) (length (mems h))) in *.
  set (h1 := grow h mt dt) in *.
  assert (Hvt : valid h1 (length (objs h)) mt dt).
  { split; [now apply repr_grow_new|].
    destruct Hv as [_ (Hr & Hc & Hl & Hmax)].
    unfold shaped, mt. cbn. rewrite Hlen. repeat split; lia. }
  destruct (T_Done h1 _ mt dt Hvt) as (du & HT2 & Hlen2 & Hcells2).
  cbn zeta in *. set (mu := mkMatrix (cols mt) (rows mt) (length (mems h1))) in *.
  assert (Hvu : valid (grow h1 mu du) (length (objs h1)) mu du).
  { split; [now apply repr_grow_new|].
    destruct Hv as [_ (Hr & Hc & Hl & Hmax)].
    unfold shaped, mu, mt. cbn. rewrite Hlen2, Hlen. repeat split; lia. }
  exists (length (objs h)), h1, (length (objs h1)), (grow h1 mu du).
  split; [exact HT|]. split; [exact HT2|]. split.
  - destruct (repr_fresh h p m d (proj1 Hv)) as [Hp _].
    unfold h1, grow. cbn. rewrite length_app. cbn.
    destruct Hv as [[Ho _] _]. apply lookup_lt_Some in Ho. lia.
  - split; [exact (Dimentions_Done _ _ _ (proj1 (proj1 Hvu)))|].
    intros i j Hij.
    destruct (Get_inside h p m d i j Hv Hij) as (a & Ha & Hget).
    exists a. split; [exact Hget|].
    assert (Hiju : in_range mu i j) by exact Hij.
    destruct (Get_inside _ _ _ _ i j Hvu Hiju) as (b & Hb & Hgetu).
    assert (Hji : in_range mt j i) by (unfold in_range, mt in *; cbn; tauto).
    rewrite (Hcells2 j i Hji), (Hcells i j Hij) in Hb. congruence.
Qed.

Lemma T_involution_witness :
  exists t h1 u h2,
    T 0%nat heap_23_32 = Done t h1
    /\ T t h1 = Done u h2
    /\ u <> 0%nat
    /\ Dimentions u h2 = Done (2, 3) h2
    /\ exists a, Get 0%nat 1 2 heap_23_32 = Done (a, None) heap_23_32
              /\ Get u 1 2 h2 = Done (a, None) h2.
Proof.
  destruct (T_involution _ _ _ _ valid_23)
    as (t & h1 & u & h2 & HT & HT2 & Hne & Hdim & Hcells).
  exists t, h1, u, h2.
  split; [exact HT|]. split; [exact HT2|]. split; [exact Hne|].
  split; [exact Hdim|]. apply (Hcells 1 2). split; cbn; lia.
Defined.

(** X3, ownership: in every heap that calls of the package build from
    nothing, two distinct matrices never point to the same storage. *)
Theorem no_shared_storage (h : heap) (p q : ptr) (m mq : Matrix) :
  reachable h ->
  objs h !! p = Some m -> objs h !! q = Some mq -> p <> q ->
  data m <> data mq.
Proof.
  intros Hreach. apply owned_distinct. now apply reachable_owned.
Qed.

Lemma no_shared_storage_witness :
  data (mkMatrix 2 2 0%nat) <> data (mkMatrix 2 2 1%nat).
Proof.
  apply (no_shared_storage heap_AB 0%nat 1%nat _ _ reachable_AB);
    [reflexivity | reflexivity | lia].
Defined.

(** X4, elementwise difference: on matrices [m] and [x] of the data
    model, [m.Sub(x)] fails, with [DimensionMismatch], exactly when the rows
    or the columns of [m] and [x] differ; otherwise it succeeds, every cell
    [(i, j)] of [m] becomes the old [m(i, j) - x(i, j)], and [x], if it is
    another matrix than [m] in a heap where every matrix owns its storage,
    is unchanged. *)
Theorem Sub_spec (h : heap) (p x : ptr) (m mx : Matrix) (d xd : list float) :
  valid h p m d -> valid h x mx xd ->
  ((exists e h', Sub p x h = Done (Some e) h')
     <-> rows m <> rows mx \/ cols m <> cols mx)
  /\ (rows m <> rows mx \/ cols m <> cols mx ->
      Sub p x h
      = Done (Some (DimensionMismatch (rows m) (cols m) (rows mx) (cols mx))) h)
  /\ (rows m = rows mx -> cols m = cols mx ->
      exists h',
        Sub p x h = Done None h'
        /\ Dimentions p h' = Done (rows m, cols m) h'
        /\ (forall i j, in_range m i j ->
              exists a b,
                Get p i j h = Done (a, None) h
                /\ Get x i j h = Done (b, None) h
                /\ Get p i j h' = Done ((a - b)%float, None) h')
        /\ (owned h -> x <> p -> valid h' x mx xd)).
Proof.
  intros Hv Hvx.
  pose proof (proj1 (proj1 Hv)) as Ho. pose proof (proj1 (proj1 Hvx)) as Hox.
  split; [split|split].
  - intros (e & h' & Hsub).
    destruct (Z.eq_dec (rows m) (rows mx)) as [Hr|Hr]; [|now left].
    destruct (Z.eq_dec (cols m) (cols mx)) as [Hc|Hc]; [|now right].
    rewrite (Sub_Done h p x m mx d xd Hv Hvx Hr Hc) in Hsub. discriminate.
  - intros Hne. eexists _, _. now apply (Sub_mismatch h p x m mx).
  - now apply Sub_mismatch.
  - intros Hr Hc. eexists. split; [now apply (Sub_Done h p x m mx d xd)|].
    split; [now apply Dimentions_Done|]. split.
    + intros i j Hij.
      exact (binary_cells_Get h p x m mx d xd PrimFloat.sub i j Hv Hvx Hr Hc Hij).
    + intros Hown Hne. destruct Hvx as [[_ Hmx] Hsx].
      split; [split|]; [exact Hox | | exact Hsx].
      rewrite mems_with_data_ne; [exact Hmx|].
      now apply (owned_distinct h x p mx m).
Qed.

Lemma Sub_spec_witness :
  Sub 0%nat 1%nat heap_23_32
  = Done (Some (DimensionMismatch 2 3 3 2)) heap_23_32
  /\ exists h',
       Sub 0%nat 1%nat heap_AB = Done None h'
       /\ Dimentions 0%nat h' = Done (2, 2) h'
       /\ (exists a b,
             Get 0%nat 1 0 heap_AB = Done (a, None) heap_AB
             /\ Get 1%nat 1 0 heap_AB = Done (b, None) heap_AB
             /\ Get 0%nat 1 0 h' = Done ((a - b)%float, None) h')
       /\ valid h' 1%nat (mkMatrix 2 2 1%nat) [5; 6; 7; 8]%float.
Proof.
  split.
  - apply (Sub_spec _ _ _ _ _ _ _ valid_23 valid_32). left. cbn. lia.
  - destruct (proj2 (proj2 (Sub_spec _ _ _ _ _ _ _ valid_AB_0 valid_AB_1))
                eq_refl eq_refl) as (h' & Hsub & Hdim & Hcells & Hx).
    exists h'. split; [exact Hsub|]. split; [exact Hdim|]. split.
    + apply (Hcells 1 0). split; cbn; lia.
    + apply Hx; [exact owned_AB | lia].
Defined.

(** X5, bulk transform: [Each(f)] always succeeds on a matrix of the data
    model and replaces every cell [(i, j)], of value [a], by [f(i, j, a)];
    [Addn(n)] replaces it by [a + n] and [Scale(n)] by [a * n]. The dimensions
    stay. *)
Theorem Each_spec (h : heap) (p : ptr) (m : Matrix) (d : list float) :
  valid h p m d ->
  (forall f, exists h',
     Each p f h = Done tt h'
     /\ Dimentions p h' = Done (rows m, cols m) h'
     /\ forall i j, in_range m i j ->
          exists a, Get p i j h = Done (a, None) h
                 /\ Get p i j h' = Done (f i j a, None) h')
  /\ (forall n, exists h',
        Addn p n h = Done tt h'
        /\ Dimentions p h' = Done (rows m, cols m) h'
        /\ forall i j, in_range m i j ->
             exists a, Get p i j h = Done (a, None) h
                    /\ Get p i j h' = Done ((a + n)%float, None) h')
  /\ (forall n, exists h',
        Scale p n h = Done tt h'
        /\ Dimentions p h' = Done (rows m, cols m) h'
        /\ forall i j, in_range m i j ->
             exists a, Get p i j h = Done (a, None) h
                    /\ Get p i j h' = Done ((a * n)%float, None) h').
Proof.
  intros Hv. split; [|split].
  - intros f. eexists. split; [exact (Each_Done h p m d f Hv)|].
    split; [apply Dimentions_Done, Hv|].
    intros i j Hij.
    destruct (Get_inside h p m d i j Hv Hij) as (a & Ha & Hget).
    exists a. split; [exact Hget|].
    apply (Get_with_data h p m d); [exact Hv | apply length_imap | exact Hij |].
    unfold cellwise. rewrite list_lookup_imap, Ha. cbn.
    destruct (offset_div_mod m i j Hij) as [-> ->]. reflexivity.
  - intros n. eexists. split; [exact (Addn_Done h p m d n Hv)|].
    split; [apply Dimentions_Done, Hv|].
    intros i j Hij.
    destruct (Get_inside h p m d i j Hv Hij) as (a & Ha & Hget).
    exists a. split; [exact Hget|].
    apply (Get_with_data h p m d); [exact Hv | apply length_fmap | exact Hij |].
    now rewrite list_lookup_fmap, Ha.
  - intros n. eexists. split; [exact (Scale_Done h p m d n Hv)|].
    split; [apply Dimentions_Done, Hv|].
    intros i j Hij.
    destruct (Get_inside h p m d i j Hv Hij) as (a & Ha & Hget).
    exists a. split; [exact Hget|].
    apply (Get_with_data h p m d); [exact Hv | apply length_fmap | exact Hij |].
    now rewrite list_lookup_fmap, Ha.
Qed.

Lemma Each_spec_witness :
  exists h',
    Scale 0%nat 2 heap_AB = Done tt h'
    /\ Dimentions 0%nat h' = Done (2, 2) h'
    /\ exists a, Get 0%nat 1 1 heap_AB = Done (a, None) heap_AB
              /\ Get 0%nat 1 1 h' = Done ((a * 2)%float, None) h'.
Proof.
  destruct (proj2 (proj2 (Each_spec _ _ _ _ valid_AB_0)) 2%float)
    as (h' & Hscale & Hdim & Hcells).
  exists h'. split; [exact Hscale|]. split; [exact Hdim|].
  apply (Hcells 1 1). split; cbn; lia.
Defined.

(** * Further properties of the code *)

(** ** More [float64] arithmetic *)

Lemma SF64mul_comm (x y : spec_float) : SF64mul x y = SF64mul y x.
Proof.
  destruct x as [sx|sx| |sx mx ex], y as [sy|sy| |sy my ey]; cbn;
    try reflexivity; try (now rewrite xorb_comm).
  now rewrite xorb_comm, Pos.mul_comm, Z.add_comm.
Qed.

Lemma mul_comm (a b : float) : (a * b)%float = (b * a)%float.
Proof. apply Prim2SF_inj. rewrite !mul_spec. apply SF64mul_comm. Qed.

Lemma SF64add_comm (x y : spec_float) : SF64add x y = SF64add y x.
Proof.
  destruct x as [sx|sx| |sx mx ex], y as [sy|sy| |sy my ey];
    try reflexivity; try (destruct sx, sy; reflexivity).
  unfold SF64add, SFadd. now rewrite Z.min_comm, Z.add_comm.
Qed.

Lemma add_comm (a b : float) : (a + b)%float = (b + a)%float.
Proof. apply Prim2SF_inj. rewrite !add_spec. apply SF64add_comm. Qed.

Lemma sub_diag (a : float) :
  (a - a)%float = if is_finite a then 0%float else nan.
Proof.
  apply Prim2SF_inj. rewrite sub_spec. unfold is_finite.
  destruct (Prim2SF a) as [[|]|[|]| |s m e]; try reflexivity.
  change (Prim2SF 0) with (S754_zero false).
  unfold SF64sub, SFsub. rewrite Z.min_id.
  unfold shl_align. rewrite Z.sub_diag. cbn [fst].
  destruct s; cbn [cond_Zopp]; rewrite ?Z.sub_diag; reflexivity.
Qed.





(** ** Reads leave the heap alone *)

Lemma bind_pure {A B} (c : M A) (k : A -> M B) (h h' : heap) (b : B) :
  (forall a h1, c h = Done a h1 -> h1 = h) ->
  (forall a b h2, k a h = Done b h2 -> h2 = h) ->
  (c ≫= k) h = Done b h' -> h' = h.
Proof.
  intros Hc Hk. rewrite run_bind. destruct (c h) as [a h1|] eqn:Hch; [|discriminate].
  rewrite (Hc a h1 eq_refl). apply Hk.
Qed.

Lemma ret_pure {A} (a b : A) (h h' : heap) : (mret a : M A) h = Done b h' -> h' = h.
Proof. now intros [= _ <-]. Qed.

Lemma deref_pure (p : ptr) (h h' : heap) (m : Matrix) :
  deref p h = Done m h' -> h' = h.
Proof. unfold deref. destruct (objs h !! p); [|discriminate]. now intros [= _ <-]. Qed.

Lemma index_pure (s : slice) (k : Z) (h h' : heap) (v : float) :
  index s k h = Done v h' -> h' = h.
Proof. unfold index. repeat case_match; try discriminate. now intros [= _ <-]. Qed.

Lemma get_pure (p : ptr) (i j : Z) (h h' : heap) (v : float) :
  get p i j h = Done v h' -> h' = h.
Proof.
  apply bind_pure; [intros ? ? | intros ? ? ?]; [apply deref_pure | apply index_pure].
Qed.

Lemma loop_pure {A} (body : Z -> A -> M A) (h : heap) :
  (forall i a a' h', body i a h = Done a' h' -> h' = h) ->
  forall n i a a' h', loop n i body a h = Done a' h' -> h' = h.
Proof.
  intros Hbody n. induction n as [|n IH]; intros i a a' h'; cbn [loop].
  - apply ret_pure.
  - apply bind_pure; [intros ? ? | intros ? ? ?]; [apply Hbody | apply IH].
Qed.

Lemma for_acc_pure {A} (bound : Z) (body : Z -> A -> M A) (h : heap) :
  (forall i a a' h', body i a h = Done a' h' -> h' = h) ->
  forall a a' h', for_acc bound body a h = Done a' h' -> h' = h.
Proof. intros Hbody a a' h'. now apply loop_pure. Qed.

Ltac pure_step :=
  first
    [ apply ret_pure
    | apply deref_pure
    | apply get_pure
    | apply checkRange_pure
    | apply checkEqualDimentions_pure
    | apply for_acc_pure; intros ? ? ? ?
    | apply bind_pure; [intros ? ? | intros ? ? ?]
    | match goal with |- context [match ?e with _ => _ end] => destruct e end ].

Lemma Dimentions_pure (p : ptr) (h h' : heap) (rc : Z * Z) :
  Dimentions p h = Done rc h' -> h' = h.
Proof. unfold Dimentions. repeat pure_step. Qed.

Lemma Get_pure (p : ptr) (i j : Z) (h h' : heap) (r : float * option error) :
  Get p i j h = Done r h' -> h' = h.
Proof. unfold Get. repeat pure_step. Qed.

Lemma Dot_pure (p x : ptr) (h h' : heap) (r : float * option error) :
  Dot p x h = Done r h' -> h' = h.
Proof. unfold Dot. repeat pure_step. Qed.

Lemma String_pure (field : float -> list ascii) (p : ptr) (h h' : heap)
    (s : list ascii) :
  String_ field p h = Done s h' -> h' = h.
Proof. unfold String_. repeat pure_step. Qed.

(** X6, reads: [Dimentions], [Get], [Dot] and [String], whenever they
    return, with or without an error and on any heap whatsoever, return in
    the heap they were called in: no matrix has changed. *)
Theorem read_only (h h' : heap) :
  (forall p rc, Dimentions p h = Done rc h' -> h' = h)
  /\ (forall p i j r, Get p i j h = Done r h' -> h' = h)
  /\ (forall p x r, Dot p x h = Done r h' -> h' = h)
  /\ (forall field p s, String_ field p h = Done s h' -> h' = h).
Proof.
  split; [|split; [|split]].
  - intros p rc. apply Dimentions_pure.
  - intros p i j r. apply Get_pure.
  - intros p x r. apply Dot_pure.
  - intros field p s. apply String_pure.
Qed.

Lemma read_only_witness :
  (exists rc h', Dimentions 0%nat heap_AB = Done rc h' /\ h' = heap_AB)
  /\ (exists r h', Get 1%nat 1 0 heap_AB = Done r h' /\ h' = heap_AB)
  /\ (exists r h', Get 1%nat 5 0 heap_AB = Done r h' /\ h' = heap_AB)
  /\ (exists r h', Dot 0%nat 1%nat heap_AB = Done r h' /\ h' = heap_AB)
  /\ (exists s h', String_ fmt_f 0%nat heap_AB = Done s h' /\ h' = heap_AB).
Proof.
  split; [|split; [|split; [|split]]].
  - eexists _, _. split; [reflexivity|].
    eapply (proj1 (read_only heap_AB _) 0%nat); reflexivity.
  - eexists _, _. split; [reflexivity|].
    eapply (proj1 (proj2 (read_only heap_AB _)) 1%nat 1 0); reflexivity.
  - eexists _, _. split; [reflexivity|].
    eapply (proj1 (proj2 (read_only heap_AB _)) 1%nat 5 0); reflexivity.
  - eexists _, _. split; [vm_compute; reflexivity|].
    eapply (proj1 (proj2 (proj2 (read_only heap_AB _))) 0%nat 1%nat);
      vm_compute; reflexivity.
  - eexists _, _. split; [vm_compute; reflexivity|].
    eapply (proj2 (proj2 (proj2 (read_only heap_AB _))) fmt_f 0%nat);
      vm_compute; reflexivity.
Defined.

(** ** Algebra of the elementwise operations *)




(** X8, commutativity of the sum: for same-shaped [m] and [x], [m.Add(x)]
    leaves in every cell of [m] the very [float64] that [x.Add(m)] leaves in
    that cell of [x]. *)
Theorem Add_commutative (h : heap) (p x : ptr) (m mx : Matrix) (d xd : list float) :
  valid h p m d -> valid h x mx xd ->
  rows m = rows mx -> cols m = cols mx ->
  exists h1 h2,
    Add p x h = Done None h1
    /\ Add x p h = Done None h2
    /\ forall i j, in_range m i j ->
         exists v, Get p i j h1 = Done (v, None) h1
                /\ Get x i j h2 = Done (v, None) h2.
Proof.
  intros Hv Hvx Hr Hc. eexists _, _.
  split; [exact (Add_Done h p x m mx d xd Hv Hvx Hr Hc)|].
  split; [exact (Add_Done h x p mx m xd d Hvx Hv (eq_sym Hr) (eq_sym Hc))|].
  intros i j Hij.
  assert (Hijx : in_range mx i j) by (unfold in_range; now rewrite <- Hr, <- Hc).
  destruct (binary_cells_Get h p x m mx d xd PrimFloat.add i j Hv Hvx Hr Hc Hij)
    as (a & b & Ha & Hb & Hsum).
  destruct (binary_cells_Get h x p mx m xd d PrimFloat.add i j Hvx Hv
              (eq_sym Hr) (eq_sym Hc) Hijx) as (b' & a' & Hb' & Ha' & Hsum').
  assert (a' = a) as -> by congruence. assert (b' = b) as -> by congruence.
  exists (a + b)%float. split; [exact Hsum|].
  rewrite (add_comm a b). exact Hsum'.
Qed.

Lemma Add_commutative_witness :
  exists h1 h2,
    Add 0%nat 1%nat heap_AB = Done None h1
    /\ Add 1%nat 0%nat heap_AB = Done None h2
    /\ exists v, Get 0%nat 1 0 h1 = Done (v, None) h1
              /\ Get 1%nat 1 0 h2 = Done (v, None) h2.
Proof.
  destruct (Add_commutative _ _ _ _ _ _ _ valid_AB_0 valid_AB_1 eq_refl eq_refl)
    as (h1 & h2 & H1 & H2 & Hcells).
  exists h1, h2. split; [exact H1|]. split; [exact H2|].
  apply (Hcells 1 0). split; cbn; lia.
Defined.

Lemma zip_with_diag_fmap {A B} (f : A -> A -> B) (l : list A) :
  zip_with f l l = (fun a => f a a) <$> l.
Proof. induction l as [|a l IH]; [reflexivity|]. cbn. now rewrite IH. Qed.

(** X9, doubling: [m.Add(m)] and [m.Scale(2)] both succeed and leave the
    same heap: every element is doubled, by either. *)
Theorem Add_to_itself_is_Scale_2 (h : heap) (p : ptr) (m : Matrix) (d : list float) :
  valid h p m d ->
  exists h', Add p p h = Done None h' /\ Scale p 2 h = Done tt h'.
Proof.
  intros Hv. eexists. split; [|exact (Scale_Done h p m d 2 Hv)].
  rewrite (Add_Done h p p m m d d Hv Hv eq_refl eq_refl).
  do 2 f_equal. rewrite zip_with_diag_fmap. apply list_fmap_ext.
  intros k a _. rewrite add_self_double. apply mul_comm.
Qed.

Lemma Add_to_itself_is_Scale_2_witness :
  exists h', Add 0%nat 0%nat heap_AB = Done None h' /\ Scale 0%nat 2 heap_AB = Done tt h'.
Proof. exact (Add_to_itself_is_Scale_2 _ _ _ _ valid_AB_0). Defined.

(** X10, a matrix subtracted from itself: [m.Sub(m)] succeeds and leaves
    [+0.0] in every cell that held a finite number, and NaN in every cell
    that held an infinity or a NaN. *)
Theorem Sub_from_itself (h : heap) (p : ptr) (m : Matrix) (d : list float) :
  valid h p m d ->
  exists h',
    Sub p p h = Done None h'
    /\ forall i j, in_range m i j ->
         exists a, Get p i j h = Done (a, None) h
                /\ Get p i j h'
                   = Done (if is_finite a then 0%float else nan, None) h'.
Proof.
  intros Hv. eexists. split; [exact (Sub_Done h p p m m d d Hv Hv eq_refl eq_refl)|].
  intros i j Hij.
  destruct (binary_cells_Get h p p m m d d PrimFloat.sub i j Hv Hv eq_refl eq_refl Hij)
    as (a & b & Ha & Hb & Hdiff).
  assert (b = a) as -> by congruence.
  exists a. split; [exact Ha|]. rewrite <- sub_diag. exact Hdiff.
Qed.

Lemma Sub_from_itself_witness :
  exists h',
    Sub 0%nat 0%nat heap_AB = Done None h'
    /\ exists a, Get 0%nat 1 1 heap_AB = Done (a, None) heap_AB
              /\ Get 0%nat 1 1 h'
                 = Done (if is_finite a then 0%float else nan, None) h'.
Proof.
  destruct (Sub_from_itself _ _ _ _ valid_AB_0) as (h' & Hsub & Hcells).
  exists h'. split; [exact Hsub|]. apply (Hcells 1 1). split; cbn; lia.
Defined.



(** ** Composing calls *)

Lemma cellwise_compose (m : Matrix) (f g : Z -> Z -> float -> float) (d : list float) :
  cellwise m g (cellwise m f d) = cellwise m (fun i j v => g i j (f i j v)) d.
Proof.
  unfold cellwise. apply list_eq. intros k.
  rewrite !list_lookup_imap. destruct (d !! k); reflexivity.
Qed.

Lemma cellwise_id (m : Matrix) (d : list float) :
  cellwise m (fun _ _ v => v) d = d.
Proof.
  unfold cellwise. apply list_eq. intros k.
  rewrite list_lookup_imap. destruct (d !! k); reflexivity.
Qed.

(** X12, composition of [Each]: with the identity as callback [Each]
    leaves the heap as it is, and [Each(f)] followed by [Each(g)] leaves the
    heap that one [Each] with the composed callback leaves. *)
Theorem Each_compose (h : heap) (p : ptr) (m : Matrix) (d : list float)
    (f g : Z -> Z -> float -> float) :
  valid h p m d ->
  Each p (fun _ _ v => v) h = Done tt h
  /\ exists h1 h2,
       Each p f h = Done tt h1
       /\ Each p g h1 = Done tt h2
       /\ Each p (fun i j v => g i j (f i j v)) h = Done tt h2.
Proof.
  intros Hv. split.
  - rewrite (Each_Done h p m d _ Hv), cellwise_id. f_equal.
    apply with_data_id, Hv.
  - assert (Hv1 : valid (with_data h m (cellwise m f d)) p m (cellwise m f d))
      by (apply (valid_with_data h p m d); [exact Hv | apply length_imap]).
    eexists _, _. split; [exact (Each_Done h p m d f Hv)|].
    split; [exact (Each_Done _ p m _ g Hv1)|].
    rewrite (Each_Done h p m d _ Hv), with_data_twice, cellwise_compose.
    reflexivity.
Qed.

Lemma Each_compose_witness :
  Each 0%nat (fun _ _ v => v) heap_AB = Done tt heap_AB
  /\ exists h1 h2,
       Each 0%nat (fun i j v => v + 1)%float heap_AB = Done tt h1
       /\ Each 0%nat (fun i j v => v * v)%float h1 = Done tt h2
       /\ Each 0%nat (fun i j v => (v + 1) * (v + 1))%float heap_AB = Done tt h2.
Proof.
  exact (Each_compose _ _ _ _ (fun i j v => v + 1)%float (fun i j v => v * v)%float
           valid_AB_0).
Defined.

Lemma Set_cell (h : heap) (p : ptr) (m : Matrix) (d : list float) (i j i' j' : Z)
    (v a : float) :
  valid h p m d -> in_range m i j -> d !! offset m i j = Some a ->
  exists e d1,
    Set_ p i' j' v h = Done e (with_data h m d1)
    /\ length d1 = length d
    /\ d1 !! offset m i j = Some (if (i' =? i) && (j' =? j) then v else a).
Proof.
  intros Hv Hij Ha.
  assert (Hid : with_data h m d = h) by apply with_data_id, Hv.
  assert (Hcases : in_range m i' j' \/ (i' < 0 \/ j' < 0)
                   \/ (0 <= i' /\ 0 <= j' /\ (rows m <= i' \/ cols m <= j')))
    by (unfold in_range; lia).
  destruct Hcases as [Hij'|Hout].
  - eexists _, _. split; [exact (Set_inside h p m d i' j' v Hv Hij')|].
    split; [apply length_insert|].
    destruct (Z.eqb_spec i' i) as [->|Hi]; [destruct (Z.eqb_spec j' j) as [->|Hj]|]; cbn.
    + apply list_lookup_insert_eq. eapply lookup_lt_Some; eauto.
    + rewrite list_lookup_insert_ne; [exact Ha|].
      intros Heq. destruct (offset_inj m i j' i j Hij' Hij Heq). congruence.
    + rewrite list_lookup_insert_ne; [exact Ha|].
      intros Heq. destruct (offset_inj m i' j' i j Hij' Hij Heq). congruence.
  - assert (Hne : (i' =? i) && (j' =? j) = false).
    { destruct Hij as [Hi Hj].
      destruct (Z.eqb_spec i' i), (Z.eqb_spec j' j); cbn; try reflexivity. lia. }
    rewrite Hne. destruct Hout as [Hn|(Hi & Hj & Ho)].
    + eexists _, d. rewrite Hid. split; [|split; [reflexivity | exact Ha]].
      apply Set_error. now apply checkRange_negative.
    + eexists _, d. rewrite Hid. split; [|split; [reflexivity | exact Ha]].
      apply Set_error. apply checkRange_beyond; [apply Hv | lia | lia | lia].
Qed.

Lemma Sets_cell (p : ptr) (m : Matrix) (i j : Z) (l : list (Z * Z * float)) :
  forall h d a, valid h p m d -> in_range m i j -> d !! offset m i j = Some a ->
    exists d', Sets p l h = Done tt (with_data h m d')
               /\ length d' = length d
               /\ d' !! offset m i j = Some (last_write i j l a).
Proof.
  induction l as [|[[i' j'] v] l IH]; intros h d a Hv Hij Ha.
  - exists d. split; [|split; [reflexivity | exact Ha]]. cbn. rewrite run_ret.
    f_equal. symmetry. apply with_data_id, Hv.
  - destruct (Set_cell h p m d i j i' j' v a Hv Hij Ha) as (e & d1 & Hset & Hl1 & Ha1).
    destruct (IH (with_data h m d1) d1 _ (valid_with_data _ _ _ _ _ Hv Hl1) Hij Ha1)
      as (d2 & Hsets & Hl2 & Ha2).
    exists d2. split; [|split; [congruence | exact Ha2]].
    cbn [Sets]. rewrite (bind_Done _ _ _ _ _ Hset), Hsets.
    now rewrite with_data_twice.
Qed.

(** X13, the last write wins: after any sequence of [Set] calls on [m],
    valid or not, a valid cell [(i, j)] holds the value of the last call of
    the sequence that targets [(i, j)], or its old value if none does. *)
Theorem last_write_wins (h : heap) (p : ptr) (m : Matrix) (d : list float)
    (l : list (Z * Z * float)) (i j : Z) :
  valid h p m d -> in_range m i j ->
  exists a h',
    Get p i j h = Done (a, None) h
    /\ Sets p l h = Done tt h'
    /\ Get p i j h' = Done (last_write i j l a, None) h'.
Proof.
  intros Hv Hij.
  destruct (Get_inside h p m d i j Hv Hij) as (a & Ha & Hget).
  destruct (Sets_cell p m i j l h d a Hv Hij Ha) as (d' & Hsets & Hlen & Ha').
  exists a, (with_data h m d'). split; [exact Hget|]. split; [exact Hsets|].
  now apply (Get_with_data h p m d).
Qed.

Lemma last_write_wins_witness :
  exists a h',
    Get 0%nat 1 0 heap_AB = Done (a, None) heap_AB
    /\ Sets 0%nat [(1, 0, 9%float); (0, 1, 5%float); (7, 0, 6%float); (1, 0, 8%float)]
         heap_AB = Done tt h'
    /\ Get 0%nat 1 0 h' = Done (8%float, None) h'.
Proof.
  apply (last_write_wins heap_AB 0%nat _ _
           [(1, 0, 9%float); (0, 1, 5%float); (7, 0, 6%float); (1, 0, 8%float)] 1 0
           valid_AB_0).
  split; cbn; lia.
Defined.

(** X14, transposition of a sum: for same-shaped [m] and [x], the
    transpose of [m] after [m.Add(x)] and the sum of the transposes, by
    [m.T().Add(x.T())], have the same dimensions and the same element in
    every cell. *)
Theorem T_Add_commute (h : heap) (p x : ptr) (m mx : Matrix) (d xd : list float) :
  valid h p m d -> valid h x mx xd ->
  rows m = rows mx -> cols m = cols mx ->
  exists h1 t h2 tp h3 tx h4 h5,
    Add p x h = Done None h1 /\ T p h1 = Done t h2
    /\ T p h = Done tp h3 /\ T x h3 = Done tx h4 /\ Add tp tx h4 = Done None h5
    /\ Dimentions t h2 = Done (cols m, rows m) h2
    /\ Dimentions tp h5 = Done (cols m, rows m) h5
    /\ forall i j, in_range m i j ->
         exists v, Get t j i h2 = Done (v, None) h2
                /\ Get tp j i h5 = Done (v, None) h5.
Proof.
  intros Hv Hvx Hr Hc.
  pose proof Hv as [_ (Hr0 & Hc0 & Hl & Hmax)].
  pose proof Hvx as [_ (Hrx0 & Hcx0 & Hlx & Hmaxx)].
  assert (Hxd : length xd = length d) by (rewrite <- Hr, <- Hc in Hlx; lia).
  (* (m + x)^T *)
  set (s := zip_with PrimFloat.add d xd).
  assert (Hs : length s = length d) by (unfold s; rewrite length_zip_with; lia).
  pose proof (valid_with_data h p m d s Hv Hs) as Hv1.
  destruct (T_Done _ p m s Hv1) as (dt & HT & Hdt & Hcells). cbn zeta in *.
  set (h1 := with_data h m s) in *.
  set (mt := mkMatrix (cols m) (rows m) (length (mems h1))) in *.
  assert (Hvt : valid (grow h1 mt dt) (length (objs h1)) mt dt).
  { split; [now apply repr_grow_new|].
    unfold shaped, mt. cbn. rewrite Hdt, Hs. repeat split; lia. }
  (* m^T + x^T *)
  destruct (T_Done h p m d Hv) as (dp & HTp & Hdp & Hcellsp). cbn zeta in *.
  set (mtp := mkMatrix (cols m) (rows m) (length (mems h))) in *.
  set (h3 := grow h mtp dp) in *.
  assert (Hvtp : valid h3 (length (objs h)) mtp dp).
  { split; [now apply repr_grow_new|].
    unfold shaped, mtp. cbn. rewrite Hdp. repeat split; lia. }
  assert (Hvx3 : valid h3 x mx xd) by (split; [apply repr_grow|]; apply Hvx).
  destruct (T_Done h3 x mx xd Hvx3) as (dx & HTx & Hdx & Hcellsx). cbn zeta in *.
  set (mtx := mkMatrix (cols mx) (rows mx) (length (mems h3))) in *.
  set (h4 := grow h3 mtx dx) in *.
  assert (Hvtx : valid h4 (length (objs h3)) mtx dx).
  { split; [now apply repr_grow_new|].
    unfold shaped, mtx. cbn. rewrite Hdx. repeat split; lia. }
  assert (Hvtp4 : valid h4 (length (objs h)) mtp dp)
    by (split; [apply repr_grow|]; apply Hvtp).
  assert (Hrt : rows mtp = rows mtx) by exact Hc.
  assert (Hct : cols mtp = cols mtx) by exact Hr.
  set (h5 := with_data h4 mtp (zip_with PrimFloat.add dp dx)).
  assert (Hv5 : valid h5 (length (objs h)) mtp (zip_with PrimFloat.add dp dx)).
  { apply (valid_with_data h4 _ mtp dp); [exact Hvtp4|].
    rewrite length_zip_with. lia. }
  exists h1, (length (objs h1)), (grow h1 mt dt),
    (length (objs h)), h3, (length (objs h3)), h4, h5.
  split; [exact (Add_Done h p x m mx d xd Hv Hvx Hr Hc)|].
  split; [exact HT|]. split; [exact HTp|]. split; [exact HTx|].
  split; [exact (Add_Done h4 _ _ mtp mtx dp dx Hvtp4 Hvtx Hrt Hct)|].
  split; [exact (Dimentions_Done _ _ _ (proj1 (proj1 Hvt)))|].
  split; [exact (Dimentions_Done _ _ _ (proj1 (proj1 Hv5)))|].
  intros i j Hij.
  assert (Hijx : in_range mx i j) by (unfold in_range; now rewrite <- Hr, <- Hc).
  assert (Hji : in_range mt j i) by (unfold in_range, mt in *; cbn; tauto).
  assert (Hjip : in_range mtp j i) by exact Hji.
  destruct (Get_inside _ _ _ _ j i Hvt Hji) as (v & Hlook & Hget).
  exists v. split; [exact Hget|].
  destruct (Get_inside _ _ _ _ j i Hv5 Hjip) as (v' & Hlook' & Hget').
  replace v' with v in Hget'; [exact Hget'|].
  rewrite (Hcells i j Hij) in Hlook.
  unfold s in Hlook. rewrite lookup_zip_with in Hlook.
  rewrite lookup_zip_with in Hlook'.
  rewrite (Hcellsp i j Hij) in Hlook'.
  replace (offset mtp j i) with (offset mtx j i) in Hlook'
    by (unfold offset, mtp, mtx; cbn; now rewrite Hr).
  rewrite (Hcellsx i j Hijx) in Hlook'.
  replace (offset mx i j) with (offset m i j) in Hlook'
    by (unfold offset; now rewrite Hc).
  congruence.
Qed.

Lemma T_Add_commute_witness :
  exists h1 t h2 tp h3 tx h4 h5,
    Add 0%nat 1%nat heap_AB = Done None h1 /\ T 0%nat h1 = Done t h2
    /\ T 0%nat heap_AB = Done tp h3 /\ T 1%nat h3 = Done tx h4
    /\ Add tp tx h4 = Done None h5
    /\ exists v, Get t 1 0 h2 = Done (v, None) h2
              /\ Get tp 1 0 h5 = Done (v, None) h5.
Proof.
  destruct (T_Add_commute _ _ _ _ _ _ _ valid_AB_0 valid_AB_1 eq_refl eq_refl)
    as (h1 & t & h2 & tp & h3 & tx & h4 & h5 & H1 & H2 & H3 & H4 & H5 & _ & _ & Hcells).
  exists h1, t, h2, tp, h3, tx, h4, h5.
  split; [exact H1|]. split; [exact H2|]. split; [exact H3|]. split; [exact H4|].
  split; [exact H5|]. apply (Hcells 0 1). split; cbn; lia.
Defined.

(** ** Safety of the calls *)

Lemma well_formed_empty : well_formed empty_heap.
Proof. intros p m H. discriminate H. Qed.

Lemma well_formed_framed (h h' : heap) :
  well_formed h -> framed h h' -> well_formed h'.
Proof.
  intros Hwf Hf p m Hp. pose proof Hf as [Ho _]. rewrite Ho in Hp.
  destruct (Hwf p m Hp) as [d Hv].
  destruct (framed_keeps_shape h h' Hf p m d Hv) as (d' & Hv' & _). eauto.
Qed.

Lemma well_formed_grow (h : heap) (m : Matrix) (d : list float) :
  well_formed h -> shaped m d -> data m = length (mems h) ->
  well_formed (grow h m d).
Proof.
  intros Hwf Hs Hd p mp Hp. cbn in Hp.
  apply lookup_snoc in Hp as [Hp|[-> ->]].
  - destruct (Hwf p mp Hp) as [dp [Hrepr Hsp]]. exists dp.
    split; [now apply repr_grow | exact Hsp].
  - exists d. split; [now apply repr_grow_new | exact Hs].
Qed.

Lemma deref_None {B} (p : ptr) (k : Matrix -> M B) (h : heap) :
  objs h !! p = None -> (deref p ≫= k) h = Panic.
Proof. intros H. rewrite run_bind. unfold deref. now rewrite H. Qed.

Lemma T_well_formed (p t : ptr) (h h' : heap) :
  well_formed h -> T p h = Done t h' -> well_formed h'.
Proof.
  intros Hwf HT. destruct (objs h !! p) as [m|] eqn:Hp.
  - destruct (Hwf p m Hp) as [d Hv].
    destruct (T_Done h p m d Hv) as (dt & HT' & Hlen & _). cbn zeta in HT'.
    rewrite HT' in HT. injection HT as _ <-.
    apply well_formed_grow; [exact Hwf | | reflexivity].
    destruct Hv as [_ (Hr & Hc & Hl & Hmax)].
    unfold shaped. cbn. rewrite Hlen. repeat split; lia.
  - unfold T in HT. rewrite deref_None in HT by exact Hp. discriminate.
Qed.

Lemma Clone_well_formed (p c : ptr) (h h' : heap) :
  well_formed h -> Clone p h = Done c h' -> well_formed h'.
Proof.
  intros Hwf HC. destruct (objs h !! p) as [m|] eqn:Hp.
  - destruct (Hwf p m Hp) as [d Hv].
    rewrite (Clone_Done h p m d Hv) in HC. injection HC as _ <-.
    apply well_formed_grow; [exact Hwf | | reflexivity].
    destruct Hv as [_ (Hr & Hc & Hl & Hmax)].
    unfold shaped. cbn. repeat split; lia.
  - unfold Clone in HC. rewrite deref_None in HC by exact Hp. discriminate.
Qed.

Lemma New_well_formed (r c : Z) (h h' : heap) (res : option ptr * option error) :
  well_formed h -> r < 0 \/ c < 0 \/ r * c <= maxLen ->
  New r c h = Done res h' -> well_formed h'.
Proof.
  intros Hwf Hsize Hnew.
  destruct (decide (r < 0 \/ c < 0)) as [Hneg|Hpos].
  - rewrite New_error in Hnew by exact Hneg. injection Hnew as _ <-. exact Hwf.
  - rewrite New_Done in Hnew by lia. injection Hnew as _ <-.
    apply well_formed_grow; [exact Hwf | | reflexivity].
    apply (New_valid r c h); lia.
Qed.

Lemma run_well_formed (c : call) (h h' : heap) :
  well_formed h -> allocatable c -> run c h = Done tt h' -> well_formed h'.
Proof.
  intros Hwf Hsize. destruct c; cbn [run]; try rewrite run_bind.
  - destruct (New r c h) eqn:E; [|discriminate]. intros [= <-].
    eapply New_well_formed; eauto.
  - destruct (Dimentions p h) eqn:E; [|discriminate]. intros [= <-].
    eapply well_formed_framed, Dimentions_framed; eauto.
  - destruct (Get p i j h) eqn:E; [|discriminate]. intros [= <-].
    eapply well_formed_framed, Get_framed; eauto.
  - destruct (Set_ p i j v h) eqn:E; [|discriminate]. intros [= <-].
    eapply well_formed_framed, Set_framed; eauto.
  - intros E. eapply well_formed_framed, Each_framed; eauto.
  - destruct (T p h) eqn:E; [|discriminate]. intros [= <-]. eapply T_well_formed; eauto.
  - destruct (Clone p h) eqn:E; [|discriminate]. intros [= <-].
    eapply Clone_well_formed; eauto.
  - destruct (Add p x h) eqn:E; [|discriminate]. intros [= <-].
    eapply well_formed_framed, Add_framed; eauto.
  - destruct (Sub p x h) eqn:E; [|discriminate]. intros [= <-].
    eapply well_formed_framed, Sub_framed; eauto.
  - intros E. eapply well_formed_framed, Addn_framed; eauto.
  - intros E. eapply well_formed_framed, Scale_framed; eauto.
  - destruct (Dot p x h) eqn:E; [|discriminate]. intros [= <-].
    eapply well_formed_framed, Dot_framed; eauto.
Qed.

Lemma built_well_formed (h : heap) : built h -> well_formed h.
Proof.
  induction 1 as [|h h' c _ IH Hsize Hrun]; [apply well_formed_empty|].
  eapply run_well_formed; eauto.
Qed.

Lemma Get_cases (h : heap) (p : ptr) (m : Matrix) (d : list float) (i j : Z) :
  valid h p m d -> exists r, Get p i j h = Done r h.
Proof.
  intros Hv.
  assert (Hcases : in_range m i j \/ (i < 0 \/ j < 0)
                   \/ (0 <= i /\ 0 <= j /\ (rows m <= i \/ cols m <= j)))
    by (unfold in_range; lia).
  destruct Hcases as [Hij|[Hn|(Hi & Hj & Ho)]].
  - destruct (Get_inside h p m d i j Hv Hij) as (v & _ & Hget). eauto.
  - eexists. apply Get_error. now apply checkRange_negative.
  - eexists. apply Get_error. apply checkRange_beyond; [apply Hv | lia | lia | lia].
Qed.

Lemma then_tt {A} (c : M A) (h h' : heap) (a : A) :
  c h = Done a h' -> (c ≫= fun _ => mret tt) h = Done tt h'.
Proof. intros H. now rewrite (bind_Done _ _ _ _ _ H). Qed.

Ltac in_list :=
  repeat first [apply list_elem_of_here | apply list_elem_of_further].

Lemma run_returns (c : call) (h : heap) :
  well_formed h -> allocatable c ->
  Forall (fun p => is_Some (objs h !! p)) (pointers c) ->
  exists h', run c h = Done tt h'.
Proof.
  intros Hwf Hsize Hptr.
  assert (Hvalid : forall p, p ∈ pointers c -> exists m d, valid h p m d).
  { intros p Hp. rewrite Forall_forall in Hptr.
    destruct (Hptr p Hp) as [m Hm]. destruct (Hwf p m Hm) as [d Hv]. eauto. }
  destruct c; cbn [run pointers allocatable] in *.
  - destruct (decide (r < 0 \/ c < 0)) as [Hneg|Hpos].
    + eexists. eapply then_tt. now apply New_error.
    + eexists. eapply then_tt. apply New_Done; lia.
  - destruct (Hvalid p) as (m & d & Hv); [in_list|].
    eexists. eapply then_tt. apply Dimentions_Done, Hv.
  - destruct (Hvalid p) as (m & d & Hv); [in_list|].
    destruct (Get_cases h p m d i j Hv) as [r Hget].
    eexists. eapply then_tt. exact Hget.
  - destruct (Hvalid p) as (m & d & Hv); [in_list|].
    destruct (Set_cases h p m d i j v Hv) as (e & d' & Hset & _).
    eexists. eapply then_tt. exact Hset.
  - destruct (Hvalid p) as (m & d & Hv); [in_list|].
    eexists. exact (Each_Done h p m d f Hv).
  - destruct (Hvalid p) as (m & d & Hv); [in_list|].
    destruct (T_Done h p m d Hv) as (dt & HT & _).
    eexists. eapply then_tt. exact HT.
  - destruct (Hvalid p) as (m & d & Hv); [in_list|].
    eexists. eapply then_tt. exact (Clone_Done h p m d Hv).
  - destruct (Hvalid p) as (m & d & Hv); [in_list|].
    destruct (Hvalid x) as (mx & xd & Hvx); [in_list|].
    destruct (decide (rows m = rows mx /\ cols m = cols mx)) as [[Hr Hc]|Hne].
    + eexists. eapply then_tt. exact (Add_Done h p x m mx d xd Hv Hvx Hr Hc).
    + eexists. eapply then_tt.
      apply (Add_mismatch h p x m mx); [apply Hv | apply Hvx | lia].
  - destruct (Hvalid p) as (m & d & Hv); [in_list|].
    destruct (Hvalid x) as (mx & xd & Hvx); [in_list|].
    destruct (decide (rows m = rows mx /\ cols m = cols mx)) as [[Hr Hc]|Hne].
    + eexists. eapply then_tt. exact (Sub_Done h p x m mx d xd Hv Hvx Hr Hc).
    + eexists. eapply then_tt.
      apply (Sub_mismatch h p x m mx); [apply Hv | apply Hvx | lia].
  - destruct (Hvalid p) as (m & d & Hv); [in_list|].
    eexists. exact (Addn_Done h p m d n Hv).
  - destruct (Hvalid p) as (m & d & Hv); [in_list|].
    eexists. exact (Scale_Done h p m d n Hv).
  - destruct (Hvalid p) as (m & d & Hv); [in_list|].
    destruct (Hvalid x) as (mx & xd & Hvx); [in_list|].
    destruct (decide (rows m = rows mx /\ cols m = cols mx)) as [[Hr Hc]|Hne].
    + eexists. eapply then_tt. exact (Dot_Done h p x m mx d xd Hv Hvx Hr Hc).
    + eexists. eapply then_tt.
      apply (Dot_mismatch h p x m mx); [apply Hv | apply Hvx | lia].
Qed.

Lemma built_runs (l : list call) :
  forall h h', built h -> Forall allocatable l -> runs l h = Done tt h' -> built h'.
Proof.
  induction l as [|c l IH]; intros h h' Hb Hall; cbn [runs].
  - intros [= <-]. exact Hb.
  - rewrite run_bind. destruct (run c h) as [[] h1|] eqn:Hrun; [|discriminate].
    apply Forall_cons in Hall as [Hc Hl].
    apply IH; [|exact Hl]. eapply built_call; eauto.
Qed.

Lemma built_AB : built heap_AB.
Proof.
  apply (built_runs
           [CallNew 2 2; CallSet 0%nat 0 0 1; CallSet 0%nat 0 1 2; CallSet 0%nat 1 0 3;
            CallSet 0%nat 1 1 4; CallNew 2 2; CallSet 1%nat 0 0 5; CallSet 1%nat 0 1 6;
            CallSet 1%nat 1 0 7; CallSet 1%nat 1 1 8] empty_heap);
    [constructor | | vm_compute; reflexivity].
  repeat constructor; cbn; unfold maxLen; lia.
Qed.

(** X15, safety: every heap that calls with allocatable [New]s build from
    nothing is well formed (each of its matrices has non-negative dimensions
    and a storage of [rows * cols] elements), and on such a heap every
    allocatable call on matrices of the heap returns: none panics. *)
Theorem calls_are_safe (h : heap) :
  built h ->
  well_formed h
  /\ forall c, allocatable c ->
       Forall (fun p => is_Some (objs h !! p)) (pointers c) ->
       exists h', run c h = Done tt h' /\ built h'.
Proof.
  intros Hb. pose proof (built_well_formed h Hb) as Hwf.
  split; [exact Hwf|]. intros c Hsize Hptr.
  destruct (run_returns c h Hwf Hsize Hptr) as [h' Hrun].
  exists h'. split; [exact Hrun|]. eapply built_call; eauto.
Qed.

Lemma calls_are_safe_witness :
  well_formed heap_AB
  /\ (exists h', run (CallT 1%nat) heap_AB = Done tt h' /\ built h')
  /\ (exists h', run (CallGet 0%nat 7 (-1)) heap_AB = Done tt h' /\ built h')
  /\ (exists h', run (CallNew 0 5) heap_AB = Done tt h' /\ built h').
Proof.
  destruct (calls_are_safe heap_AB built_AB) as [Hwf Hrun].
  split; [exact Hwf|]. split; [|split].
  - apply (Hrun (CallT 1%nat)); [exact I|]. repeat constructor. cbn. eauto.
  - apply (Hrun (CallGet 0%nat 7 (-1))); [exact I|]. repeat constructor. cbn. eauto.
  - apply (Hrun (CallNew 0 5)); [cbn; unfold maxLen; lia | constructor].
Defined.

Lemma repr_with_data_other (h : heap) (m mq : Matrix) (q : ptr) (d' dq : list float) :
  repr h q mq dq -> data mq <> data m -> repr (with_data h m d') q mq dq.
Proof.
  intros [Ho Hm] Hne. split; [exact Ho|]. now rewrite mems_with_data_ne.
Qed.

(** X16, isolation: in a heap where every matrix owns its storage, no
    call on [m] (with whatever argument [x]) changes the dimensions or an
    element of a third matrix [q]; and the matrix that [T], [Clone] or [New]
    returns is never [q]. *)
Theorem others_untouched (h : heap) (p q : ptr) (m mq : Matrix) (d dq : list float) :
  owned h -> valid h p m d -> repr h q mq dq -> q <> p ->
  (forall i j v e h', Set_ p i j v h = Done e h' -> repr h' q mq dq)
  /\ (forall f u h', Each p f h = Done u h' -> repr h' q mq dq)
  /\ (forall n u h', Addn p n h = Done u h' -> repr h' q mq dq)
  /\ (forall n u h', Scale p n h = Done u h' -> repr h' q mq dq)
  /\ (forall x mx xd e h', valid h x mx xd ->
        Add p x h = Done e h' -> repr h' q mq dq)
  /\ (forall x mx xd e h', valid h x mx xd ->
        Sub p x h = Done e h' -> repr h' q mq dq)
  /\ (forall t h', T p h = Done t h' -> t <> q /\ repr h' q mq dq)
  /\ (forall c h', Clone p h = Done c h' -> c <> q /\ repr h' q mq dq)
  /\ (forall r c t e h', New r c h = Done (t, e) h' ->
        t <> Some q /\ repr h' q mq dq).
Proof.
  intros Hown Hv Hq Hne.
  assert (Hdata : data mq <> data m)
    by (apply (owned_distinct h q p); [exact Hown | apply Hq | apply Hv | exact Hne]).
  destruct (repr_fresh h q mq dq Hq) as [Hfresh _].
  split; [|split; [|split; [|split; [|split; [|split; [|split; [|split]]]]]]].
  - intros i j v e h' Hset.
    destruct (Set_cases h p m d i j v Hv) as (e' & d' & Hset' & _).
    rewrite Hset' in Hset. injection Hset as _ <-.
    now apply repr_with_data_other.
  - intros f u h' Hrun. rewrite (Each_Done h p m d f Hv) in Hrun.
    injection Hrun as _ <-. now apply repr_with_data_other.
  - intros n u h' Hrun. rewrite (Addn_Done h p m d n Hv) in Hrun.
    injection Hrun as _ <-. now apply repr_with_data_other.
  - intros n u h' Hrun. rewrite (Scale_Done h p m d n Hv) in Hrun.
    injection Hrun as _ <-. now apply repr_with_data_other.
  - intros x mx xd e h' Hvx Hrun.
    destruct (decide (rows m = rows mx /\ cols m = cols mx)) as [[Hr Hc]|Hdim].
    + rewrite (Add_Done h p x m mx d xd Hv Hvx Hr Hc) in Hrun.
      injection Hrun as _ <-. now apply repr_with_data_other.
    + rewrite (Add_mismatch h p x m mx) in Hrun; [|apply Hv | apply Hvx | lia].
      injection Hrun as _ <-. exact Hq.
  - intros x mx xd e h' Hvx Hrun.
    destruct (decide (rows m = rows mx /\ cols m = cols mx)) as [[Hr Hc]|Hdim].
    + rewrite (Sub_Done h p x m mx d xd Hv Hvx Hr Hc) in Hrun.
      injection Hrun as _ <-. now apply repr_with_data_other.
    + rewrite (Sub_mismatch h p x m mx) in Hrun; [|apply Hv | apply Hvx | lia].
      injection Hrun as _ <-. exact Hq.
  - intros t h' Hrun. destruct (T_Done h p m d Hv) as (dt & HT & _).
    cbn zeta in HT. rewrite HT in Hrun. injection Hrun as <- <-.
    split; [congruence | now apply repr_grow].
  - intros c h' Hrun. rewrite (Clone_Done h p m d Hv) in Hrun.
    injection Hrun as <- <-. split; [congruence | now apply repr_grow].
  - intros r c t e h' Hrun.
    destruct (decide (r < 0 \/ c < 0)) as [Hneg|Hpos].
    + rewrite New_error in Hrun by exact Hneg. injection Hrun as <- _ <-.
      split; [discriminate | exact Hq].
    + rewrite New_no_error in Hrun by lia.
      destruct (_ || _); [discriminate|]. injection Hrun as <- _ <-.
      split; [congruence | now apply repr_grow].
Qed.

Lemma others_untouched_witness :
  (exists e h', Set_ 0%nat 1 1 9 heap_AB = Done e h'
      /\ repr h' 1%nat (mkMatrix 2 2 1%nat) [5; 6; 7; 8]%float)
  /\ (exists e h', Add 0%nat 1%nat heap_AB = Done e h'
      /\ repr h' 1%nat (mkMatrix 2 2 1%nat) [5; 6; 7; 8]%float)
  /\ (exists t h', T 0%nat heap_AB = Done t h'
      /\ t <> 1%nat /\ repr h' 1%nat (mkMatrix 2 2 1%nat) [5; 6; 7; 8]%float).
Proof.
  assert (Hne : 1%nat <> 0%nat) by lia.
  pose proof (others_untouched heap_AB 0%nat 1%nat _ _ _ _
                owned_AB valid_AB_0 (proj1 valid_AB_1) Hne)
    as (Hset & _ & _ & _ & Hadd & _ & HT & _).
  split; [|split].
  - eexists _, _. split; [reflexivity|]. eapply (Hset 1 1 9%float). reflexivity.
  - eexists _, _. split; [vm_compute; reflexivity|].
    eapply (Hadd 1%nat _ _ _ _ valid_AB_1). vm_compute. reflexivity.
  - eexists _, _. split; [vm_compute; reflexivity|].
    eapply HT. vm_compute. reflexivity.
Defined.

(** ** [Each] with a closure *)

Lemma scan_length {St} (c : Z) (f : Z -> Z -> float -> St -> float * St)
    (d : list float) :
  forall k s, length (scan c f k d s).1 = length d.
Proof.
  induction d as [|v d IH]; intros k s; [reflexivity|]. cbn [scan].
  destruct (f _ _ v s) as [w s1]. specialize (IH (k + 1) s1).
  destruct (scan c f (k + 1) d s1) as [d2 s2]. cbn in *. now rewrite IH.
Qed.

Lemma scan_snoc {St} (c : Z) (f : Z -> Z -> float -> St -> float * St)
    (d : list float) (v : float) :
  forall k s,
    scan c f k (d ++ [v]) s
    = let '(d1, s1) := scan c f k d s in
      let n := k + Z.of_nat (length d) in
      let '(w, s2) := f (n / c) (n mod c) v s1 in
      (d1 ++ [w], s2).
Proof.
  induction d as [|a d IH]; intros k s.
  - cbn. rewrite Z.add_0_r. destruct (f _ _ v s) as [w s2]. reflexivity.
  - cbn [scan app]. destruct (f _ _ a s) as [w s1].
    rewrite IH. destruct (scan c f (k + 1) d s1) as [d2 s2]. cbn zeta.
    replace (k + 1 + Z.of_nat (length d)) with (k + Z.of_nat (length (a :: d)))
      by (cbn [length]; lia).
    destruct (f _ _ v s2) as [w' s3]. reflexivity.
Qed.

Lemma EachS_Done {St} (h : heap) (p : ptr) (m : Matrix) (d : list float)
    (f : Z -> Z -> float -> St -> float * St) (s : St) :
  valid h p m d ->
  EachS p f s h
  = Done (scan (cols m) f 0 d s).2 (with_data h m (scan (cols m) f 0 d s).1).
Proof.
  intros [Hrepr Hs]. unfold EachS.
  rewrite (bind_Done _ _ _ _ _ (deref_Done h p m (proj1 Hrepr))).
  pose (pre := fun k : Z => scan (cols m) f 0 (take (Z.to_nat k) d) s).
  pose (J := fun (k : Z) (s' : St) (h' : heap) =>
    h' = with_data h m ((pre k).1 ++ drop (Z.to_nat k) d) /\ s' = (pre k).2).
  destruct (cells_acc_inv J (rows m) (cols m)
              (fun i s => for_acc (cols m) (fun j s =>
                 v ← get p i j;
                 let '(w, s') := f i j v s in set p i j w;; mret s') s)
              (fun i j s =>
                 v ← get p i j;
                 let '(w, s') := f i j v s in set p i j w;; mret s')
              s h) as (s' & h' & Hrun & -> & ->).
  - reflexivity.
  - apply Hs.
  - apply Hs.
  - split; [|reflexivity]. unfold pre. cbn. symmetry. apply with_data_id, Hrepr.
  - intros i j s1 h1 Hi Hj [-> ->].
    assert (Hij : in_range m i j) by (split; assumption).
    destruct (offset_bounds m d i j Hs Hij) as [Hb _].
    fold (offset m i j). set (k := offset m i j).
    assert (Hk : (k < length d)%nat) by (unfold k, offset; lia).
    assert (Hpre : length (pre (cols m * i + j)).1 = k).
    { unfold pre. rewrite scan_length, length_take. fold (offset m i j). lia. }
    set (cur := (pre (cols m * i + j)).1 ++ drop k d).
    assert (Hcur : length cur = length d).
    { unfold cur. rewrite length_app, Hpre, length_drop. lia. }
    destruct (get_Done (with_data h m cur) p m cur i j) as (v & Hv & Hget).
    { eapply repr_with_data, Hrepr. }
    { eapply shaped_length, Hs. exact Hcur. }
    { exact Hij. }
    fold k in Hv. unfold cur in Hv.
    rewrite lookup_app_r, Hpre, Nat.sub_diag, lookup_drop, Nat.add_0_r in Hv by lia.
    rewrite (bind_Done _ _ _ _ _ Hget).
    assert (Hnext : pre (cols m * i + j + 1)
                    = let '(w, s2) := f i j v (pre (cols m * i + j)).2 in
                      ((pre (cols m * i + j)).1 ++ [w], s2)).
    { unfold pre. replace (Z.to_nat (cols m * i + j + 1)) with (S k)
        by (unfold k, offset; lia).
      fold (offset m i j). fold k. rewrite (take_S_r _ _ _ Hv), scan_snoc.
      destruct (scan (cols m) f 0 (take k d) s) as [d1 s1]. cbn zeta.
      rewrite length_take, Nat.min_l, Z.add_0_l by lia.
      destruct (offset_div_mod m i j Hij) as [Hdiv Hmod]. fold k in Hdiv, Hmod.
      rewrite Hdiv, Hmod. reflexivity. }
    destruct (f i j v (pre (cols m * i + j)).2) as [w s2] eqn:Hf.
    rewrite (bind_Done _ _ _ _ _
               (set_Done (with_data h m cur) p m cur i j w
                  (repr_with_data _ _ _ _ _ Hrepr)
                  (shaped_length _ _ _ Hcur Hs) Hij)).
    eexists _, _. split; [reflexivity|]. unfold J. rewrite Hnext. cbn [fst snd].
    split; [|reflexivity]. rewrite with_data_twice. f_equal.
    fold k. unfold cur.
    replace (Z.to_nat (cols m * i + j + 1)) with (S k) by (unfold k, offset; lia).
    rewrite insert_app_r_alt, Hpre, Nat.sub_diag by lia.
    rewrite (drop_S _ _ _ Hv). cbn. now rewrite <- app_assoc.
  - rewrite Hrun. unfold pre.
    destruct Hs as (_ & _ & Hl & _).
    rewrite <- Hl, Nat2Z.id, firstn_all, drop_all, app_nil_r. reflexivity.
Qed.

Lemma scan_log (c : Z) (g : Z -> Z -> float -> float) (d : list float) :
  forall k log,
    scan c (fun i j v log => (g i j v, log ++ [(i, j, v)])) k d log
    = (imap (fun n v => g ((k + Z.of_nat n) / c) ((k + Z.of_nat n) mod c) v) d,
       log ++ imap (fun n v => ((k + Z.of_nat n) / c, (k + Z.of_nat n) mod c, v)) d).
Proof.
  induction d as [|v d IH]; intros k log.
  - cbn. now rewrite app_nil_r.
  - cbn [scan imap]. rewrite IH, <- app_assoc. cbn. rewrite Z.add_0_r.
    f_equal; [f_equal|do 2 f_equal]; apply imap_ext; intros n x _; cbn;
      now replace (k + 1 + Z.of_nat n) with (k + Z.of_nat (S n)) by lia.
Qed.

Lemma loop_ext {A} (body body' : Z -> A -> M A) :
  (forall i a h, body i a h = body' i a h) ->
  forall n i a h, loop n i body a h = loop n i body' a h.
Proof.
  intros Hb n. induction n as [|n IH]; intros i a h; [reflexivity|].
  cbn [loop]. rewrite !run_bind, Hb. destruct (body' i a h); [apply IH | reflexivity].
Qed.

Lemma EachS_stateless (p : ptr) (g : Z -> Z -> float -> float) (h : heap) :
  EachS p (fun i j v (u : unit) => (g i j v, u)) tt h = Each p g h.
Proof.
  unfold EachS, Each. rewrite !run_bind. destruct (deref p h) as [m h0|]; [|reflexivity].
  unfold for_ at 1. unfold for_acc at 1 3. apply loop_ext. intros i [] h1.
  unfold for_, for_acc. apply loop_ext. intros j [] h2.
  rewrite !run_bind. destruct (get p i j h2) as [v h3|]; [|reflexivity].
  rewrite run_bind. destruct (set p i j (g i j v) h3) as [[] h4|]; reflexivity.
Qed.

(** X17, order of the callbacks: [Each] calls its callback once for every
    cell, in row-major order, with the indices and the old value of the cell,
    and stores what it returns; the state of the closure is threaded through
    the calls ([scan]). With a callback that logs its arguments the log is
    the list of the cells with their old values; with a callback without
    state this is [Each] as modelled before. *)
Theorem Each_row_major (h : heap) (p : ptr) (m : Matrix) (d : list float) :
  valid h p m d ->
  (forall (St : Type) (f : Z -> Z -> float -> St -> float * St) (s : St),
     EachS p f s h
     = Done (scan (cols m) f 0 d s).2 (with_data h m (scan (cols m) f 0 d s).1))
  /\ (forall g,
        EachS p (fun i j v log => (g i j v, log ++ [(i, j, v)])) [] h
        = Done (imap (fun k v => (Z.of_nat k / cols m, Z.of_nat k mod cols m, v)) d)
            (with_data h m (cellwise m g d)))
  /\ (forall g, EachS p (fun i j v (u : unit) => (g i j v, u)) tt h = Each p g h).
Proof.
  intros Hv. split; [|split].
  - intros St f s. now apply EachS_Done.
  - intros g. rewrite (EachS_Done h p m d _ _ Hv), scan_log. reflexivity.
  - intros g. apply EachS_stateless.
Qed.

Lemma Each_row_major_witness :
  EachS 0%nat (fun i j v log => ((v * v)%float, log ++ [(i, j, v)])) [] heap_23_32
  = Done [(0, 0, 1%float); (0, 1, 2%float); (0, 2, 3%float);
          (1, 0, 4%float); (1, 1, 5%float); (1, 2, 6%float)]
      (with_data heap_23_32 (mkMatrix 2 3 0%nat) [1; 4; 9; 16; 25; 36]%float).
Proof.
  exact (proj1 (proj2 (Each_row_major _ _ _ _ valid_23)) (fun _ _ v => (v * v)%float)).
Defined.

(** ** [String] *)

Lemma row_lookup (m : Matrix) (d : list float) (i j : Z) :
  in_range m i j ->
  row m d (Z.to_nat i) !! Z.to_nat j = d !! offset m i j.
Proof.
  intros [Hi Hj]. unfold row, offset.
  rewrite lookup_take_lt by lia. rewrite lookup_drop. f_equal.
  rewrite Z2Nat.inj_add, Z2Nat.inj_mul by nia.
  now rewrite (Nat.mul_comm (Z.to_nat i)).
Qed.

Lemma String_Done (field : float -> list ascii) (h : heap) (p : ptr) (m : Matrix)
    (d : list float) :
  valid h p m d -> String_ field p h = Done (render field m d) h.
Proof.
  intros [Hrepr Hs]. unfold String_.
  rewrite (bind_Done _ _ _ _ _ (deref_Done h p m (proj1 Hrepr))).
  pose (upto := fun i : Z =>
    concat ((fun i => line field (row m d i)) <$> seq 0 (Z.to_nat i))).
  destruct (for_acc_inv (fun i b h' => h' = h /\ b = upto i) (rows m)
              (fun i b =>
                 b ← for_acc (cols m) (fun j b =>
                       v ← get p i j; mret (b ++ field v)) b;
                 mret (b ++ [newline])) [] h) as (b & h' & Hrun & -> & ->).
  - apply Hs.
  - split; reflexivity.
  - intros i b h' Hi [-> ->].
    destruct (for_acc_inv
                (fun j b h' => h' = h
                   /\ b = upto i ++ concat (field <$> take (Z.to_nat j)
                                                        (row m d (Z.to_nat i))))
                (cols m)
                (fun j b => v ← get p i j; mret (b ++ field v)) (upto i) h)
      as (b & h' & Hrun & -> & ->).
    + apply Hs.
    + split; [reflexivity|]. cbn. now rewrite app_nil_r.
    + intros j b h' Hj [-> ->].
      destruct (get_Done h p m d i j Hrepr Hs (conj Hi Hj)) as (v & Hv & Hget).
      rewrite (bind_Done _ _ _ _ _ Hget).
      eexists _, _. split; [reflexivity|]. split; [reflexivity|].
      rewrite <- (row_lookup m d i j (conj Hi Hj)) in Hv.
      replace (Z.to_nat (j + 1)) with (S (Z.to_nat j)) by lia.
      rewrite (take_S_r _ _ _ Hv), fmap_app, concat_app. cbn.
      now rewrite app_nil_r, app_assoc.
    + rewrite (bind_Done _ _ _ _ _ Hrun).
      eexists _, _. split; [reflexivity|]. split; [reflexivity|].
      unfold upto. replace (Z.to_nat (i + 1)) with (S (Z.to_nat i)) by lia.
      rewrite seq_S, fmap_app, concat_app. cbn. rewrite app_nil_r, <- app_assoc.
      unfold line, row. rewrite take_take, Nat.min_id. reflexivity.
  - rewrite Hrun. reflexivity.
Qed.

Lemma concat_uniform_length {A} (ls : list (list A)) (L : nat) :
  Forall (fun l => length l = L) ls -> length (concat ls) = (length ls * L)%nat.
Proof.
  induction 1 as [|l ls Hl _ IH]; [reflexivity|].
  cbn. rewrite length_app, IH, Hl. reflexivity.
Qed.

Lemma concat_uniform_chunk {A} (ls : list (list A)) (L : nat) :
  Forall (fun l => length l = L) ls ->
  forall i l, ls !! i = Some l -> take L (drop (i * L) (concat ls)) = l.
Proof.
  induction 1 as [|l0 ls Hl _ IH]; intros i l Hi; [discriminate|].
  destruct i as [|i]; cbn in Hi |- *.
  - injection Hi as ->. now apply take_app_length'.
  - rewrite drop_app_ge by lia. rewrite Hl, Nat.add_comm, Nat.add_sub. now apply IH.
Qed.

Lemma take_drop_take {A} (l : list A) (a w L : nat) :
  (a + w <= L)%nat -> take w (drop a (take L l)) = take w (drop a l).
Proof.
  intros Hle. rewrite !take_drop_commute, take_take. do 2 f_equal. lia.
Qed.

Lemma concat_singletons {A B} (x : A) (l : list B) :
  concat ((fun _ => [x]) <$> l) = replicate (length l) x.
Proof. induction l as [|b l IH]; [reflexivity|]. cbn. now rewrite IH. Qed.

Lemma row_length (m : Matrix) (d : list float) (i : nat) :
  shaped m d -> (i < Z.to_nat (rows m))%nat ->
  length (row m d i) = Z.to_nat (cols m).
Proof.
  intros (Hr & Hc & Hl & _) Hi. unfold row. rewrite length_take, length_drop.
  assert (Z.of_nat (length d) >= (Z.of_nat i + 1) * cols m) by nia.
  assert (Hlen : length d = (Z.to_nat (rows m) * Z.to_nat (cols m))%nat) by nia.
  rewrite Hlen. nia.
Qed.

Lemma line_length (field : float -> list ascii) (w : nat) (r : list float) :
  Forall (fun v => length (field v) = w) r ->
  length (line field r) = (length r * w + 1)%nat.
Proof.
  intros Hw. unfold line. rewrite length_app, (concat_uniform_length _ w).
  - rewrite length_fmap. reflexivity.
  - now apply Forall_fmap.
Qed.

Lemma render_lines (field : float -> list ascii) (w : nat) (m : Matrix)
    (d : list float) :
  shaped m d -> Forall (fun v => length (field v) = w) d ->
  Forall (fun l => length l = (Z.to_nat (cols m) * w + 1)%nat)
    ((fun i => line field (row m d i)) <$> seq 0 (Z.to_nat (rows m))).
Proof.
  intros Hs Hw. apply Forall_fmap, Forall_seq. intros i Hi. cbn.
  rewrite (line_length field w), (row_length m d i Hs) by
    (try lia; unfold row; now apply Forall_take, Forall_drop).
  reflexivity.
Qed.

(** X18, layout of [String]: on a matrix of the data model [String]
    returns, without changing the heap, the text of the rows in order, each
    the texts of its cells followed by one newline: nothing for a matrix
    without rows, [rows] newlines for one without columns. When the text of
    every element is [w] characters wide, the text of the matrix has
    [rows * (cols * w + 1)] characters, the row [i] ends in a newline, and
    the text of the cell [(i, j)] starts at [i * (cols * w + 1) + j * w]. *)
Theorem String_layout (field : float -> list ascii) (w : nat) (h : heap) (p : ptr)
    (m : Matrix) (d : list float) :
  valid h p m d ->
  String_ field p h = Done (render field m d) h
  /\ (rows m = 0 -> render field m d = [])
  /\ (cols m = 0 -> render field m d = replicate (Z.to_nat (rows m)) newline)
  /\ (Forall (fun v => length (field v) = w) d ->
      let L := (Z.to_nat (cols m) * w + 1)%nat in
      length (render field m d) = (Z.to_nat (rows m) * L)%nat
      /\ forall i j, in_range m i j ->
           render field m d !! (Z.to_nat i * L + Z.to_nat (cols m) * w)%nat
           = Some newline
           /\ exists v,
                Get p i j h = Done (v, None) h
                /\ take w (drop (Z.to_nat i * L + Z.to_nat j * w) (render field m d))
                   = field v).
Proof.
  intros Hv. pose proof Hv as [Hrepr Hs].
  split; [now apply String_Done|]. split; [|split].
  - intros Hr. unfold render. now rewrite Hr.
  - intros Hc. unfold render.
    rewrite (list_fmap_ext _ (fun _ => [newline])).
    + now rewrite concat_singletons, length_seq.
    + intros k i _. unfold line, row. now rewrite Hc.
  - intros Hw L.
    pose proof (render_lines field w m d Hs Hw) as Hlines. fold L in Hlines.
    split.
    + unfold render. rewrite (concat_uniform_length _ L Hlines).
      now rewrite length_fmap, length_seq.
    + intros i j Hij. pose proof Hij as [Hi Hj].
      assert (Hline : take L (drop (Z.to_nat i * L) (render field m d))
                      = line field (row m d (Z.to_nat i))).
      { apply (concat_uniform_chunk _ L Hlines).
        rewrite list_lookup_fmap, lookup_seq_lt by lia. reflexivity. }
      assert (Hrow : length (row m d (Z.to_nat i)) = Z.to_nat (cols m))
        by (apply row_length; [exact Hs | lia]).
      assert (Hfields : Forall (fun l => length l = w) (field <$> row m d (Z.to_nat i))).
      { apply Forall_fmap. unfold row. now apply Forall_take, Forall_drop. }
      assert (Hcat : length (concat (field <$> row m d (Z.to_nat i)))
                     = (Z.to_nat (cols m) * w)%nat).
      { rewrite (concat_uniform_length _ w Hfields), length_fmap, Hrow. reflexivity. }
      split.
      * rewrite <- lookup_drop, <- (lookup_take_lt _ L) by (unfold L; lia).
        rewrite Hline. unfold line. rewrite <- Hcat. now apply list_lookup_middle.
      * destruct (Get_inside h p m d i j Hv Hij) as (v & Hlook & Hget).
        exists v. split; [exact Hget|].
        rewrite <- drop_drop, <- (take_drop_take _ _ _ L) by (unfold L; nia).
        rewrite Hline. unfold line.
        rewrite drop_app_le by (rewrite Hcat; nia).
        rewrite take_app_le by (rewrite length_drop, Hcat; nia).
        apply (concat_uniform_chunk _ w Hfields).
        rewrite list_lookup_fmap, (row_lookup m d i j Hij), Hlook. reflexivity.
Qed.

Example fmt_f_samples :
  fmt_f 1.5 = ["1"; "."; "5"; "0"; "0"]%char ++ replicate 10 " "%char
  /\ fmt_f (-2.25) = ["-"; "2"; "."; "2"; "5"; "0"]%char ++ replicate 9 " "%char
  /\ fmt_f 0.0625 = ["0"; "."; "0"; "6"; "2"]%char ++ replicate 10 " "%char
  /\ fmt_f 0.1875 = ["0"; "."; "1"; "8"; "8"]%char ++ replicate 10 " "%char
  /\ fmt_f neg_zero = ["-"; "0"; "."; "0"; "0"; "0"]%char ++ replicate 9 " "%char
  /\ fmt_f nan = ["N"; "a"; "N"]%char ++ replicate 12 " "%char
  /\ fmt_f infinity = ["+"; "I"; "n"; "f"]%char ++ replicate 11 " "%char
  /\ fmt_f 0x1p40
     = ["1"; "0"; "9"; "9"; "5"; "1"; "1"; "6"; "2"; "7"; "7"; "7"; "6";
        "."; "0"; "0"; "0"]%char.
Proof. repeat split; vm_compute; reflexivity. Qed.

Example String_1x2 :
  String_ fmt_f 0%nat heap_1x2
  = Done (["1"; "."; "5"; "0"; "0"]%char ++ replicate 10 " "%char
          ++ ["-"; "2"; "."; "2"; "5"; "0"]%char ++ replicate 9 " "%char
          ++ [newline]) heap_1x2.
Proof. vm_compute. reflexivity. Qed.

Lemma String_layout_witness :
  String_ fmt_f 0%nat heap_AB = Done (render fmt_f (mkMatrix 2 2 0%nat) [1; 2; 3; 4]%float) heap_AB
  /\ length (render fmt_f (mkMatrix 2 2 0%nat) [1; 2; 3; 4]%float) = 62%nat
  /\ render fmt_f (mkMatrix 2 2 0%nat) [1; 2; 3; 4]%float !! 61%nat = Some newline
  /\ exists v,
       Get 0%nat 1 1 heap_AB = Done (v, None) heap_AB
       /\ take 15 (drop 46 (render fmt_f (mkMatrix 2 2 0%nat) [1; 2; 3; 4]%float))
          = fmt_f v.
Proof.
  destruct (String_layout fmt_f 15 heap_AB 0%nat _ _ valid_AB_0)
    as (Hrun & _ & _ & Hfixed).
  destruct Hfixed as [Hlen Hcells]; [repeat constructor|].
  split; [exact Hrun|]. split; [exact Hlen|].
  apply (Hcells 1 1). split; cbn; lia.
Defined.

(** ** The example program *)

(** X19, the example program: whatever the random numbers, [main] does
    not panic and prints the 3x2 transpose of the 2x3 matrix of the numbers
    drawn, row-major, each with [n] added, followed by an empty line. *)
Theorem main_prints (field : float -> list ascii) (rnd : nat -> float) (n : float) :
  main field rnd n empty_heap
  = Done (field (rnd 0%nat + n)%float ++ field (rnd 3%nat + n)%float ++ [newline]
          ++ field (rnd 1%nat + n)%float ++ field (rnd 4%nat + n)%float ++ [newline]
          ++ field (rnd 2%nat + n)%float ++ field (rnd 5%nat + n)%float ++ [newline]
          ++ [newline])
      (mkHeap [mkMatrix 2 3 0%nat; mkMatrix 3 2 1%nat]
         [[rnd 0%nat; rnd 1%nat; rnd 2%nat; rnd 3%nat; rnd 4%nat; rnd 5%nat];
          [rnd 0%nat + n; rnd 3%nat + n; rnd 1%nat + n;
           rnd 4%nat + n; rnd 2%nat + n; rnd 5%nat + n]%float]).
Proof.
  rewrite !app_assoc. vm_compute. reflexivity.
Qed.

(** ** The locks *)

Lemma run_bind_locked {A B} (c : Locked.L A) (k : A -> Locked.L B)
    (l : Locked.held) (h : heap) :
  (c ≫= k) l h
  = match c l h with
    | Locked.Returned a l' h' => k a l' h'
    | Locked.Panicked l' => Locked.Panicked l'
    | Locked.Blocked => Locked.Blocked
    end.
Proof. reflexivity. Qed.

Lemma erases_lift {A} (c : M A) : erases (Locked.lift c) c.
Proof. intros h. unfold Locked.lift. destruct (c h); eauto. Qed.

Lemma erases_ret {A} (a : A) : erases (mret a) (mret a).
Proof. intros h. reflexivity. Qed.

Lemma erases_bind {A B} (cl : Locked.L A) (c : M A) (kl : A -> Locked.L B)
    (k : A -> M B) :
  erases cl c -> (forall a, erases (kl a) (k a)) -> erases (cl ≫= kl) (c ≫= k).
Proof.
  intros Hc Hk h. specialize (Hc h). rewrite run_bind, run_bind_locked.
  destruct (c h) as [a h'|].
  - rewrite Hc. apply Hk.
  - destruct Hc as [l ->]. eauto.
Qed.

Lemma erases_loop {A} (bodyl : Z -> A -> Locked.L A) (body : Z -> A -> M A) :
  (forall i a, erases (bodyl i a) (body i a)) ->
  forall n i a, erases (Locked.loop n i bodyl a) (loop n i body a).
Proof.
  intros Hb n. induction n as [|n IH]; intros i a; cbn [Locked.loop loop].
  - apply erases_ret.
  - apply erases_bind; [apply Hb | intros a'; apply IH].
Qed.

Lemma erases_for_acc {A} (bound : Z) (bodyl : Z -> A -> Locked.L A)
    (body : Z -> A -> M A) (a : A) :
  (forall i a, erases (bodyl i a) (body i a)) ->
  erases (Locked.for_acc bound bodyl a) (for_acc bound body a).
Proof. intros Hb. now apply erases_loop. Qed.

Lemma erases_for (bound : Z) (bodyl : Z -> Locked.L unit) (body : Z -> M unit) :
  (forall i, erases (bodyl i) (body i)) ->
  erases (Locked.for_ bound bodyl) (for_ bound body).
Proof. intros Hb. apply erases_for_acc. intros i _. apply Hb. Qed.

Lemma release_head (p : ptr) (w : Locked.mode) (l : Locked.held) :
  Locked.release p w ((p, w) :: l) = Some l.
Proof.
  cbn [Locked.release]. destruct (decide _) as [_|Hne]; [reflexivity|].
  now destruct Hne.
Qed.

Lemma erases_get (p : ptr) (i j : Z) : erases (Locked.get p i j) (get p i j).
Proof.
  intros h. unfold Locked.get, get. rewrite run_bind_locked. unfold Locked.RLock.
  destruct (objs h !! p) as [m|] eqn:Hp.
  - change (Locked.holds p Locked.Writing []) with false. cbn match.
    unfold Locked.defer, Locked.lift.
    destruct ((deref p ≫= _) h) as [v h'|].
    + rewrite run_bind_locked. unfold Locked.RUnlock.
      rewrite release_head. reflexivity.
    + unfold Locked.RUnlock. rewrite release_head. eauto.
  - rewrite deref_None by exact Hp. eauto.
Qed.

Lemma erases_set (p : ptr) (i j : Z) (v : float) :
  erases (Locked.set p i j v) (set p i j v).
Proof.
  intros h. unfold Locked.set, set. rewrite run_bind_locked. unfold Locked.Lock.
  destruct (objs h !! p) as [m|] eqn:Hp.
  - change (Locked.holds p Locked.Writing []) with false.
    change (Locked.holds p Locked.Reading []) with false. cbn [orb].
    rewrite run_bind_locked. unfold Locked.lift.
    destruct ((deref p ≫= _) h) as [[] h'|]; [|eauto].
    unfold Locked.Unlock. rewrite release_head. reflexivity.
  - rewrite deref_None by exact Hp. eauto.
Qed.

Ltac erase :=
  repeat first
    [ apply erases_get
    | apply erases_set
    | apply erases_lift
    | apply erases_ret
    | apply erases_for; intros ?
    | apply erases_for_acc; intros ? ?
    | apply erases_bind; [|intros ?]
    | match goal with
      | |- erases (match ?e with _ => _ end) _ => destruct e
      end ].

(** X20, the locks: in a program with one goroutine every method of the
    version with locks, called while no lock is held, never blocks, not
    even with the receiver as its argument; when the code without locks
    returns it returns the same result in the same heap, having released
    every lock it took, and when the code without locks panics it
    panics. *)
Theorem locks_erase :
  (forall p i j, erases (Locked.Get p i j) (Get p i j))
  /\ (forall p i j v, erases (Locked.Set_ p i j v) (Set_ p i j v))
  /\ (forall p f, erases (Locked.Each p f) (Each p f))
  /\ (forall p, erases (Locked.T p) (T p))
  /\ (forall p x, erases (Locked.Add p x) (Add p x))
  /\ (forall p x, erases (Locked.Sub p x) (Sub p x))
  /\ (forall p n, erases (Locked.Addn p n) (Addn p n))
  /\ (forall p n, erases (Locked.Scale p n) (Scale p n))
  /\ (forall p x, erases (Locked.Dot p x) (Dot p x))
  /\ (forall field p, erases (Locked.String_ field p) (String_ field p)).
Proof.
  repeat split; intros.
  - unfold Locked.Get, Get. erase.
  - unfold Locked.Set_, Set_. erase.
  - unfold Locked.Each, Each. erase.
  - unfold Locked.T, T. erase.
  - unfold Locked.Add, Add. erase.
  - unfold Locked.Sub, Sub. erase.
  - unfold Locked.Addn, Addn. erase.
  - unfold Locked.Scale, Scale. erase.
  - unfold Locked.Dot, Dot. erase.
  - unfold Locked.String_, String_. erase.
Qed.

Example Add_to_itself_takes_locks :
  Locked.Add 0%nat 0%nat [] heap_AB
  = Locked.Returned None []
      (mkHeap [mkMatrix 2 2 0%nat; mkMatrix 2 2 1%nat]
              [[2; 4; 6; 8]%float; [5; 6; 7; 8]%float]).
Proof. vm_compute. reflexivity. Qed.

(** [set] does not defer its [Unlock]: the index panic of a [Set] on the
    matrix without storage that [New(1<<32, 1<<32)] returns leaves the lock
    held for writing. *)
Example Set_panics_with_the_lock :
  Locked.Set_ 0%nat 0 0 1 [] (mkHeap [mkMatrix 4294967296 4294967296 0%nat] [[]])
  = Locked.Panicked [(0%nat, Locked.Writing)].
Proof. vm_compute. reflexivity. Qed.

(** ** Goroutines *)

Lemma last_write_snoc (i j i' j' : Z) (v : float) (l : list (Z * Z * float)) :
  forall a,
    last_write i j (l ++ [(i', j', v)]) a
    = if (i' =? i) && (j' =? j) then v else last_write i j l a.
Proof.
  induction l as [|[[i2 j2] v2] l IH]; intros a; [reflexivity|].
  cbn [app last_write]. apply IH.
Qed.

Lemma last_write_other (i j i' j' : Z) (v : float) (l : list (Z * Z * float))
    (a : float) :
  (i', j') <> (i, j) ->
  last_write i j (l ++ [(i', j', v)]) a = last_write i j l a.
Proof.
  intros Hne. rewrite last_write_snoc.
  destruct (Z.eqb_spec i' i) as [->|]; [|reflexivity].
  destruct (Z.eqb_spec j' j) as [->|]; [|reflexivity].
  now destruct Hne.
Qed.

Lemma last_write_same (i j : Z) (v : float) (l : list (Z * Z * float)) (a : float) :
  last_write i j (l ++ [(i, j, v)]) a = v.
Proof. now rewrite last_write_snoc, !Z.eqb_refl. Qed.

Lemma targets_middle (done rest : list (Z * Z * float)) (i j : Z) (v : float) :
  targets (done ++ (i, j, v) :: rest) i j.
Proof. exists v. apply elem_of_app. right. left. Qed.

Lemma invariant_init (h : heap) (p : ptr) (m : Matrix) (d : list float)
    (ls : list (list (Z * Z * float))) :
  valid h p m d -> invariant h p m d ls (Steps.Sets p <$> ls) h.
Proof.
  intros Hv. exists d, ((fun _ => []) <$> ls).
  split; [symmetry; apply with_data_id, Hv|]. split; [reflexivity|].
  split; [apply length_fmap|]. split.
  - intros t l Hl. exists [], (Steps.Sets p l).
    rewrite !list_lookup_fmap, Hl. split; [reflexivity|]. split; [reflexivity|].
    now constructor.
  - intros i j a0 Hij Ha. split.
    + intros t l done Hl Hdone _. rewrite list_lookup_fmap, Hl in Hdone.
      injection Hdone as <-. exact Ha.
    + intros _. exact Ha.
Qed.

Lemma invariant_step (h0 : heap) (p : ptr) (m : Matrix) (d : list float)
    (ls : list (list (Z * Z * float))) (t : nat) (ps : list (Steps.prog unit))
    (h : heap) :
  valid h0 p m d -> disjoint_writers ls ->
  invariant h0 p m d ls ps h ->
  exists ps' h', Steps.step_at t ps h = Done ps' h' /\ invariant h0 p m d ls ps' h'.
Proof.
  intros Hv Hdis (dcur & dones & -> & Hlen & Hps & Hst & Hcells).
  pose proof (valid_with_data h0 p m d dcur Hv Hlen) as Hvcur.
  unfold Steps.step_at.
  destruct (ps !! t) as [c|] eqn:Hc; cycle 1.
  { eexists _, _. split; [reflexivity|]. exists dcur, dones. auto. }
  destruct (ls !! t) as [l|] eqn:Hl; cycle 1.
  { apply lookup_ge_None in Hl. apply lookup_lt_Some in Hc. lia. }
  destruct (Hst t l Hl) as (done & c' & Hdone & Hc' & Hstatus).
  rewrite Hc in Hc'. injection Hc' as <-.
  destruct Hstatus as [done rest Heq|done rest i j v Heq Hij].
  - destruct rest as [|[[i j] v] rest].
    { (* finished *)
      eexists _, _. split; [reflexivity|]. exists dcur, dones. auto. }
    cbn [Steps.Sets]. 
    change (Steps.Set_ p i j v ≫= _)
      with (Steps.Atomic (checkRange p i j)
              (fun e => Steps.bind
                 (Steps.bind (Steps.Finish e)
                    (fun e => match e with
                              | Some err => mret (Some err)
                              | None => Steps.set p i j v;; mret None
                              end))
                 (fun _ => Steps.Sets p rest))).
    cbn beta iota.
    assert (Hcases : in_range m i j \/ (i < 0 \/ j < 0)
                     \/ (0 <= i /\ 0 <= j /\ (rows m <= i \/ cols m <= j)))
      by (unfold in_range; lia).
    destruct Hcases as [Hij|Hout].
    + rewrite (bind_Done _ _ _ _ _
                 (checkRange_inside _ p m i j (proj1 (proj1 Hvcur)) Hij)).
      eexists _, _. split; [reflexivity|].
      exists dcur, dones. split; [reflexivity|]. split; [exact Hlen|].
      split; [now rewrite length_insert|]. split; [|exact Hcells].
      intros t' l' Hl'. destruct (decide (t' = t)) as [->|Hne].
      * rewrite Hl in Hl'. injection Hl' as <-.
        eexists done, _. split; [exact Hdone|]. split.
        { apply list_lookup_insert_eq. eapply lookup_lt_Some; eauto. }
        now apply (status_checked p m l done rest i j v).
      * rewrite list_lookup_insert_ne by congruence. now apply Hst.
    + assert (exists e, checkRange p i j (with_data h0 m dcur)
                        = Done (Some e) (with_data h0 m dcur)) as [e He].
      { destruct Hout as [Hn|(Hi & Hj & Ho)].
        - eexists. now apply checkRange_negative.
        - eexists. apply checkRange_beyond; [apply Hvcur | lia | lia | lia]. }
      rewrite (bind_Done _ _ _ _ _ He).
      eexists _, _. split; [reflexivity|].
      exists dcur, (<[t := done ++ [(i, j, v)]]> dones).
      split; [reflexivity|]. split; [exact Hlen|].
      split; [now rewrite length_insert|]. split.
      * intros t' l' Hl'. destruct (decide (t' = t)) as [->|Hne].
        { rewrite Hl in Hl'. injection Hl' as <-.
          eexists _, _. split.
          - apply list_lookup_insert_eq. eapply lookup_lt_Some; eauto.
          - split; [apply list_lookup_insert_eq; eapply lookup_lt_Some; eauto|].
            apply (status_between p m l (done ++ [(i, j, v)]) rest).
            now rewrite <- app_assoc. }
        rewrite !list_lookup_insert_ne by congruence. now apply Hst.
      * intros i' j' a0 Hij' Ha0. destruct (Hcells i' j' a0 Hij' Ha0) as [Hown Hnone].
        split; [|exact Hnone].
        intros t' l' done' Hl' Hdone' Htar.
        destruct (decide (t' = t)) as [->|Hne].
        { rewrite list_lookup_insert_eq in Hdone' by (eapply lookup_lt_Some; eauto).
          injection Hdone' as <-. rewrite last_write_other.
          - now apply (Hown t l').
          - intros [= -> ->]. unfold in_range in *. lia. }
        rewrite list_lookup_insert_ne in Hdone' by congruence. now apply (Hown t' l').
  - (* the write *)
    rewrite (bind_Done _ _ _ _ _ (set_Done _ p m dcur i j v (proj1 Hvcur) (proj2 Hvcur) Hij)).
    eexists _, _. split; [reflexivity|].
    exists (<[offset m i j := v]> dcur), (<[t := done ++ [(i, j, v)]]> dones).
    split; [apply with_data_twice|]. split; [now rewrite length_insert|].
    split; [now rewrite length_insert|]. split.
    + intros t' l' Hl'. destruct (decide (t' = t)) as [->|Hne].
      { rewrite Hl in Hl'. injection Hl' as <-.
        eexists _, _. split.
        - apply list_lookup_insert_eq. eapply lookup_lt_Some; eauto.
        - split; [apply list_lookup_insert_eq; eapply lookup_lt_Some; eauto|].
          apply (status_between p m l (done ++ [(i, j, v)]) rest).
          now rewrite <- app_assoc. }
      rewrite !list_lookup_insert_ne by congruence. now apply Hst.
    + intros i' j' a0 Hij' Ha0. destruct (Hcells i' j' a0 Hij' Ha0) as [Hown Hnone].
      assert (Htl : targets l i j) by (rewrite Heq; apply targets_middle).
      destruct (decide ((i', j') = (i, j))) as [[= -> ->]|Hcell].
      * split.
        { intros t' l' done' Hl' Hdone' Htar.
          assert (t' = t) as -> by (eapply Hdis; eauto).
          rewrite list_lookup_insert_eq in Hdone' by (eapply lookup_lt_Some; eauto).
          injection Hdone' as <-. rewrite last_write_same.
          apply list_lookup_insert_eq. rewrite Hlen.
          destruct (offset_bounds m d i j (proj2 Hv) Hij). unfold offset. lia. }
        intros Hno. destruct (Hno t l Hl Htl).
      * assert (Hoff : offset m i j <> offset m i' j').
        { intros Hoff. apply Hcell.
          destruct (offset_inj m i j i' j' Hij Hij' Hoff) as [-> ->]. reflexivity. }
        rewrite list_lookup_insert_ne by exact Hoff.
        split; [|exact Hnone].
        intros t' l' done' Hl' Hdone' Htar.
        destruct (decide (t' = t)) as [->|Hne].
        { rewrite list_lookup_insert_eq in Hdone' by (eapply lookup_lt_Some; eauto).
          injection Hdone' as <-. rewrite last_write_other by congruence.
          now apply (Hown t l'). }
        rewrite list_lookup_insert_ne in Hdone' by congruence. now apply (Hown t' l').
Qed.

Lemma invariant_schedule (h0 : heap) (p : ptr) (m : Matrix) (d : list float)
    (ls : list (list (Z * Z * float))) (s : list nat) :
  valid h0 p m d -> disjoint_writers ls ->
  forall ps h, invariant h0 p m d ls ps h ->
    exists ps' h', Steps.run_schedule s ps h = Done ps' h'
                   /\ invariant h0 p m d ls ps' h'.
Proof.
  intros Hv Hdis. induction s as [|t s IH]; intros ps h Hinv.
  - eexists _, _. split; [reflexivity | exact Hinv].
  - destruct (invariant_step h0 p m d ls t ps h Hv Hdis Hinv) as (ps1 & h1 & Hstep & Hinv1).
    destruct (IH ps1 h1 Hinv1) as (ps2 & h2 & Hrun & Hinv2).
    exists ps2, h2. split; [|exact Hinv2].
    cbn [Steps.run_schedule]. now rewrite (bind_Done _ _ _ _ _ Hstep).
Qed.

Lemma status_finished (p : ptr) (m : Matrix) (l done : list (Z * Z * float)) :
  status p m l done (Steps.Finish tt) -> done = l.
Proof.
  intros Hst. inversion Hst as [done' rest Heq Hd Hc|]; subst.
  destruct rest as [|[[i j] v] rest]; [now rewrite app_nil_r|]. discriminate.
Qed.

Lemma agrees_atomic {A} (c : M A) : agrees (Steps.atomic c) c.
Proof.
  intros h. cbn [Steps.atomic Steps.exec]. rewrite run_bind. now destruct (c h).
Qed.

Lemma agrees_ret {A} (a : A) : agrees (mret a) (mret a).
Proof. intros h. reflexivity. Qed.

Lemma agrees_bind {A B} (c : Steps.prog A) (c' : M A) (k : A -> Steps.prog B)
    (k' : A -> M B) :
  agrees c c' -> (forall a, agrees (k a) (k' a)) -> agrees (c ≫= k) (c' ≫= k').
Proof.
  intros Hc Hk. revert c' Hc. unfold mbind at 1, Steps.prog_bind.
  induction c as [a|X c0 k0 IH]; intros c' Hc h; cbn [Steps.bind Steps.exec].
  - rewrite run_bind, <- Hc. cbn. apply Hk.
  - rewrite !run_bind, <- Hc. cbn [Steps.exec]. rewrite run_bind.
    destruct (c0 h) as [x h1|]; [|reflexivity].
    specialize (IH x (Steps.exec (k0 x)) (fun _ => eq_refl) h1).
    rewrite run_bind in IH. exact IH.
Qed.

Lemma agrees_loop {A} (body : Z -> A -> Steps.prog A) (body' : Z -> A -> M A) :
  (forall i a, agrees (body i a) (body' i a)) ->
  forall n i a, agrees (Steps.loop n i body a) (loop n i body' a).
Proof.
  intros Hb n. induction n as [|n IH]; intros i a; cbn [Steps.loop loop].
  - apply agrees_ret.
  - apply agrees_bind; [apply Hb | intros a'; apply IH].
Qed.

Lemma agrees_for (bound : Z) (body : Z -> Steps.prog unit) (body' : Z -> M unit) :
  (forall i, agrees (body i) (body' i)) ->
  agrees (Steps.for_ bound body) (for_ bound body').
Proof. intros Hb. apply agrees_loop. intros i _. apply Hb. Qed.

Ltac agree :=
  repeat first
    [ apply agrees_atomic
    | apply agrees_ret
    | apply agrees_for; intros ?
    | apply agrees_bind; [|intros ?]
    | match goal with
      | |- agrees (match ?e with _ => _ end) _ => destruct e
      end ].

Lemma agrees_Set (p : ptr) (i j : Z) (v : float) :
  agrees (Steps.Set_ p i j v) (Set_ p i j v).
Proof. unfold Steps.Set_, Set_, Steps.set. agree. Qed.

Lemma agrees_Sets (p : ptr) (l : list (Z * Z * float)) :
  agrees (Steps.Sets p l) (Sets p l).
Proof.
  induction l as [|[[i j] v] l IH]; cbn [Steps.Sets Sets]; [apply agrees_ret|].
  apply agrees_bind; [apply agrees_Set | intros _; exact IH].
Qed.

Lemma agrees_Addn (p : ptr) (n : float) : agrees (Steps.Addn p n) (Addn p n).
Proof. unfold Steps.Addn, Addn, Steps.get, Steps.set. agree. Qed.

Lemma run_schedule_app (s1 s2 : list nat) :
  forall ps h,
    Steps.run_schedule (s1 ++ s2) ps h
    = (ps' ← Steps.run_schedule s1 ps; Steps.run_schedule s2 ps') h.
Proof.
  induction s1 as [|t s1 IH]; intros ps h; [reflexivity|].
  cbn [app Steps.run_schedule]. rewrite !run_bind.
  destruct (Steps.step_at t ps h) as [ps1 h1|]; [|reflexivity].
  rewrite IH. reflexivity.
Qed.

Lemma step_at_atomic {X} (t : nat) (ps : list (Steps.prog unit)) (h : heap)
    (c : M X) (k : X -> Steps.prog unit) (x : X) (h' : heap) :
  ps !! t = Some (Steps.Atomic c k) -> c h = Done x h' ->
  Steps.step_at t ps h = Done (<[t := k x]> ps) h'.
Proof.
  intros Hp Hc. unfold Steps.step_at. rewrite Hp.
  now rewrite (bind_Done _ _ _ _ _ Hc).
Qed.

(** A goroutine that the scheduler lets run until it ends does what its
    code does alone. *)
Lemma run_alone (t : nat) (c : Steps.prog unit) :
  forall ps h h',
    ps !! t = Some c -> Steps.exec c h = Done tt h' ->
    exists k, Steps.run_schedule (replicate k t) ps h
              = Done (<[t := Steps.Finish tt]> ps) h'.
Proof.
  induction c as [[]|X c0 k0 IH]; intros ps h h' Hc Hexec.
  - injection Hexec as <-. exists 0%nat. cbn. now rewrite list_insert_id.
  - cbn [Steps.exec] in Hexec. rewrite run_bind in Hexec.
    destruct (c0 h) as [x h1|] eqn:Hc0; [|discriminate].
    destruct (IH x (<[t := k0 x]> ps) h1 h') as [k Hk]; [|exact Hexec|].
    { apply list_lookup_insert_eq. eapply lookup_lt_Some; eauto. }
    exists (S k). cbn [replicate Steps.run_schedule]. unfold Steps.step_at.
    rewrite Hc, !run_bind, Hc0. cbn. rewrite Hk.
    now rewrite list_insert_insert_eq.
Qed.

(** An iteration of [Addn] on another cell than [(0, 0)] leaves that
    cell. *)
Lemma Addn_cell_keeps_first (h0 : heap) (p : ptr) (m : Matrix) (d : list float)
    (n w : float) (i j : Z) (h : heap) :
  valid h0 p m d -> in_range m i j -> (i, j) <> (0, 0) ->
  (exists dcur, h = with_data h0 m dcur /\ length dcur = length d
                /\ dcur !! 0%nat = Some w) ->
  exists h', (a ← get p i j; set p i j (a + n)%float) h = Done tt h'
             /\ exists dcur, h' = with_data h0 m dcur /\ length dcur = length d
                             /\ dcur !! 0%nat = Some w.
Proof.
  intros Hv Hij Hne (dcur & -> & Hlen & Hw).
  pose proof (valid_with_data h0 p m d dcur Hv Hlen) as [Hrepr Hs].
  destruct (get_Done _ p m dcur i j Hrepr Hs Hij) as (a & Ha & Hget).
  rewrite (bind_Done _ _ _ _ _ Hget), (set_Done _ p m dcur i j _ Hrepr Hs Hij).
  eexists. split; [reflexivity|].
  exists (<[offset m i j := (a + n)%float]> dcur).
  split; [apply with_data_twice|]. split; [now rewrite length_insert|].
  rewrite list_lookup_insert_ne; [exact Hw|].
  intros H0. apply Hne.
  assert (H00 : in_range m 0 0) by (unfold in_range in *; lia).
  assert (Hoff : offset m i j = offset m 0 0).
  { rewrite H0. unfold offset. f_equal. lia. }
  destruct (offset_inj m i j 0 0 Hij H00 Hoff) as [-> ->]. reflexivity.
Qed.

Ltac elems :=
  repeat match goal with
         | H : _ ∈ _ :: _ |- _ => apply elem_of_cons in H as [H|H]
         | H : _ ∈ [] |- _ => apply elem_of_nil in H; destruct H
         end.

(** X21, concurrent [Set]s: goroutines that each apply a list of [Set]
    calls to the same matrix, no cell being written to by two of them, never
    panic, whatever the scheduler does; as soon as one of them has finished,
    every valid cell it writes to holds its last write to that cell, and a
    cell that none of them writes to holds what it held: no update is lost.
    Run alone, such a goroutine is the sequence of [Set] calls. *)
Theorem concurrent_Sets (h : heap) (p : ptr) (m : Matrix) (d : list float)
    (ls : list (list (Z * Z * float))) (s : list nat) :
  valid h p m d -> disjoint_writers ls ->
  exists ps' h',
    Steps.run_schedule s (Steps.Sets p <$> ls) h = Done ps' h'
    /\ Dimentions p h' = Done (rows m, cols m) h'
    /\ (forall l h0, Steps.exec (Steps.Sets p l) h0 = Sets p l h0)
    /\ forall i j, in_range m i j ->
         exists a0,
           Get p i j h = Done (a0, None) h
           /\ (forall t l, ls !! t = Some l -> ps' !! t = Some (Steps.Finish tt) ->
                 targets l i j ->
                 Get p i j h' = Done (last_write i j l a0, None) h')
           /\ ((forall t l, ls !! t = Some l -> ~ targets l i j) ->
               Get p i j h' = Done (a0, None) h').
Proof.
  intros Hv Hdis.
  destruct (invariant_schedule h p m d ls s Hv Hdis _ _ (invariant_init h p m d ls Hv))
    as (ps' & h' & Hrun & dcur & dones & -> & Hlen & Hps & Hst & Hcells).
  exists ps', (with_data h m dcur). split; [exact Hrun|].
  split; [apply Dimentions_Done, Hv|].
  split; [intros l h0; apply agrees_Sets|].
  intros i j Hij. destruct (Get_inside h p m d i j Hv Hij) as (a0 & Ha0 & Hget).
  exists a0. split; [exact Hget|].
  destruct (Hcells i j a0 Hij Ha0) as [Hown Hnone]. split.
  - intros t l Hl Hfin Htar.
    destruct (Hst t l Hl) as (done & c & Hdone & Hc & Hstatus).
    rewrite Hfin in Hc. injection Hc as <-.
    apply status_finished in Hstatus as ->.
    apply (Get_with_data h p m d); [exact Hv | exact Hlen | exact Hij |].
    now apply (Hown t l).
  - intros Hno. apply (Get_with_data h p m d); [exact Hv | exact Hlen | exact Hij |].
    now apply Hnone.
Qed.

Lemma concurrent_Sets_witness :
  exists h',
    Steps.run_schedule [0; 1; 1; 0; 0; 1; 1; 0; 1]%nat
      (Steps.Sets 0%nat
         <$> [[(0, 0, 9%float); (0, 0, 7%float)];
              [(1, 1, 5%float); (5, 5, 1%float); (1, 0, 6%float)]]) heap_AB
    = Done [Steps.Finish tt; Steps.Finish tt] h'
    /\ Get 0%nat 0 0 h' = Done (7%float, None) h'
    /\ Get 0%nat 1 1 h' = Done (5%float, None) h'
    /\ Get 0%nat 0 1 h' = Done (2%float, None) h'.
Proof.
  assert (Hdis : disjoint_writers
                   [[(0, 0, 9%float); (0, 0, 7%float)];
                    [(1, 1, 5%float); (5, 5, 1%float); (1, 0, 6%float)]]).
  { intros t t' l l' i j Hl Hl' [v Hv] [v' Hv'].
    destruct t as [|[|t]], t' as [|[|t']]; try discriminate; try reflexivity;
      exfalso; injection Hl as <-; injection Hl' as <-; elems; congruence. }
  destruct (concurrent_Sets heap_AB 0%nat _ _ _ [0; 1; 1; 0; 0; 1; 1; 0; 1]%nat
              valid_AB_0 Hdis) as (ps' & h' & Hrun & _ & _ & Hcells).
  assert (Hps : ps' = [Steps.Finish tt; Steps.Finish tt]).
  { vm_compute in Hrun. now injection Hrun as <- _. }
  subst ps'. exists h'. split; [exact Hrun|].
  split; [|split].
  - destruct (Hcells 0 0) as (a0 & _ & Hown & _); [split; cbn; lia|].
    apply (Hown 0%nat _ eq_refl eq_refl). exists 9%float. left.
  - destruct (Hcells 1 1) as (a0 & _ & Hown & _); [split; cbn; lia|].
    apply (Hown 1%nat _ eq_refl eq_refl). exists 5%float. left.
  - destruct (Hcells 0 1) as (a0 & Hget & _ & Hnone); [split; cbn; lia|].
    injection Hget as <-. apply Hnone.
    intros t l Hl [v Hv].
    destruct t as [|[|t]]; try discriminate; injection Hl as <-; elems;
      congruence.
Defined.

(** X22, a lost update: [Addn] is not atomic. On every matrix of the data
    model that has a cell there is a schedule of two goroutines, one calling
    [Addn(n1)] and one [Addn(n2)], both running to their end, after which
    the cell [(0, 0)], which held [a], holds [a + n2]: the second goroutine
    read it before the first one wrote it. One call after the other leaves
    [a + n1 + n2]. Run alone, the steps of [Addn] are [Addn]. *)
Theorem Addn_lost_update (h : heap) (p : ptr) (m : Matrix) (d : list float)
    (n1 n2 : float) :
  valid h p m d -> in_range m 0 0 ->
  exists a0 s h' h'',
    Get p 0 0 h = Done (a0, None) h
    /\ Steps.run_schedule s [Steps.Addn p n1; Steps.Addn p n2] h
       = Done [Steps.Finish tt; Steps.Finish tt] h'
    /\ Get p 0 0 h' = Done ((a0 + n2)%float, None) h'
    /\ (Addn p n1;; Addn p n2) h = Done tt h''
    /\ Get p 0 0 h'' = Done ((a0 + n1 + n2)%float, None) h''
    /\ (forall n h0, Steps.exec (Steps.Addn p n) h0 = Addn p n h0).
Proof.
  intros Hv H00. pose proof Hv as [Hrepr Hs].
  destruct (Get_inside h p m d 0 0 Hv H00) as (a0 & Ha0 & Hget).
  assert (Hoff0 : offset m 0 0 = 0%nat) by (unfold offset; f_equal; lia).
  rewrite Hoff0 in Ha0.
  set (d1 := (fun a => a + n1)%float <$> d).
  assert (Hl1 : length d1 = length d) by apply length_fmap.
  pose proof (valid_with_data h p m d d1 Hv Hl1) as Hv1.
  set (h1 := with_data h m d1) in *.
  (* the second goroutine, after it has read the cell (0, 0) *)
  destruct (Z.to_nat (rows m)) as [|r'] eqn:Hr; [unfold in_range in H00; lia|].
  destruct (Z.to_nat (cols m)) as [|c'] eqn:Hc; [unfold in_range in H00; lia|].
  set (G := fun (i j : Z) (_ : unit) =>
              (a ← get p i j; set p i j (a + n2)%float) : M unit).
  set (F := fun (i : Z) (_ : unit) => for_ (cols m) (fun j => G i j tt)).
  set (GS := fun (i j : Z) (_ : unit) =>
               (a ← Steps.get p i j; Steps.set p i j (a + n2)%float)
               : Steps.prog unit).
  set (FS := fun (i : Z) (_ : unit) => Steps.for_ (cols m) (fun j => GS i j tt)).
  set (B' := (Steps.set p 0 0 (a0 + n2)%float ≫= fun a' => Steps.loop c' 1 (GS 0) a')
               ≫= fun a' => Steps.loop r' 1 FS a').
  assert (HB' : agrees B'
                  ((set p 0 0 (a0 + n2)%float ≫= fun a' => loop c' 1 (G 0) a')
                     ≫= fun a' => loop r' 1 F a')).
  { unfold B'. apply agrees_bind; [apply agrees_bind|].
    - apply agrees_atomic.
    - intros a'. apply agrees_loop. intros j []. unfold GS, G, Steps.get, Steps.set. agree.
    - intros a'. apply agrees_loop. intros i []. unfold FS, F.
      apply agrees_for. intros j. unfold GS, G, Steps.get, Steps.set. agree. }
  pose (I := fun (h2 : heap) =>
    exists dcur, h2 = with_data h m dcur /\ length dcur = length d
                 /\ dcur !! 0%nat = Some (a0 + n2)%float).
  assert (Hrest : exists h', Steps.exec B' h1 = Done tt h' /\ I h').
  { rewrite HB'.
    rewrite !run_bind, (set_Done h1 p m d1 0 0 _ (proj1 Hv1) (proj2 Hv1) H00).
    unfold h1. rewrite with_data_twice, Hoff0.
    destruct (loop_inv (fun _ _ h2 => I h2) (G 0) c' 1 tt
                (with_data h m (<[0%nat := (a0 + n2)%float]> d1)))
      as ([] & h2 & Hrun2 & HI2).
    { exists (<[0%nat := (a0 + n2)%float]> d1). split; [reflexivity|].
      split; [now rewrite length_insert|].
      apply list_lookup_insert_eq. rewrite Hl1. eapply lookup_lt_Some; eauto. }
    { intros j [] h2 Hj HI. unfold G.
      destruct (Addn_cell_keeps_first h p m d n2 (a0 + n2)%float 0 j h2 Hv)
        as (h3 & Hrun3 & HI3); [unfold in_range in *; lia | intros [=]; lia | exact HI|].
      exists tt, h3. split; [exact Hrun3 | exact HI3]. }
    rewrite Hrun2.
    destruct (loop_inv (fun _ _ h2 => I h2) F r' 1 tt h2 HI2)
      as ([] & h3 & Hrun3 & HI3).
    { intros i [] h3 Hi HI. unfold F, for_.
      destruct (for_acc_inv (fun _ _ h4 => I h4) (cols m)
                  (fun j _ => G i j tt) tt h3) as ([] & h4 & Hrun4 & HI4).
      - apply Hs.
      - exact HI.
      - intros j [] h4 Hj HI4. unfold G.
        destruct (Addn_cell_keeps_first h p m d n2 (a0 + n2)%float i j h4 Hv)
          as (h5 & Hrun5 & HI5);
          [unfold in_range in *; lia | intros [=]; lia | exact HI4|].
        exists tt, h5. split; [exact Hrun5 | exact HI5].
      - exists tt, h4. split; [exact Hrun4 | exact HI4]. }
    exists h3. split; [exact Hrun3 | exact HI3]. }
  destruct Hrest as (h' & Hexec' & dfin & -> & Hlfin & Hfin).
  (* the first goroutine runs in between *)
  destruct (run_alone 0%nat (Steps.Addn p n1) [Steps.Addn p n1; B'] h h1 eq_refl)
    as [kA HkA].
  { rewrite agrees_Addn. exact (Addn_Done h p m d n1 Hv). }
  destruct (run_alone 1%nat B' [Steps.Finish tt; B'] h1 _ eq_refl Hexec') as [kB HkB].
  assert (Hfirst : Steps.run_schedule [1; 1]%nat
                     [Steps.Addn p n1; Steps.Addn p n2] h
                   = Done [Steps.Addn p n1; B'] h).
  { pose (k1 := fun m' : Matrix =>
                  Steps.for_ (rows m') (fun i =>
                    Steps.for_ (cols m') (fun j => GS i j tt))).
    pose (kget := fun a : float =>
                    (Steps.set p 0 0 (a + n2)%float
                       ≫= fun a' => Steps.loop c' 1 (GS 0) a')
                      ≫= fun a' => Steps.loop r' 1 FS a').
    assert (E1 : k1 m = Steps.Atomic (get p 0 0) kget).
    { change (k1 m) with (Steps.loop (Z.to_nat (rows m)) 0 FS tt).
      rewrite Hr. cbn [Steps.loop].
      change (FS 0 tt) with (Steps.loop (Z.to_nat (cols m)) 0 (GS 0) tt).
      rewrite Hc. reflexivity. }
    cbn [Steps.run_schedule].
    rewrite (bind_Done _ _ _ _ _
               (step_at_atomic 1%nat [Steps.Addn p n1; Steps.Addn p n2] h
                  (deref p) k1 m h eq_refl (deref_Done h p m (proj1 Hrepr)))).
    cbn [insert list_insert]. rewrite E1.
    destruct (get_Done h p m d 0 0 Hrepr Hs H00) as (a & Ha & Hget0).
    rewrite Hoff0, Ha0 in Ha. injection Ha as <-.
    rewrite (bind_Done _ _ _ _ _
               (step_at_atomic 1%nat [Steps.Addn p n1; Steps.Atomic (get p 0 0) kget]
                  h (get p 0 0) kget a0 h eq_refl Hget0)).
    reflexivity. }
  exists a0, ([1; 1]%nat ++ replicate kA 0%nat ++ replicate kB 1%nat),
    (with_data h m dfin).
  eexists. split; [exact Hget|]. split; [|split; [|split; [|split]]].
  - rewrite run_schedule_app, (bind_Done _ _ _ _ _ Hfirst).
    rewrite run_schedule_app, (bind_Done _ _ _ _ _ HkA). exact HkB.
  - apply (Get_with_data h p m d); [exact Hv | exact Hlfin | exact H00 |].
    now rewrite Hoff0.
  - rewrite (bind_Done _ _ _ _ _ (Addn_Done h p m d n1 Hv)).
    exact (Addn_Done _ p m d1 n2 Hv1).
  - apply (Get_with_data _ p m d1); [exact Hv1 | apply length_fmap | exact H00 |].
    rewrite Hoff0, list_lookup_fmap. unfold d1. now rewrite list_lookup_fmap, Ha0.
  - intros n h0. apply agrees_Addn.
Qed.

Lemma Addn_lost_update_witness :
  exists s h' h'',
    Steps.run_schedule s [Steps.Addn 0%nat 1; Steps.Addn 0%nat 10] heap_AB
    = Done [Steps.Finish tt; Steps.Finish tt] h'
    /\ Get 0%nat 0 0 h' = Done (11%float, None) h'
    /\ (Addn 0%nat 1;; Addn 0%nat 10) heap_AB = Done tt h''
    /\ Get 0%nat 0 0 h'' = Done (12%float, None) h''.
Proof.
  destruct (Addn_lost_update heap_AB 0%nat _ _ 1 10 valid_AB_0)
    as (a0 & s & h' & h'' & Hget & Hrun & Hlost & Hseq & Hboth & _);
    [split; cbn; lia|].
  injection Hget as <-.
  exists s, h', h''. split; [exact Hrun|]. split; [exact Hlost|].
  split; [exact Hseq | exact Hboth].
Defined.

(** Such a schedule on a matrix of one cell: the second goroutine reads
    between the read and the write of the first. *)
Example lost_update_on_one_cell (a n1 n2 : float) :
  Steps.run_schedule [0; 0; 1; 1; 1; 0]%nat
    [Steps.Addn 0%nat n1; Steps.Addn 0%nat n2]
    (mkHeap [mkMatrix 1 1 0%nat] [[a]])
  = Done [Steps.Finish tt; Steps.Finish tt]
      (mkHeap [mkMatrix 1 1 0%nat] [[(a + n1)%float]]).
Proof. vm_compute. reflexivity. Qed.
